(** * The selector extension engine of libsass (src/extend.cpp)

    A shallow embedding of the functions of [extend.cpp] that implement the
    [@extend] directive: [trim], [chunks], the LCS utility, [mergeInitialOps],
    [mergeFinalOps], [subweave], [weave], the extend driver and the tree
    walker's final check, with the properties the specification states about
    them.

    Conventions.
    - A C++ function that can dereference a null pointer or read the front or
      back of an empty deque returns an [Outcome]: [Returns v] for a normal
      return, [Undefined] where the C++ has undefined behaviour, [Thrown msg]
      where [error(...)] throws, [OutOfFuel] where a fuel-bounded recursion
      ran out (proved unreachable for the fuel the wrappers supply; the
      recursion of [extendSelectorList] through the inner lists of wrapped
      selectors takes its bound as an argument).
    - Arguments passed by non-const reference and mutated are returned
      together with the result.
    - The selector AST (ast.hpp), the [Node] shim (node.hpp), [paths],
      the subset map and the [Node] overload of [lcs] are not part of
      extend.cpp.  Their data is modelled from the specification; their
      operations are fields of the [Ast] interface, so every theorem holds
      for any implementation of them. *)

From Stdlib Require Import NArith.
From stdpp Require Import base tactics option list strings numbers.

Set Warnings "-register-all".
Local Open Scope N_scope.
Local Open Scope nat_scope.

(** ** Outcomes of the C++ functions *)

Inductive Outcome (A : Type) : Type :=
  | Returns (a : A)
  | Undefined
  | Thrown (msg : string)
  | OutOfFuel.
Arguments Returns {A} a.
Arguments Undefined {A}.
Arguments Thrown {A} msg.
Arguments OutOfFuel {A}.

Definition Outcome_bind {A B : Type} (m : Outcome A) (k : A → Outcome B) : Outcome B :=
  match m with
  | Returns a => k a
  | Undefined => Undefined
  | Thrown msg => Thrown msg
  | OutOfFuel => OutOfFuel
  end.

Notation "'do' x <- m ; k" := (Outcome_bind m (fun x => k))
  (at level 10, x pattern, m at level 100, k at level 200).

(** Dereferencing a possibly-null pointer. *)
Definition deref {A : Type} (p : option A) : Outcome A :=
  match p with
  | Some a => Returns a
  | None => Undefined
  end.

Definition returned {A : Type} (m : Outcome A) : Prop := ∃ a, m = Returns a.

(** ** The selector AST

    Modelled from the spec: ast.hpp is not in the source tree.  Section 3 of
    the specification gives the shape: simple selectors are a tagged variant,
    a compound is an ordered sequence of simple selectors with an [extended]
    flag and a line-feed flag, a complex selector is a chain of nodes that
    hold a combinator, an optional head compound and an optional tail.  The
    fields [is_optional], [media_block] and [sources] are the ones extend.cpp
    reads through [is_optional()], [media_block()] and [sources()].  The
    argument of a wrapped selector is a selector list, or something else
    ([None]: the [dynamic_cast] to [Selector_List] fails). *)

Inductive Combinator : Type :=
  | ANCESTOR_OF | PARENT_OF | PRECEDES | ADJACENT_TO | REFERENCE.

#[global] Instance Combinator_eq_dec : EqDecision Combinator.
Proof. solve_decision. Defined.

(** A media block, reduced to what [complexSelectorHasExtension] reads of it:
    its media queries, already rendered by [to_string], or null. *)
Record Media_Block : Type := mkMedia_Block { media_queries : option string }.

Inductive Simple_Selector : Type :=
  | Type_Selector (name : string)
  | Class_Selector (name : string)
  | Id_Selector (name : string)
  | Attribute_Selector (name : string)
  | Pseudo_Selector (name : string) (is_pseudo_element : bool)
  | Placeholder_Selector (name : string)
  | Parent_Selector
  | Wrapped_Selector (name : string) (selector : option (list Complex_Selector))
with Compound_Selector : Type :=
  | mkCompound (elements : list Simple_Selector)
               (sources : list Complex_Selector)
               (extended is_optional compound_line_feed : bool)
               (media_block : option Media_Block)
with Complex_Selector : Type :=
  | mkComplex (combinator : Combinator)
              (head : option Compound_Selector)
              (tail : option Complex_Selector)
              (has_line_feed : bool).

Definition elements (c : Compound_Selector) : list Simple_Selector :=
  match c with mkCompound els _ _ _ _ _ => els end.
Definition compound_sources (c : Compound_Selector) : list Complex_Selector :=
  match c with mkCompound _ srcs _ _ _ _ => srcs end.
Definition extended (c : Compound_Selector) : bool :=
  match c with mkCompound _ _ e _ _ _ => e end.
Definition is_optional (c : Compound_Selector) : bool :=
  match c with mkCompound _ _ _ o _ _ => o end.
Definition compound_line_feed (c : Compound_Selector) : bool :=
  match c with mkCompound _ _ _ _ lf _ => lf end.
Definition media_block (c : Compound_Selector) : option Media_Block :=
  match c with mkCompound _ _ _ _ _ mb => mb end.

Definition combinator (s : Complex_Selector) : Combinator :=
  match s with mkComplex c _ _ _ => c end.
Definition head (s : Complex_Selector) : option Compound_Selector :=
  match s with mkComplex _ h _ _ => h end.
Definition tail (s : Complex_Selector) : option Complex_Selector :=
  match s with mkComplex _ _ t _ => t end.
Definition has_line_feed (s : Complex_Selector) : bool :=
  match s with mkComplex _ _ _ lf => lf end.

(** [pSelector->head(h)]: the same node with its head replaced. *)
Definition set_head (s : Complex_Selector) (h : option Compound_Selector) : Complex_Selector :=
  match s with mkComplex c _ t lf => mkComplex c h t lf end.

(** [pSelector->has_line_feed(b)] *)
Definition set_line_feed (s : Complex_Selector) (b : bool) : Complex_Selector :=
  match s with mkComplex c h t _ => mkComplex c h t b end.

(** [new Compound_Selector(pstate)] and [operator<<] on a compound *)
Definition emptyCompound : Compound_Selector := mkCompound [] [] false false false None.
Definition compound_push (c : Compound_Selector) (s : Simple_Selector) : Compound_Selector :=
  match c with
  | mkCompound els srcs e o lf mb => mkCompound (els ++ [s]) srcs e o lf mb
  end.

(** Modelled from the spec: [pSelector->last()] is the innermost node, the
    last one of the chain. *)
Fixpoint last_node (s : Complex_Selector) : Complex_Selector :=
  match s with
  | mkComplex _ _ (Some t) _ => last_node t
  | mkComplex _ _ None _ => s
  end.

(** [pCompound->extended(true)] *)
Definition set_extended (c : Compound_Selector) : Compound_Selector :=
  match c with mkCompound els srcs _ o lf mb => mkCompound els srcs true o lf mb end.

(** ** The Node shim

    Modelled from the spec: node.hpp is not in the source tree.  A [Node] is
    nil, a combinator, a selector wrapping a complex selector, or a
    collection of child nodes; every node carries the formatting hint
    [got_line_feed]. *)

Inductive Node : Type :=
  | NilNode
  | CombinatorNode (got_line_feed : bool) (c : Combinator)
  | SelectorNode (got_line_feed : bool) (s : Complex_Selector)
  | CollectionNode (got_line_feed : bool) (children : list Node).

Definition createNil : Node := NilNode.
Definition createCollection : Node := CollectionNode false [].
Definition createCombinator (c : Combinator) : Node := CombinatorNode false c.

Definition isNil (n : Node) : bool :=
  match n with NilNode => true | _ => false end.
Definition isCombinator (n : Node) : bool :=
  match n with CombinatorNode _ _ => true | _ => false end.
Definition isSelector (n : Node) : bool :=
  match n with SelectorNode _ _ => true | _ => false end.
Definition isCollection (n : Node) : bool :=
  match n with CollectionNode _ _ => true | _ => false end.

Definition got_line_feed (n : Node) : bool :=
  match n with
  | NilNode => false
  | CombinatorNode lf _ | SelectorNode lf _ | CollectionNode lf _ => lf
  end.

(** [node.collection()]: the deque of a collection node, null otherwise. *)
Definition collection (n : Node) : option (list Node) :=
  match n with CollectionNode _ l => Some l | _ => None end.

(** [node.selector()]: the complex selector of a selector node, null otherwise. *)
Definition selector (n : Node) : option Complex_Selector :=
  match n with SelectorNode _ s => Some s | _ => None end.

(** [node.combinator()]: combinator nodes hold their combinator, every other
    node was constructed with [ANCESTOR_OF]. *)
Definition node_combinator (n : Node) : Combinator :=
  match n with CombinatorNode _ c => c | _ => ANCESTOR_OF end.

(** [std::deque]: [front()] and [back()] are undefined on an empty deque. *)
Definition front (l : list Node) : Outcome Node :=
  match l with
  | x :: _ => Returns x
  | [] => Undefined
  end.
Definition back (l : list Node) : Outcome Node :=
  match list.last l with
  | Some x => Returns x
  | None => Undefined
  end.
Definition pop_front (l : list Node) : list Node := drop 1 l.
Definition pop_back (l : list Node) : list Node := removelast l.

(** Replace the deque of a collection node, keeping its hint. *)
Definition with_collection (n : Node) (l : list Node) : Node :=
  CollectionNode (got_line_feed n) l.

(** [node.got_line_feed = b] *)
Definition with_line_feed (n : Node) (b : bool) : Node :=
  match n with
  | NilNode => NilNode
  | CombinatorNode _ c => CombinatorNode b c
  | SelectorNode _ s => SelectorNode b s
  | CollectionNode _ l => CollectionNode b l
  end.

(** ** The interface to the selector algebra

    The operations of ast.cpp, node.cpp and sass_util.hpp that extend.cpp
    calls.  They are not part of the source under verification: the engine
    is defined over any implementation of them. *)

Class Ast : Type := {
  (** [Complex_Selector::specificity()], an [unsigned long] *)
  specificity : Complex_Selector → N;
  (** [Complex_Selector::sources()] *)
  sources : Complex_Selector → list Complex_Selector;
  (** [lhs->is_superselector_of(rhs)] on complex selectors *)
  is_superselector_of : Complex_Selector → Complex_Selector → bool;
  (** [Compound_Selector::unify_with], null when unification is impossible *)
  unify_with : Compound_Selector → Compound_Selector → option Compound_Selector;
  (** [selectors_equal(one, two, simpleSelectorOrderDependent)] *)
  selectors_equal : Complex_Selector → Complex_Selector → bool → bool;
  (** [nodeToComplexSelector] of node.cpp: it throws for a node that is
      neither nil nor a collection, and returns the null pointer for nil
      ([Undefined]: every caller in extend.cpp dereferences the result) *)
  nodeToComplexSelector : Node → Outcome Complex_Selector;
  (** the conversion is not one of the fuel-bounded recursions *)
  nodeToComplexSelector_fuel : ∀ n, nodeToComplexSelector n ≠ OutOfFuel;
  (** [complexSelectorToNode] of node.cpp *)
  complexSelectorToNode : Complex_Selector → Node;
  (** [Node::createSelector(pSelector, ctx)] of node.cpp *)
  createSelector : Complex_Selector → Node;
  (** [pSelector->set_innermost(val, c)]: the selector after the call *)
  set_innermost : Complex_Selector → Complex_Selector → Combinator → Complex_Selector;
  (** [pSelector->clear_innermost()]: the combinator returned and the
      selector after the call *)
  clear_innermost : Complex_Selector → Combinator * Complex_Selector;
  (** [pSelector->addSources(sources, ctx)]: the selector after the call *)
  addSources : Complex_Selector → list Complex_Selector → Complex_Selector;
  (** [pSelector->first()], null when the chain holds parent references only *)
  first : Complex_Selector → option Complex_Selector;
  (** [has_placeholder()] and [has_wrapped_selector()] *)
  has_placeholder : Complex_Selector → bool;
  has_wrapped_selector : Complex_Selector → bool;
  (** [Complex_Selector::hash()], by which [group_by_to_a] groups *)
  selector_hash : Complex_Selector → N;
  (** [Compound_Selector::to_str_vec()], the key of a subset-map lookup *)
  to_str_vec : Compound_Selector → list string;
  (** [pSelector->minus(rhs, ctx)] *)
  minus : Compound_Selector → Compound_Selector → Compound_Selector;
  (** [Compound_Selector::operator<], the order of [std::set<Compound_Selector>];
      as [std::set] requires, no compound is below itself *)
  Compound_lt : Compound_Selector → Compound_Selector → bool;
  Compound_lt_irrefl : ∀ c, Compound_lt c c = false;
  (** [Remove_Placeholders::remove_placeholders] on a selector list *)
  remove_placeholders : list Complex_Selector → list Complex_Selector;
  (** [Selector_List::remove_parent_selectors()]: the list after the call *)
  remove_parent_selectors : list Complex_Selector → list Complex_Selector;
  (** [to_string] of a complex and of a compound selector *)
  complex_to_string : Complex_Selector → string;
  compound_to_string : Compound_Selector → string;
}.

(** ** trim (extend.cpp, lines 529-649) *)

(** The identity of a group's deque.  [trim] compares the shared pointers
    [seqs1.collection()] and [seqs2.collection()], not their contents.  The
    children of [seqses] are distinct collections (in [extendComplexSelector],
    the only caller, each child is the value of a separate [weave] call), so
    the child at index [k] is identified by [InputGroup k]; [result.plus(seqses)]
    copies the same pointers into [result].  Each [tempResult] is created by
    [Node::createCollection()] while all groups of [seqses] are alive, so its
    deque is a new one, identified by [TempResult toTrimIndex]. *)
Inductive Handle : Type :=
  | InputGroup (index : nat)
  | TempResult (toTrimIndex : nat).

#[global] Instance Handle_eq_dec : EqDecision Handle.
Proof. solve_decision. Defined.

Section Trim.
Context `{Ast}.

(** Lines 572-581: the threshold a dominating selector must reach. *)
Definition maxSpecificity (isReplace : bool) (pSeq1 : Complex_Selector) : N :=
  fold_left (fun m pCurrentSelector => N.max m (specificity pCurrentSelector))
            (sources pSeq1)
            (if isReplace then specificity pSeq1 else 0%N).

(** Lines 606-621: the loop over the selectors of one group of [result];
    the value is [isMoreSpecificInner] when the loop is left. *)
Fixpoint trim_seqs2 (maxSpec : N) (pSeq1 : Complex_Selector) (seqs2 : list Node) : Outcome bool :=
  match seqs2 with
  | [] => Returns false
  | seq2 :: rest =>
      do pSeq2 <- nodeToComplexSelector seq2;
      if (maxSpec <=? specificity pSeq2)%N && is_superselector_of pSeq2 pSeq1
      then Returns true
      else trim_seqs2 maxSpec pSeq1 rest
  end.

(** Lines 589-630: the loop over the groups of [result]; the value is
    [isMoreSpecificOuter]. *)
Fixpoint trim_result (seqs1 : Handle) (maxSpec : N) (pSeq1 : Complex_Selector)
    (result : list (Handle * Node)) : Outcome bool :=
  match result with
  | [] => Returns false
  | (h2, seqs2) :: rest =>
      if decide (seqs1 = h2) then trim_result seqs1 maxSpec pSeq1 rest
      else
        do l2 <- deref (collection seqs2);
        do isMoreSpecificInner <- trim_seqs2 maxSpec pSeq1 l2;
        if isMoreSpecificInner : bool then Returns true
        else trim_result seqs1 maxSpec pSeq1 rest
  end.

(** Lines 559-637: the loop over the selectors of [seqs1], pushing the
    survivors onto [tempResult]. *)
Fixpoint trim_seqs1 (isReplace : bool) (seqs1 : Handle) (l1 : list Node)
    (result : list (Handle * Node)) (tempResult : list Node) : Outcome (list Node) :=
  match l1 with
  | [] => Returns tempResult
  | seq1 :: rest =>
      do pSeq1 <- nodeToComplexSelector seq1;
      do isMoreSpecificOuter <- trim_result seqs1 (maxSpecificity isReplace pSeq1) pSeq1 result;
      trim_seqs1 isReplace seqs1 rest result
        (if isMoreSpecificOuter : bool then tempResult else tempResult ++ [seq1])
  end.

(** Lines 551-646: the loop over the groups of [seqses]; group number
    [toTrimIndex] of [result] is overwritten once the group is processed. *)
Fixpoint trim_seqses (isReplace : bool) (groups : list Node) (toTrimIndex : nat)
    (result : list (Handle * Node)) : Outcome (list (Handle * Node)) :=
  match groups with
  | [] => Returns result
  | seqs1 :: rest =>
      do l1 <- deref (collection seqs1);
      do tempResult <- trim_seqs1 isReplace (InputGroup toTrimIndex) l1 result [];
      trim_seqses isReplace rest (S toTrimIndex)
        (<[toTrimIndex := (TempResult toTrimIndex,
                           CollectionNode (got_line_feed seqs1) tempResult)]> result)
  end.

Definition trim (seqses : Node) (isReplace : bool) : Outcome Node :=
  do groups <- deref (collection seqses);
  if decide (100 < length groups) then Returns seqses
  else
    do result <- trim_seqses isReplace groups 0 (imap (fun k seqs => (InputGroup k, seqs)) groups);
    Returns (CollectionNode false (snd <$> result)).

End Trim.

(** *** The dominance rule, as [trim] applies it *)

Section TrimRule.
Context `{Ast}.

(** [seq2] dominates [seq1]: line 615, with the threshold of lines 572-581. *)
Definition dominates (isReplace : bool) (seq1 seq2 : Node) : bool :=
  match nodeToComplexSelector seq1, nodeToComplexSelector seq2 with
  | Returns pSeq1, Returns pSeq2 =>
      (maxSpecificity isReplace pSeq1 <=? specificity pSeq2)%N
      && is_superselector_of pSeq2 pSeq1
  | _, _ => false
  end.

(** Some selector of the group [seqs2] dominates [seq1]. *)
Definition dominated_by (isReplace : bool) (seq1 seqs2 : Node) : bool :=
  match collection seqs2 with
  | Some l2 => existsb (dominates isReplace seq1) l2
  | None => false
  end.

(** The groups group number [i] is compared with: the groups before it as
    they stand in the output (already trimmed), the groups after it as they
    stand in the input. *)
Definition compared_groups (out groups : list Node) (i : nat) : list Node :=
  take i out ++ drop (S i) groups.

Definition dropped (isReplace : bool) (out groups : list Node) (i : nat) (seq1 : Node) : bool :=
  existsb (dominated_by isReplace seq1) (compared_groups out groups i).

(** The rule as the specification words it: the threshold is the maximum of
    the selector's own specificity and, when [isReplace] is false, of the
    specificities of its sources; the dominating selector is looked for in
    every other group of the input. *)
Definition claimed_threshold (isReplace : bool) (pSeq1 : Complex_Selector) : N :=
  if isReplace then specificity pSeq1
  else fold_left (fun m src => N.max m (specificity src)) (sources pSeq1) (specificity pSeq1).

Definition claimed_dominates (isReplace : bool) (seq1 seq2 : Node) : bool :=
  match nodeToComplexSelector seq1, nodeToComplexSelector seq2 with
  | Returns pSeq1, Returns pSeq2 =>
      (claimed_threshold isReplace pSeq1 <=? specificity pSeq2)%N
      && is_superselector_of pSeq2 pSeq1
  | _, _ => false
  end.

Definition claimed_dropped (isReplace : bool) (groups : list Node) (i : nat) (seq1 : Node) : bool :=
  existsb (fun seqs2 =>
             match collection seqs2 with
             | Some l2 => existsb (claimed_dominates isReplace seq1) l2
             | None => false
             end)
          (take i groups ++ drop (S i) groups).

(** The handles of [result] while group number [t] is being processed. *)
Definition tag_done (out : list Node) : list (Handle * Node) :=
  imap (fun k seqs => (TempResult k, seqs)) out.
Definition tag_todo (t : nat) (rest : list Node) : list (Handle * Node) :=
  imap (fun k seqs => (InputGroup (t + k), seqs)) rest.

(** What [trim] leaves of group number [i]. *)
Definition trimmed_group (isReplace : bool) (out groups : list Node) (i : nat) (seqs1 : Node)
    (l1 : list Node) : Node :=
  CollectionNode (got_line_feed seqs1)
    (List.filter (fun seq1 => negb (dropped isReplace out groups i seq1)) l1).

(** The shape [trim] expects of a group: a collection of nodes that
    [nodeToComplexSelector] converts. *)
Definition is_group (seqs : Node) : Prop :=
  ∃ l, collection seqs = Some l ∧ Forall (fun seq => returned (nodeToComplexSelector seq)) l.

End TrimRule.

(** ** parentSuperselector on nodes and the chunkers (lines 653-691) *)

Section Chunks.
Context `{Ast}.

(** The synthetic trailing descendant [temp] of lines 656-660. *)
Definition fakeParentContainer : Complex_Selector :=
  mkComplex ANCESTOR_OF
            (Some (mkCompound [Type_Selector "temp"] [] false false false None))
            None false.

(** [parentSuperselector(const Node&, const Node&, Context&)] *)
Definition parentSuperselector (one two : Node) : Outcome bool :=
  do pOne <- nodeToComplexSelector one;
  let pOneWithFakeParent := set_innermost pOne fakeParentContainer ANCESTOR_OF in
  do pTwo <- nodeToComplexSelector two;
  let pTwoWithFakeParent := set_innermost pTwo fakeParentContainer ANCESTOR_OF in
  Returns (is_superselector_of pOneWithFakeParent pTwoWithFakeParent).

(** [ParentSuperselectorChunker::operator()] *)
Definition ParentSuperselectorChunker (mLcs : Node) (seq : Node) : Outcome bool :=
  do l <- deref (collection seq);
  match l with
  | [] => Returns false
  | seqFront :: _ =>
      do lcs <- deref (collection mLcs);
      do lcsFront <- front lcs;
      parentSuperselector seqFront lcsFront
  end.

(** [SubweaveEmptyChunker::operator()] *)
Definition SubweaveEmptyChunker (seq : Node) : Outcome bool :=
  do l <- deref (collection seq);
  Returns (bool_decide (l = [])).

(** ** chunks (lines 725-773) *)

(** Lines 728-731: [while (seq1.collection()->size() && !chunker(seq1))].
    The value is what is left of [seq1], and [chunk1]. *)
Fixpoint chunks_seq1 (chunker : Node → Outcome bool) (lf : bool) (l1 chunk1 : list Node)
    : Outcome (list Node * list Node) :=
  match l1 with
  | [] => Returns ([], chunk1)
  | x :: rest =>
      do stop <- chunker (CollectionNode lf l1);
      if stop : bool then Returns (l1, chunk1)
      else chunks_seq1 chunker lf rest (chunk1 ++ [x])
  end.

(** Lines 734-737: [while (!chunker(seq2))], which reads the front of [seq2]
    without testing that there is one. *)
Fixpoint chunks_seq2 (chunker : Node → Outcome bool) (lf : bool) (l2 chunk2 : list Node)
    : Outcome (list Node * list Node) :=
  match l2 with
  | [] =>
      do stop <- chunker (CollectionNode lf []);
      if stop : bool then Returns ([], chunk2) else Undefined
  | x :: rest =>
      do stop <- chunker (CollectionNode lf l2);
      if stop : bool then Returns (l2, chunk2)
      else chunks_seq2 chunker lf rest (chunk2 ++ [x])
  end.

(** Lines 739-772: the orderings of the two chunks. *)
Definition chunks_result (chunk1 chunk2 : list Node) : Node :=
  match chunk1, chunk2 with
  | [], [] => createCollection
  | [], _ => CollectionNode false [CollectionNode false chunk2]
  | _, [] => CollectionNode false [CollectionNode false chunk1]
  | _, _ => CollectionNode false [CollectionNode false (chunk1 ++ chunk2);
                                  CollectionNode false (chunk2 ++ chunk1)]
  end.

(** [chunks(seq1, seq2, chunker)]: the value is [seq1] and [seq2] after the
    call, and the node returned. *)
Definition chunks (chunker : Node → Outcome bool) (seq1 seq2 : Node)
    : Outcome (Node * Node * Node) :=
  do l1 <- deref (collection seq1);
  do r1 <- chunks_seq1 chunker (got_line_feed seq1) l1 [];
  let '(rest1, chunk1) := r1 in
  do l2 <- deref (collection seq2);
  do r2 <- chunks_seq2 chunker (got_line_feed seq2) l2 [];
  let '(rest2, chunk2) := r2 in
  Returns (with_collection seq1 rest1, with_collection seq2 rest2,
           chunks_result chunk1 chunk2).

End Chunks.

(** ** The LCS utility (lines 375-460)

    [lcs_table], [lcs_backtrace] and [lcs] are written once, over the element
    type and the comparator: extend.cpp has them for deques of complex
    selectors with [LcsCollectionComparator]; the overload for [Node]
    collections with [DefaultLcsComparator] is in sass_util.hpp.

    Modelled from the spec: the [Node] overload of [lcs] is not in the source
    tree; Section 4.5 describes one utility, the dynamic-programming table
    and backtrace, for both.

    A comparator answers [Some out] for true with its out-parameter, [None]
    for false.  [lcs] pushes a null pointer in front of [x] and [y], so that
    the C++ index [i >= 1] reads element [i - 1] of the deque passed in: the
    model keeps the deques as passed and reads [x !! (i - 1)]. *)

Section Lcs.
Context {A : Type} (comparator : A → A → option A).

Definition LCSTable : Type := list (list nat).

(** [c[i][j]] *)
Definition table_at (c : LCSTable) (i j : nat) : nat := nth j (nth i c []) 0.

(** The inner loop of [lcs_table] for row [i], from column [j] on: [y] holds
    the elements from [y[j]], [prev] row [i - 1] from column [j - 1],
    [left] is [c[i][j - 1]]. *)
Fixpoint lcs_table_row (xi : A) (y : list A) (prev : list nat) (left : nat) : list nat :=
  match y with
  | [] => []
  | yj :: y' =>
      let cij := match comparator xi yj with
                 | Some _ => nth 0 prev 0 + 1
                 | None => Nat.max left (nth 1 prev 0)
                 end in
      cij :: lcs_table_row xi y' (drop 1 prev) cij
  end.

(** The outer loop of [lcs_table], from row [i] on: [prev] is row [i - 1]. *)
Fixpoint lcs_table_rows (x y : list A) (prev : list nat) : LCSTable :=
  match x with
  | [] => []
  | xi :: x' =>
      let row := 0 :: lcs_table_row xi y prev 0 in
      row :: lcs_table_rows x' y row
  end.

Definition lcs_table (x y : list A) : LCSTable :=
  let row0 := replicate (S (length y)) 0 in
  row0 :: lcs_table_rows x y row0.

(** [lcs_backtrace]: every call lowers [i + j], which bounds the depth. *)
Fixpoint lcs_backtrace (depth : nat) (c : LCSTable) (x y : list A) (i j : nat) : list A :=
  match depth with
  | 0 => []
  | S depth =>
      if (i =? 0) || (j =? 0) then []
      else
        match x !! (i - 1), y !! (j - 1) with
        | Some xi, Some yj =>
            match comparator xi yj with
            | Some pCompareOut => lcs_backtrace depth c x y (i - 1) (j - 1) ++ [pCompareOut]
            | None =>
                if table_at c (i - 1) j <? table_at c i (j - 1)
                then lcs_backtrace depth c x y i (j - 1)
                else lcs_backtrace depth c x y (i - 1) j
            end
        | _, _ => []
        end
  end.

Definition lcs (x y : list A) : list A :=
  lcs_backtrace (length x + length y) (lcs_table x y) x y (length x) (length y).

(** The length of a longest common subsequence of the first [i] elements of
    [x] and the first [j] elements of [y], by the recurrence the table
    implements. *)
Fixpoint lcs_length (x y : list A) (i : nat) : nat → nat :=
  match i with
  | 0 => fun _ => 0
  | S i' =>
      fix in_row (j : nat) : nat :=
        match j with
        | 0 => 0
        | S j' =>
            match x !! i', y !! j' with
            | Some xi, Some yj =>
                match comparator xi yj with
                | Some _ => lcs_length x y i' j' + 1
                | None => Nat.max (in_row j') (lcs_length x y i' (S j'))
                end
            | _, _ => 0
            end
        end
  end.

End Lcs.

(** ** Equality of nodes and the default comparator

    Modelled from the spec: [Node::operator==] and [DefaultLcsComparator]
    and [Node::contains] (node.cpp, sass_util.hpp) are not in the source
    tree.  Nodes are equal
    when they are of the same kind and hold equal content; selectors are
    compared by ordered simple-selector equality (Section 4.5); the
    formatting hint does not take part. *)

Section NodeEquality.
Context `{Ast}.

Fixpoint nodesEqual (simpleSelectorOrderDependent : bool) (one two : Node) : bool :=
  match one, two with
  | NilNode, NilNode => true
  | CombinatorNode _ c1, CombinatorNode _ c2 => bool_decide (c1 = c2)
  | SelectorNode _ s1, SelectorNode _ s2 => selectors_equal s1 s2 simpleSelectorOrderDependent
  | CollectionNode _ l1, CollectionNode _ l2 =>
      (fix all_equal (l1 l2 : list Node) : bool :=
         match l1, l2 with
         | [], [] => true
         | n1 :: l1', n2 :: l2' =>
             nodesEqual simpleSelectorOrderDependent n1 n2 && all_equal l1' l2'
         | _, _ => false
         end) l1 l2
  | _, _ => false
  end.

(** [one == two] *)
Definition nodes_equal (one two : Node) : bool := nodesEqual true one two.

(** [node.contains(potentialChild, simpleSelectorOrderDependent)] *)
Definition contains (children : list Node) (potentialChild : Node)
    (simpleSelectorOrderDependent : bool) : bool :=
  existsb (fun child => nodesEqual simpleSelectorOrderDependent child potentialChild) children.

(** [DefaultLcsComparator]: true, with [out = one], when [one == two]. *)
Definition DefaultLcsComparator (one two : Node) : option Node :=
  if nodes_equal one two then Some one else None.

(** ** mergeInitialOps (lines 797-860) *)

(** [getAndRemoveInitialOps]: the value is what is left of [seq], and [ops]. *)
Fixpoint getAndRemoveInitialOps (seqCollection opsCollection : list Node)
    : list Node * list Node :=
  match seqCollection with
  | n :: rest =>
      if isCombinator n then getAndRemoveInitialOps rest (opsCollection ++ [n])
      else (seqCollection, opsCollection)
  | [] => ([], opsCollection)
  end.

(** [mergeInitialOps(seq1, seq2, ctx)]: the value is [seq1] and [seq2] after
    the call, and the node returned. *)
Definition mergeInitialOps (seq1 seq2 : Node) : Outcome (Node * Node * Node) :=
  do l1 <- deref (collection seq1);
  let '(l1', ops1) := getAndRemoveInitialOps l1 [] in
  do l2 <- deref (collection seq2);
  let '(l2', ops2) := getAndRemoveInitialOps l2 [] in
  let opsLcs := CollectionNode false (lcs DefaultLcsComparator ops1 ops2) in
  Returns (with_collection seq1 l1', with_collection seq2 l2',
           if negb (nodes_equal opsLcs (CollectionNode false ops1)
                    || nodes_equal opsLcs (CollectionNode false ops2))
           then createNil
           else if length ops2 <? length ops1
                then CollectionNode false ops1
                else CollectionNode false ops2).

End NodeEquality.

(** ** mergeFinalOps (lines 808-816 and 927-1151) *)

Section MergeFinalOps.
Context `{Ast}.

(** [getAndRemoveFinalOps]: the trailing combinators are popped off the back
    of [seq] and pushed onto [ops], last one first; on the reversed deque
    this is the loop of [getAndRemoveInitialOps].  The value is what is left
    of [seq], and [ops]. *)
Definition getAndRemoveFinalOps (seqCollection opsCollection : list Node)
    : list Node * list Node :=
  let '(rest, ops) := getAndRemoveInitialOps (rev seqCollection) opsCollection in
  (rev rest, ops).

(** One activation of [mergeFinalOps] either returns a node or ends in the
    tail call [return mergeFinalOps(seq1, seq2, ctx, res)]. *)
Inductive FinalOpsStep : Type :=
  | FinalOpsReturn (seq1 seq2 : list Node) (result : Node)
  | FinalOpsRecurse (seq1 seq2 res : list Node).

(** Lines 990-1018 and 1049-1070: the alternatives pushed when neither
    trailing compound covers the other.  [pMerged] is null when the
    unification fails. *)
Definition mergedPerm (wrapped : Complex_Selector) (pMerged : option Compound_Selector)
    (op : Combinator) : list Node :=
  match pMerged with
  | Some _ => [CollectionNode false [createSelector (set_head wrapped pMerged);
                                    createCombinator op]]
  | None => []
  end.

(** [sel1.selector()->head()->unify_with(sel2.selector()->head(), ctx)] *)
Definition unify_heads (s1 s2 : Complex_Selector) : Outcome (option Compound_Selector) :=
  do h1 <- deref (head s1);
  do h2 <- deref (head s2);
  Returns (unify_with h1 h2).

Definition is_tilde_or_plus (c : Combinator) : bool :=
  bool_decide (c = PRECEDES) || bool_decide (c = ADJACENT_TO).

(** Lines 962-1118: both sequences end with one combinator. *)
Definition mergeFinalOps_both (op1 op2 : Node) (seq1 seq2 res : list Node)
    : Outcome FinalOpsStep :=
  do sel1 <- back seq1;
  let seq1 := pop_back seq1 in
  do sel2 <- back seq2;
  let seq2 := pop_back seq2 in
  let c1 := node_combinator op1 in
  let c2 := node_combinator op2 in
  if bool_decide (c1 = PRECEDES) && bool_decide (c2 = PRECEDES) then
    do s1 <- deref (selector sel1);
    do s2 <- deref (selector sel2);
    if is_superselector_of s1 s2 then
      Returns (FinalOpsRecurse seq1 seq2 (sel2 :: op1 :: res))
    else if is_superselector_of s2 s1 then
      Returns (FinalOpsRecurse seq1 seq2 (sel1 :: op1 :: res))
    else
      do pMerged <- unify_heads s1 s2;
      let newRes :=
        CollectionNode false
          ([CollectionNode false [sel1; createCombinator PRECEDES;
                                  sel2; createCombinator PRECEDES];
            CollectionNode false [sel2; createCombinator PRECEDES;
                                  sel1; createCombinator PRECEDES]]
           ++ mergedPerm s1 pMerged PRECEDES) in
      Returns (FinalOpsRecurse seq1 seq2 (newRes :: res))
  else if (bool_decide (c1 = PRECEDES) && bool_decide (c2 = ADJACENT_TO))
          || (bool_decide (c1 = ADJACENT_TO) && bool_decide (c2 = PRECEDES)) then
    let tildeSel := if bool_decide (c1 = PRECEDES) then sel1 else sel2 in
    let plusSel := if bool_decide (c1 = PRECEDES) then sel2 else sel1 in
    let plusOp := if bool_decide (c1 = PRECEDES) then op2 else op1 in
    do tilde <- deref (selector tildeSel);
    do plus <- deref (selector plusSel);
    if is_superselector_of tilde plus then
      Returns (FinalOpsRecurse seq1 seq2 (plusSel :: plusOp :: res))
    else
      do pMerged <- unify_heads plus tilde;
      let newRes :=
        CollectionNode false
          ([CollectionNode false [tildeSel; createCombinator PRECEDES;
                                  plusSel; createCombinator ADJACENT_TO]]
           ++ mergedPerm plus pMerged ADJACENT_TO) in
      Returns (FinalOpsRecurse seq1 seq2 (newRes :: res))
  else if bool_decide (c1 = PARENT_OF) && is_tilde_or_plus c2 then
    Returns (FinalOpsRecurse (seq1 ++ [sel1; op1]) seq2 (sel2 :: op2 :: res))
  else if bool_decide (c2 = PARENT_OF) && is_tilde_or_plus c1 then
    Returns (FinalOpsRecurse seq1 (seq2 ++ [sel2; op2]) (sel1 :: op1 :: res))
  else if bool_decide (c1 = c2) then
    do s1 <- deref (selector sel1);
    do s2 <- deref (selector sel2);
    do pMerged <- unify_heads s1 s2;
    match pMerged with
    | None => Returns (FinalOpsReturn seq1 seq2 createNil)
    | Some _ =>
        Returns (FinalOpsRecurse seq1 seq2
                   (createSelector (set_head s1 pMerged) :: op1 :: res))
    end
  else Returns (FinalOpsReturn seq1 seq2 createNil).

(** Lines 1120-1149: only [seq] ends with a combinator, [other] does not. *)
Definition mergeFinalOps_one (op : Node) (seq other res : list Node)
    : Outcome (list Node * list Node * list Node) :=
  do other <-
    (if bool_decide (node_combinator op = PARENT_OF) && negb (bool_decide (other = [])) then
       do otherBack <- back other;
       do otherSel <- deref (selector otherBack);
       do seqBack <- back seq;
       do seqSel <- deref (selector seqBack);
       Returns (if is_superselector_of otherSel seqSel then pop_back other else other)
     else Returns other);
  do seqBack <- back seq;
  Returns (pop_back seq, other, seqBack :: op :: res).

(** The body of [mergeFinalOps] up to its tail call. *)
Definition mergeFinalOps_step (seq1 seq2 res : list Node) : Outcome FinalOpsStep :=
  let '(seq1, ops1) := getAndRemoveFinalOps seq1 [] in
  let '(seq2, ops2) := getAndRemoveFinalOps seq2 [] in
  match ops1, ops2 with
  | [], [] => Returns (FinalOpsReturn seq1 seq2 (CollectionNode false res))
  | _, _ =>
      if (1 <? length ops1) || (1 <? length ops2) then
        let opsLcs := CollectionNode false (lcs DefaultLcsComparator ops1 ops2) in
        if negb (nodes_equal opsLcs (CollectionNode false ops1)
                 || nodes_equal opsLcs (CollectionNode false ops2))
        then Returns (FinalOpsReturn seq1 seq2 createNil)
        else if length ops2 <? length ops1
             then Returns (FinalOpsReturn seq1 seq2 (CollectionNode false (rev ops1 ++ res)))
             else Returns (FinalOpsReturn seq1 seq2 (CollectionNode false (rev ops2 ++ res)))
      else
        match ops1, ops2 with
        | op1 :: _, op2 :: _ => mergeFinalOps_both op1 op2 seq1 seq2 res
        | op1 :: _, [] =>
            do r <- mergeFinalOps_one op1 seq1 seq2 res;
            let '(seq1, seq2, res) := r in
            Returns (FinalOpsRecurse seq1 seq2 res)
        | [], op2 :: _ =>
            do r <- mergeFinalOps_one op2 seq2 seq1 res;
            let '(seq2, seq1, res) := r in
            Returns (FinalOpsRecurse seq1 seq2 res)
        | [], [] => Returns (FinalOpsReturn seq1 seq2 (CollectionNode false res))
        end
  end.

(** The recursion of [mergeFinalOps]; [depth] bounds the number of nested
    calls. *)
Fixpoint mergeFinalOps_rec (depth : nat) (seq1 seq2 res : list Node)
    : Outcome (list Node * list Node * Node) :=
  match depth with
  | 0 => OutOfFuel
  | S depth =>
      do step <- mergeFinalOps_step seq1 seq2 res;
      match step with
      | FinalOpsReturn seq1 seq2 result => Returns (seq1, seq2, result)
      | FinalOpsRecurse seq1 seq2 res => mergeFinalOps_rec depth seq1 seq2 res
      end
  end.

(** [mergeFinalOps(seq1, seq2, ctx, res)]: the value is [seq1] and [seq2]
    after the call, and the node returned ([res], or nil).  Every nested call
    has at least two nodes less to look at, so the depth given is never
    exhausted. *)
Definition mergeFinalOps (seq1 seq2 res : Node) : Outcome (Node * Node * Node) :=
  do l1 <- deref (collection seq1);
  do l2 <- deref (collection seq2);
  do r <- deref (collection res);
  do out <- mergeFinalOps_rec (S (length l1 + length l2)) l1 l2 r;
  let '(l1, l2, result) := out in
  Returns (with_collection seq1 l1, with_collection seq2 l2,
           match result with
           | CollectionNode _ l => with_collection res l
           | _ => result
           end).

(** The node pushed onto [res] when neither trailing compound covers the
    other: [sel1 ~ sel2 ~], [sel2 ~ sel1 ~] and, when the unification of the
    two compounds exists, the unified compound followed by [~]. *)
Definition tilde_permutations (sel1 sel2 : Node) (s1 : Complex_Selector)
    (pMerged : option Compound_Selector) : Node :=
  CollectionNode false
    ([CollectionNode false [sel1; createCombinator PRECEDES; sel2; createCombinator PRECEDES];
      CollectionNode false [sel2; createCombinator PRECEDES; sel1; createCombinator PRECEDES]]
     ++ match pMerged with
        | Some merged =>
            [CollectionNode false [createSelector (set_head s1 (Some merged));
                                   createCombinator PRECEDES]]
        | None => []
        end).

End MergeFinalOps.

(** ** Node utilities of node.cpp and paths.hpp

    Modelled from the spec: [Node::plus], [paths] and [flatten] are not in
    the source tree.  [plus] appends the children of another collection;
    [paths] is the Cartesian product of Section 4.6, every way to pick one
    element from each slot, the choices for the last slot varying slowest;
    [flatten] splices nested collections into one sequence, [flatten(n, 1)]
    one level of them. *)

(** [this.plus(rhs)]: the deques of both nodes are read. *)
Definition plus (this rhs : Node) : Outcome Node :=
  do l <- deref (collection this);
  do r <- deref (collection rhs);
  Returns (with_collection this (l ++ r)).

Definition paths_step (loopStart : list (list Node)) (arr : list Node) : list (list Node) :=
  flat_map (fun e => (fun path => path ++ [e]) <$> loopStart) arr.

Fixpoint paths_loop (arrs : list Node) (loopStart : list (list Node))
    : Outcome (list (list Node)) :=
  match arrs with
  | [] => Returns loopStart
  | arr :: arrs' =>
      do l <- deref (collection arr);
      paths_loop arrs' (paths_step loopStart l)
  end.

Definition paths (arrs : Node) : Outcome Node :=
  do l <- deref (collection arrs);
  do ps <- paths_loop l [[]];
  Returns (CollectionNode false (CollectionNode false <$> ps)).

Fixpoint flatten_children (n : Node) : list Node :=
  match n with
  | CollectionNode _ l =>
      (fix flatten_list (l : list Node) : list Node :=
         match l with
         | [] => []
         | x :: l' => flatten_children x ++ flatten_list l'
         end) l
  | _ => [n]
  end.

Definition flatten (n : Node) : Node :=
  match n with
  | CollectionNode lf _ => CollectionNode lf (flatten_children n)
  | _ => n
  end.

Definition flatten_one_level (n : Node) : Node :=
  match n with
  | CollectionNode lf l =>
      CollectionNode lf
        (flat_map (fun x => match x with CollectionNode _ l' => l' | _ => [x] end) l)
  | _ => n
  end.

(** ** subweave (lines 290-366, 776-794 and 1190-1349) *)

Section Subweave.
Context `{Ast}.

(** [parentSuperselector(Complex_Selector*, Complex_Selector*, Context&)]:
    the fake parent is appended to both selectors with [set_innermost] and
    taken off again with [clear_innermost] before returning, which leaves
    the two selectors as they were. *)
Definition parentSuperselector_complex (pOne pTwo : Complex_Selector) : bool :=
  is_superselector_of (set_innermost pOne fakeParentContainer ANCESTOR_OF)
                      (set_innermost pTwo fakeParentContainer ANCESTOR_OF).

(** [LcsCollectionComparator::operator()] *)
Definition LcsCollectionComparator (pOne pTwo : Complex_Selector) : option Complex_Selector :=
  if selectors_equal pOne pTwo true then Some pOne
  else if negb (bool_decide (combinator pOne = ANCESTOR_OF))
          || negb (bool_decide (combinator pTwo = ANCESTOR_OF)) then None
  else if parentSuperselector_complex pOne pTwo then Some pTwo
  else if parentSuperselector_complex pTwo pOne then Some pOne
  else None.

(** [groupSelectors]: [head] is the group being filled, [headBack] its last
    node; [l] is what is left of [tail].  A node joins the group while the
    group ends with a combinator or the node is one. *)
Fixpoint groupSelectors_tail (l : list Node) (head : list Node) (headBack : Node) : list Node :=
  match l with
  | [] => [CollectionNode false head]
  | tailFront :: l' =>
      if isCombinator headBack || isCombinator tailFront
      then groupSelectors_tail l' (head ++ [tailFront]) tailFront
      else CollectionNode false head :: groupSelectors_tail l' [tailFront] tailFront
  end.

Definition groupSelectors (seq : Node) : Outcome Node :=
  do l <- deref (collection seq);
  Returns (CollectionNode false
             match l with
             | [] => []
             | tailFront :: l' => groupSelectors_tail l' [tailFront] tailFront
             end).

(** [nodeToComplexSelectorDeque] *)
Fixpoint nodeToComplexSelectorDeque (children : list Node) : Outcome (list Complex_Selector) :=
  match children with
  | [] => Returns []
  | child :: rest =>
      do s <- nodeToComplexSelector child;
      do out <- nodeToComplexSelectorDeque rest;
      Returns (s :: out)
  end.

(** [complexSelectorDequeToNode] *)
Definition complexSelectorDequeToNode (deque : list Complex_Selector) : Node :=
  CollectionNode false (complexSelectorToNode <$> deque).

(** Lines 1278-1290: the loop over the LCS.  The value is [groupSeq1],
    [groupSeq2] and [diff] when the loop is left. *)
Fixpoint subweave_lcs_loop (seqLcs : list Node) (groupSeq1 groupSeq2 : Node) (diff : list Node)
    : Outcome (Node * Node * list Node) :=
  match seqLcs with
  | [] => Returns (groupSeq1, groupSeq2, diff)
  | lcsFront :: seqLcs' =>
      do r <- chunks (ParentSuperselectorChunker (CollectionNode false seqLcs))
                     groupSeq1 groupSeq2;
      let '(groupSeq1, groupSeq2, chunksResult) := r in
      let lcsWrapper := CollectionNode false [lcsFront] in
      do g1 <- deref (collection groupSeq1);
      do g2 <- deref (collection groupSeq2);
      subweave_lcs_loop seqLcs'
        (with_collection groupSeq1 (pop_front g1))
        (with_collection groupSeq2 (pop_front g2))
        (diff ++ [chunksResult; lcsWrapper])
  end.

(** Lines 1232-1243: [fin.map {|sel| sel.is_a?(Array) ? sel : [sel]}] *)
Definition wrap_non_collection (childNode : Node) : Node :=
  if isCollection childNode then childNode else CollectionNode false [childNode].

(** Lines 1311-1319 *)
Definition non_empty_collection (node : Node) : bool :=
  match collection node with
  | Some (_ :: _) => true
  | _ => false
  end.

(** Lines 1205-1347: [subweave] once both sequences are known to have
    elements. *)
Definition subweave_merge (l1 l2 : list Node) : Outcome Node :=
  let seq1 := CollectionNode false l1 in
  let seq2 := CollectionNode false l2 in
  do r <- mergeInitialOps seq1 seq2;
  let '(seq1, seq2, init) := r in
  if isNil init then Returns createNil
  else
    do r <- mergeFinalOps seq1 seq2 createCollection;
    let '(seq1, seq2, fin) := r in
    if isNil fin then Returns createNil
    else
      do finChildren <- deref (collection fin);
      let finMapped := wrap_non_collection <$> finChildren in
      do groupSeq1 <- groupSelectors seq1;
      do groupSeq2 <- groupSelectors seq2;
      do g1 <- deref (collection groupSeq1);
      do groupSeq1Converted <- nodeToComplexSelectorDeque g1;
      do g2 <- deref (collection groupSeq2);
      do groupSeq2Converted <- nodeToComplexSelectorDeque g2;
      let out := lcs LcsCollectionComparator groupSeq2Converted groupSeq1Converted in
      do seqLcs <- deref (collection (complexSelectorDequeToNode out));
      let initWrapper := CollectionNode false [init] in
      do r <- subweave_lcs_loop seqLcs groupSeq1 groupSeq2 [initWrapper];
      let '(groupSeq1, groupSeq2, diff) := r in
      do r <- chunks SubweaveEmptyChunker groupSeq1 groupSeq2;
      let '(_, _, chunksResult) := r in
      let diff := diff ++ [chunksResult] ++ finMapped in
      let diffFiltered := List.filter non_empty_collection diff in
      do pathsResult <- paths (CollectionNode false diffFiltered);
      do ps <- deref (collection pathsResult);
      Returns (with_collection pathsResult (flatten <$> ps)).

(** [Extend::subweave(one, two, ctx)] *)
Definition subweave (one two : Node) : Outcome Node :=
  do l1 <- deref (collection one);
  match l1 with
  | [] => Returns (CollectionNode false [two])
  | _ =>
      do l2 <- deref (collection two);
      match l2 with
      | [] => Returns (CollectionNode false [one])
      | _ => subweave_merge l1 l2
      end
  end.

(** ** weave (lines 1453-1505) *)

(** Lines 1488-1497: every sequence of [sub], followed by [last_current], is
    pushed onto [tempResult]. *)
Fixpoint weave_push (sub : list Node) (last_current : Node) (tempResult : list Node)
    : Outcome (list Node) :=
  match sub with
  | [] => Returns tempResult
  | seqs :: rest =>
      do toPush <- plus createCollection seqs;
      do toPush <- plus toPush last_current;
      weave_push rest last_current (tempResult ++ [toPush])
  end.

(** Lines 1477-1498: the loop over [befores].  The value is [None] when a
    [subweave] returned nil, the point of [return Node::createCollection()],
    and [tempResult] otherwise. *)
Fixpoint weave_befores (befores : list Node) (current last_current : Node)
    (tempResult : list Node) : Outcome (option (list Node)) :=
  match befores with
  | [] => Returns (Some tempResult)
  | before :: rest =>
      do sub <- subweave before current;
      if isNil sub then Returns None
      else
        do subs <- deref (collection sub);
        do tempResult <- weave_push subs last_current tempResult;
        weave_befores rest current last_current tempResult
  end.

(** Lines 1464-1500: one round of the loop over [afters], for the element
    [front].  The value is the new [befores], or [None] at the early
    return. *)
Definition weave_round (befores : list Node) (afterFront : Node)
    : Outcome (option (list Node)) :=
  do current <- deref (collection afterFront);
  match current with
  | [] => Returns (Some befores)
  | _ =>
      do currentBack <- back current;
      let last_current := CollectionNode false [currentBack] in
      weave_befores befores (with_collection afterFront (pop_back current)) last_current []
  end.

Fixpoint weave_afters (afters : list Node) (befores : list Node) : Outcome Node :=
  match afters with
  | [] => Returns (CollectionNode false befores)
  | afterFront :: afters' =>
      do r <- weave_round befores afterFront;
      match r with
      | None => Returns createCollection
      | Some befores => weave_afters afters' befores
      end
  end.

Definition weave (path : Node) : Outcome Node :=
  do afters <- deref (collection path);
  weave_afters afters [createCollection].

(** *** The calls of [subweave] that [weave] makes *)

(** [weave_starts afters befores afterFront befores']: the loop over
    [afters], entered with [befores], reaches the round for [afterFront],
    which it starts with [befores']. *)
Inductive weave_starts : list Node → list Node → Node → list Node → Prop :=
  | weave_starts_here afterFront afters befores :
      weave_starts (afterFront :: afters) befores afterFront befores
  | weave_starts_later afterFront afters befores befores' later befores'' :
      weave_round befores afterFront = Returns (Some befores') →
      weave_starts afters befores' later befores'' →
      weave_starts (afterFront :: afters) befores later befores''.

(** [weave_calls befores current last_current tempResult before]: the loop
    over [befores] reaches the call [subweave(before, current)]. *)
Inductive weave_calls : list Node → Node → Node → list Node → Node → Prop :=
  | weave_calls_here before rest current last_current tempResult :
      weave_calls (before :: rest) current last_current tempResult before
  | weave_calls_later earlier rest current last_current tempResult sub subs tempResult' before :
      subweave earlier current = Returns sub →
      isNil sub = false →
      collection sub = Some subs →
      weave_push subs last_current tempResult = Returns tempResult' →
      weave_calls rest current last_current tempResult' before →
      weave_calls (earlier :: rest) current last_current tempResult before.

(** [subweave_called path before current]: [weave(path)] calls
    [subweave(before, current)] while building its prefixes. *)
Definition subweave_called (path before current : Node) : Prop :=
  ∃ afters afterFront befores front_children currentBack,
    collection path = Some afters
    ∧ weave_starts afters [createCollection] afterFront befores
    ∧ collection afterFront = Some front_children
    ∧ front_children ≠ []
    ∧ back front_children = Returns currentBack
    ∧ current = with_collection afterFront (pop_back front_children)
    ∧ weave_calls befores current (CollectionNode false [currentBack]) [] before.

End Subweave.

(** ** The subset map and the extendee compounds

    Modelled from the spec: subset_map.hpp is not in the source tree.
    Sections 3 and 4.4: the map holds, in insertion order, entries made of a
    key (the canonical string vector of an extendee's simple selectors) and
    a pair of the extender complex selector and the extendee compound; a
    lookup by the key of a compound returns, in insertion order, the pairs of
    every entry whose non-empty key is a subset of it; [values()] returns
    the pairs of all entries.

    The pairs hold pointers.  [extendCompoundSelector] sets the [extended]
    flag of an extendee through such a pointer and the final check of the
    tree walker reads it back, so the extendee compounds live in a store,
    addressed by their position, and a pair holds the address.  A null
    pointer is [None]. *)

Definition ExtensionPair : Type := option Complex_Selector * option nat.
Definition SubsetMapEntries : Type := list ExtensionPair.
Definition ExtensionSubsetMap : Type := list (list string * ExtensionPair).
Definition Heap : Type := list Compound_Selector.

Definition key_is_subset (key query : list string) : bool :=
  forallb (fun k => bool_decide (k ∈ query)) key.

Definition get_v (subset_map : ExtensionSubsetMap) (query : list string) : SubsetMapEntries :=
  snd <$> List.filter (fun e => negb (bool_decide (e.1 = [])) && key_is_subset e.1 query)
                      subset_map.

Definition values (subset_map : ExtensionSubsetMap) : SubsetMapEntries := snd <$> subset_map.

(** *** Functions that read and write the store *)

Definition St (A : Type) : Type := Heap → Outcome (A * Heap).

Definition St_ret {A : Type} (a : A) : St A := fun heap => Returns (a, heap).

Definition St_bind {A B : Type} (m : St A) (k : A → St B) : St B :=
  fun heap => do r <- m heap; k r.1 r.2.

Definition St_lift {A : Type} (m : Outcome A) : St A :=
  fun heap => do a <- m; Returns (a, heap).

Notation "'dos' x <- m ; k" := (St_bind m (fun x => k))
  (at level 10, x pattern, m at level 100, k at level 200).

(** *** [std::set<Compound_Selector>]

    The set is kept as the list of the compounds inserted; [find] looks for
    an element equivalent under the order of the set, one that is neither
    below nor above the compound looked for. *)

Definition Seen : Type := list Compound_Selector.

Definition seen_contains `{Ast} (c : Compound_Selector) (seen : Seen) : bool :=
  existsb (fun s => negb (Compound_lt s c) && negb (Compound_lt c s)) seen.

Definition seen_insert (c : Compound_Selector) (seen : Seen) : Seen := c :: seen.

(** *** [group_by_to_a] of sass_util.hpp

    Modelled from the spec: Section 4.4, the driver groups the pairs by
    extender identity, the hash of the extender; the groups come in the
    order in which their extender first appears and keep the order of the
    pairs.  The key functor of lines 1532-1538 dereferences the extender of
    every pair. *)

Fixpoint extender_keys (entries : SubsetMapEntries)
    : Outcome (list (Complex_Selector * ExtensionPair)) :=
  match entries with
  | [] => Returns []
  | extPair :: rest =>
      do pSelector <- deref extPair.1;
      do keyed <- extender_keys rest;
      Returns ((pSelector, extPair) :: keyed)
  end.

Section GroupBy.
Context `{Ast}.

Definition same_hash (k1 k2 : Complex_Selector) : bool :=
  N.eqb (selector_hash k1) (selector_hash k2).

Fixpoint group_order (keyed : list (Complex_Selector * ExtensionPair))
    (order : list Complex_Selector) : list Complex_Selector :=
  match keyed with
  | [] => order
  | (key, _) :: rest =>
      if existsb (same_hash key) order then group_order rest order
      else group_order rest (order ++ [key])
  end.

Definition group_by_to_a (entries : SubsetMapEntries)
    : Outcome (list (Complex_Selector * list ExtensionPair)) :=
  do keyed <- extender_keys entries;
  Returns ((fun key => (key, snd <$> List.filter (fun e => same_hash key e.1) keyed))
             <$> group_order keyed []).

End GroupBy.

(** *** Error messages *)

Definition quote : string := String (Ascii.ascii_of_nat 34) EmptyString.
Definition newline : string := String (Ascii.ascii_of_nat 10) EmptyString.

(** Lines 1761-1764; the line and the path of the source position, which the
    message ends with, are not modelled. *)
Definition media_boundary_message (str_ext : string) : string :=
  "You may not @extend an outer selector from within @media." +:+ newline
  +:+ "You may only @extend selectors within the same directive." +:+ newline
  +:+ "From " +:+ quote +:+ "@extend " +:+ str_ext +:+ quote.

(** Lines 2103-2106 *)
Definition failed_to_extend_message (str_sel str_ext : string) : string :=
  quote +:+ str_sel +:+ quote +:+ " failed to @extend " +:+ quote +:+ str_ext +:+ quote
  +:+ "." +:+ newline
  +:+ "The selector " +:+ quote +:+ str_ext +:+ quote +:+ " was not found." +:+ newline
  +:+ "Use " +:+ quote +:+ "@extend " +:+ str_ext +:+ " !optional" +:+ quote
  +:+ " if the extend should be able to fail.".

(** ** The extend driver (lines 1539-1905) *)

Section Extend.
Context `{Ast} (subset_map : ExtensionSubsetMap).

(** Lines 1575-1584: the simple selectors of every extendee of the group are
    pushed onto [pSels]; an extendee is marked [extended] once per simple
    selector it holds, so one without any is not marked. *)
Fixpoint extend_group_sels (group : list ExtensionPair) (pSels : Compound_Selector)
    : St Compound_Selector :=
  match group with
  | [] => St_ret pSels
  | extPair :: rest => fun heap =>
      do address <- deref extPair.2;
      do pCompound <- deref (heap !! address);
      let pSels := foldl compound_push pSels (elements pCompound) in
      let heap :=
        match elements pCompound with
        | [] => heap
        | _ => <[address := set_extended pCompound]> heap
        end in
      extend_group_sels rest pSels heap
  end.

(** Lines 1566-1666: one round of the first loop.  The value is the pair
    pushed onto [holder], [None] at [continue]. *)
Definition extend_group (pSelector : Compound_Selector)
    (groupedPair : Complex_Selector * list ExtensionPair)
    : St (option (Compound_Selector * Complex_Selector)) :=
  let seq := groupedPair.1 in
  dos pSels <- extend_group_sels groupedPair.2 emptyCompound;
  let pSelectorWithoutExtendSelectors := minus pSelector pSels in
  let pInnermostCompoundSelector := default emptyCompound (head (last_node seq)) in
  match unify_with pInnermostCompoundSelector pSelectorWithoutExtendSelectors with
  | None => St_ret None
  | Some pUnifiedSelector =>
      if length (elements pUnifiedSelector) =? 0 then St_ret None
      else
        let pNewInnerMost := mkComplex ANCESTOR_OF (Some pUnifiedSelector) None false in
        let cleared := clear_innermost seq in
        let pNewSelector := set_innermost cleared.2 pNewInnerMost cleared.1 in
        let newSourcesSet := compound_sources pSelector ++ [seq] in
        let pNewSelector := addSources pNewSelector newSourcesSet in
        let pNewSelector :=
          if compound_line_feed pSels then set_line_feed pNewSelector true
          else pNewSelector in
        St_ret (Some (pSels, pNewSelector))
  end.

Fixpoint extend_groups (pSelector : Compound_Selector)
    (arr : list (Complex_Selector * list ExtensionPair))
    (holder : list (Compound_Selector * Complex_Selector))
    : St (list (Compound_Selector * Complex_Selector)) :=
  match arr with
  | [] => St_ret holder
  | groupedPair :: rest =>
      dos pushed <- extend_group pSelector groupedPair;
      extend_groups pSelector rest
        match pushed with
        | Some pushed => holder ++ [pushed]
        | None => holder
        end
  end.

(** Lines 1691-1702: the selectors of the recursion that are not among the
    extended selectors yet are appended to them. *)
Definition push_new_selectors (extendedSelectors recursed : list Node) : list Node :=
  foldl (fun extendedSelectors newSelector =>
           if contains extendedSelectors newSelector false then extendedSelectors
           else extendedSelectors ++ [newSelector])
        extendedSelectors recursed.

Section Driver.
(** [extendComplexSelector], which the second loop calls back *)
Variable recurse : Complex_Selector → Seen → bool → bool → St Node.

(** Lines 1669-1703: the second loop *)
Fixpoint extend_holder (holder : list (Compound_Selector * Complex_Selector))
    (seen : Seen) (isReplace : bool) (extendedSelectors : list Node) : St (list Node) :=
  match holder with
  | [] => St_ret extendedSelectors
  | (pSels, pNewSelector) :: rest =>
      if seen_contains pSels seen
      then extend_holder rest seen isReplace extendedSelectors
      else
        let recurseSeen := seen_insert pSels seen in
        dos recurseExtendedSelectors <- recurse pNewSelector recurseSeen isReplace false;
        dos recursed <- St_lift (deref (collection recurseExtendedSelectors));
        extend_holder rest seen isReplace (push_new_selectors extendedSelectors recursed)
  end.

(** [extendCompoundSelector] *)
Definition extendCompoundSelector_with (pSelector : option Compound_Selector)
    (seen : Seen) (isReplace : bool) : St Node :=
  dos pSelector <- St_lift (deref pSelector);
  let entries := get_v subset_map (to_str_vec pSelector) in
  dos arr <- St_lift (group_by_to_a entries);
  dos holder <- extend_groups pSelector arr [];
  dos extendedSelectors <- extend_holder holder seen isReplace [];
  St_ret (CollectionNode false extendedSelectors).

End Driver.

Section Complex.
(** [extendCompoundSelector], which the loop over the nodes calls *)
Variable extendCompound : option Compound_Selector → Seen → bool → St Node.

(** Lines 1841-1850 *)
Fixpoint extension_is_superselector (extended : list Node)
    (pJustCurrentCompoundSelector : Complex_Selector) : Outcome bool :=
  match extended with
  | [] => Returns false
  | childNode :: rest =>
      do pExtensionSelector <- nodeToComplexSelector childNode;
      if is_superselector_of pExtensionSelector pJustCurrentCompoundSelector
      then Returns true
      else extension_is_superselector rest pJustCurrentCompoundSelector
  end.

(** Lines 1804-1860: one round of the loop over the nodes of the selector;
    the value is the node pushed onto [extendedNotExpanded].  The selector
    of the node is a value here: what [addSources] and [has_line_feed(...)]
    change in place shows in the node pushed. *)
Definition extend_node (pComplexSelector : Complex_Selector) (sseqOrOp : Node)
    (seen : Seen) (isReplace isOriginal : bool) : St Node :=
  if negb (isSelector sseqOrOp)
  then St_ret (CollectionNode false [CollectionNode false [sseqOrOp]])
  else
    dos sel <- St_lift (deref (selector sseqOrOp));
    let pCompoundSelector := head sel in
    dos extended <- extendCompound pCompoundSelector seen isReplace;
    dos children <- St_lift (deref (collection extended));
    let line_feed := got_line_feed sseqOrOp || got_line_feed extended in
    let pJustCurrentCompoundSelector :=
      if isOriginal && negb (has_placeholder pComplexSelector)
      then addSources sel [pComplexSelector]
      else sel in
    dos isSuperselector <-
      St_lift (extension_is_superselector children pJustCurrentCompoundSelector);
    if isSuperselector then St_ret (CollectionNode line_feed children)
    else
      let pJustCurrentCompoundSelector :=
        if got_line_feed sseqOrOp then set_line_feed pJustCurrentCompoundSelector true
        else pJustCurrentCompoundSelector in
      St_ret (CollectionNode line_feed
                (complexSelectorToNode pJustCurrentCompoundSelector :: children)).

Fixpoint extend_nodes (pComplexSelector : Complex_Selector) (nodes : list Node)
    (seen : Seen) (isReplace isOriginal : bool) (extendedNotExpanded : list Node)
    : St (list Node) :=
  match nodes with
  | [] => St_ret extendedNotExpanded
  | sseqOrOp :: rest =>
      dos pushed <- extend_node pComplexSelector sseqOrOp seen isReplace isOriginal;
      extend_nodes pComplexSelector rest seen isReplace isOriginal
                   (extendedNotExpanded ++ [pushed])
  end.

(** Lines 1876-1883 *)
Fixpoint weave_paths (paths : list Node) (weaves : list Node) : Outcome (list Node) :=
  match paths with
  | [] => Returns weaves
  | path :: rest =>
      do weaved <- weave path;
      weave_paths rest (weaves ++ [with_line_feed weaved (got_line_feed path)])
  end.

(** [extendComplexSelector] *)
Definition extendComplexSelector_with (pComplexSelector : Complex_Selector)
    (seen : Seen) (isReplace isOriginal : bool) : St Node :=
  let complexSelector := complexSelectorToNode pComplexSelector in
  dos nodes <- St_lift (deref (collection complexSelector));
  dos extendedNotExpanded <-
    extend_nodes pComplexSelector nodes seen isReplace isOriginal [];
  St_lift (
    do paths <- paths (CollectionNode false extendedNotExpanded);
    do pathsChildren <- deref (collection paths);
    do weaves <- weave_paths pathsChildren [];
    do trimmed <- trim (CollectionNode false weaves) isReplace;
    Returns (flatten_one_level trimmed)).

End Complex.

(** The two functions call one another; [depth] bounds the nesting of the
    calls of [extendComplexSelector]. *)
Fixpoint extendComplexSelector_rec (depth : nat) (pComplexSelector : Complex_Selector)
    (seen : Seen) (isReplace isOriginal : bool) : St Node :=
  match depth with
  | 0 => fun _ => OutOfFuel
  | S depth =>
      extendComplexSelector_with
        (extendCompoundSelector_with (extendComplexSelector_rec depth))
        pComplexSelector seen isReplace isOriginal
  end.

(** Every nested call adds to [seen] the composite extendee of a group of
    entries of the map that was not in it, and there are at most
    [2 ^ length subset_map] groups. *)
Definition extend_depth : nat := 2 ^ length subset_map.

Definition extendCompoundSelector (pSelector : option Compound_Selector)
    (seen : Seen) (isReplace : bool) : St Node :=
  extendCompoundSelector_with (extendComplexSelector_rec extend_depth)
                              pSelector seen isReplace.

Definition extendComplexSelector (pComplexSelector : Complex_Selector)
    (seen : Seen) (isReplace isOriginal : bool) : St Node :=
  extendComplexSelector_rec (S extend_depth) pComplexSelector seen isReplace isOriginal.

End Extend.

(** *** What bounds the nesting of the driver

    The composite extendee of a group depends on the simple selectors of
    the extendees only, which the driver never changes: [store_elements]
    is what it reads of the store.  A group is a subsequence of the entries
    of the map. *)

Definition store_elements (heap : Heap) : list (list Simple_Selector) := elements <$> heap.

Fixpoint sublists {A : Type} (l : list A) : list (list A) :=
  match l with
  | [] => [[]]
  | x :: l => sublists l ++ (cons x <$> sublists l)
  end.

Definition composite_extendee (store : list (list Simple_Selector))
    (group : list ExtensionPair) (pSels : Compound_Selector) : Compound_Selector :=
  foldl (fun pSels extPair =>
           foldl compound_push pSels
                 (default [] (extPair.2 ≫= fun address => store !! address)))
        pSels group.

Section Measure.
Context `{Ast} (subset_map : ExtensionSubsetMap).

(** The groups of entries whose composite extendee is not in [seen] *)
Definition unseen_groups (store : list (list Simple_Selector)) (seen : Seen) : nat :=
  length (List.filter
            (fun group => negb (seen_contains (composite_extendee store group emptyCompound) seen))
            (sublists (values subset_map))).

(** A pair of [holder] holds the composite extendee of a subsequence of the
    entries of the map. *)
Definition holds_composite (store : list (list Simple_Selector))
    (pushed : Compound_Selector * Complex_Selector) : Prop :=
  ∃ group, group `sublist_of` values subset_map
           ∧ pushed.1 = composite_extendee store group emptyCompound.

End Measure.

(** [runs store Q m]: started on a store with the simple selectors [store],
    [m] does not run out of fuel, and when it returns the store still has
    these simple selectors and the value satisfies [Q]. *)
Definition runs {A : Type} (store : list (list Simple_Selector)) (Q : A → Prop) (m : St A) : Prop :=
  ∀ heap, store_elements heap = store →
    match m heap with
    | Returns r => store_elements r.2 = store ∧ Q r.1
    | OutOfFuel => False
    | _ => True
    end.

Definition anything {A : Type} (a : A) : Prop := True.

(** [recurse] runs whenever fewer than [bound] groups are unseen. *)
Definition runs_below `{Ast} (subset_map : ExtensionSubsetMap)
    (store : list (list Simple_Selector)) (bound : nat)
    (recurse : Complex_Selector → Seen → bool → bool → St Node) : Prop :=
  ∀ pNewSelector seen isReplace isOriginal,
    unseen_groups subset_map store seen < bound →
    runs store anything (recurse pNewSelector seen isReplace isOriginal).

(** [extendCompound] runs for the set [seen]. *)
Definition compound_runs (store : list (list Simple_Selector)) (seen : Seen)
    (extendCompound : option Compound_Selector → Seen → bool → St Node) : Prop :=
  ∀ pSelector isReplace, runs store anything (extendCompound pSelector seen isReplace).

(** ** complexSelectorHasExtension (lines 1711-1774) *)

Section SelectorList.
Context `{Ast} (subset_map : ExtensionSubsetMap).

(** Lines 1746-1765: one round of the loop over the entries found for a
    head.  An extendee inside a media block may only be extended from a
    head whose media block has the same queries. *)
Definition check_media_block (pHead : Compound_Selector) (heap : Heap) (ext : ExtensionPair)
    : Outcome unit :=
  do address <- deref ext.2;
  do extendee <- deref (heap !! address);
  match media_block extendee with
  | None => Returns tt
  | Some ext_block =>
      let across := Thrown (media_boundary_message (compound_to_string extendee)) in
      match media_block pHead, media_queries ext_block with
      | Some head_block, Some query_left =>
          match media_queries head_block with
          | Some query_right => if String.eqb query_left query_right then Returns tt else across
          | None => across
          end
      | _, _ => across
      end
  end.

Fixpoint check_media_blocks (pHead : Compound_Selector) (heap : Heap)
    (entries : SubsetMapEntries) : Outcome unit :=
  match entries with
  | [] => Returns tt
  | ext :: rest =>
      do _ <- check_media_block pHead heap ext;
      check_media_blocks pHead heap rest
  end.

(** Lines 1742-1767: the entries found for the head; [hasExtension] is what
    the loop over the wrapped selectors left. *)
Definition head_has_extension (pHead : Compound_Selector) (heap : Heap) (hasExtension : bool)
    : Outcome bool :=
  let entries := get_v subset_map (to_str_vec pHead) in
  do _ <- check_media_blocks pHead heap entries;
  Returns (if 0 <? length entries then true else hasExtension).

(** One round of [while (!hasExtension && pIter)]: [at_head] is the round
    for the node itself, [at_tail] the rounds for what follows it. *)
Definition has_extension_from (at_head at_tail : Outcome bool) : Outcome bool :=
  do hasExtension <- at_head;
  if hasExtension then Returns true else at_tail.

(** A loop that visits every element, whatever the ones before it gave, and
    tells whether one of them set [hasExtension]. *)
Fixpoint visit_all {A : Type} (visit : A → Outcome bool) (l : list A) : Outcome bool :=
  match l with
  | [] => Returns false
  | x :: rest =>
      do here <- visit x;
      do later <- visit_all visit rest;
      Returns (here || later)
  end.

(** [complexSelectorHasExtension pComplexSelector]: the loop over the chain.
    [has_extension_suffixes cs] is the loop of lines 1730-1736, which calls
    the function for [cs] and for its tails until one has an extension;
    [has_extension_head] is the body of [if (pHead)] and
    [has_extension_simple] the body of the loop over the simple selectors of
    an unseen head, in which every selector of every wrapped list is
    visited, whatever the ones before it gave. *)
Fixpoint complexSelectorHasExtension (pComplexSelector : Complex_Selector)
    (seen : Seen) (heap : Heap) {struct pComplexSelector} : Outcome bool :=
  match pComplexSelector with
  | mkComplex _ pHead pTail _ =>
      has_extension_from
        match pHead with
        | Some pHead => has_extension_head pHead seen heap
        | None => Returns false
        end
        match pTail with
        | Some pTail => complexSelectorHasExtension pTail seen heap
        | None => Returns false
        end
  end
with has_extension_suffixes (cs : Complex_Selector) (seen : Seen) (heap : Heap)
    {struct cs} : Outcome bool :=
  match cs with
  | mkComplex _ pHead pTail _ =>
      do found <-
        has_extension_from
          match pHead with
          | Some pHead => has_extension_head pHead seen heap
          | None => Returns false
          end
          match pTail with
          | Some pTail => complexSelectorHasExtension pTail seen heap
          | None => Returns false
          end;
      if found then Returns true
      else match pTail with
           | Some pTail => has_extension_suffixes pTail seen heap
           | None => Returns false
           end
  end
with has_extension_head (pHead : Compound_Selector) (seen : Seen) (heap : Heap)
    {struct pHead} : Outcome bool :=
  match pHead with
  | mkCompound simples _ _ _ _ _ =>
      do hasExtension <-
        if seen_contains pHead seen then Returns false
        else
          visit_all (fun pSimple => has_extension_simple pSimple seen heap) simples;
      head_has_extension pHead heap hasExtension
  end
with has_extension_simple (pSimple : Simple_Selector) (seen : Seen) (heap : Heap)
    {struct pSimple} : Outcome bool :=
  match pSimple with
  | Wrapped_Selector _ (Some sl) =>
      visit_all (fun cs => has_extension_suffixes cs seen heap) sl
  | _ => Returns false
  end.

(** ** extendSelectorList (lines 1912-2020) *)

(** Lines 1949-1955: the selectors pushed for a selector that was extended *)
Definition extended_selectors (isReplace : bool) (children : list Node)
    : Outcome (list Complex_Selector) :=
  nodeToComplexSelectorDeque
    (if isReplace && (1 <? length children) then drop 1 children else children).

(** Lines 1926-1956: the loop over the selectors of the list.  The value is
    [pNewSelectors] and [extendedSomething]. *)
Fixpoint extendSelectorList_loop (selectors : list Complex_Selector) (isReplace : bool)
    (seen : Seen) (pNewSelectors : list Complex_Selector) (extendedSomething : bool)
    : St (list Complex_Selector * bool) :=
  match selectors with
  | [] => St_ret (pNewSelectors, extendedSomething)
  | pSelector :: rest => fun heap =>
      do hasExtension <- complexSelectorHasExtension pSelector seen heap;
      if negb hasExtension
      then extendSelectorList_loop rest isReplace seen (pNewSelectors ++ [pSelector])
                                   extendedSomething heap
      else
        (dos extendedSelectors <- extendComplexSelector subset_map pSelector seen isReplace true;
         dos children <- St_lift (deref (collection extendedSelectors));
         if negb (has_placeholder pSelector)
            && negb (contains children (complexSelectorToNode pSelector) true)
         then extendSelectorList_loop rest isReplace seen (pNewSelectors ++ [pSelector]) true
         else
           dos pushed <- St_lift (extended_selectors isReplace children);
           extendSelectorList_loop rest isReplace seen (pNewSelectors ++ pushed) true) heap
  end.

Section Unwrap.
(** [extendSelectorList(sl, ctx, subset_map, recseen)] for an inner list *)
Variable extendInner : list Complex_Selector → Seen → St (list Complex_Selector).

(** Lines 1985-2002: the clones of the wrapped selector pushed onto
    [cpy_head], one for each selector of the extended inner list, none for
    a selector that holds a wrapped selector itself. *)
Fixpoint unwrap_clones (name : string) (ext_sl : list Complex_Selector) : list Simple_Selector :=
  match ext_sl with
  | [] => []
  | ext_cs :: rest =>
      match first ext_cs with
      | Some inner =>
          if has_wrapped_selector inner then unwrap_clones name rest
          else Wrapped_Selector name (Some [inner]) :: unwrap_clones name rest
      | None => Wrapped_Selector name (Some []) :: unwrap_clones name rest
      end
  end.

(** Lines 1973-2010: the loop over the simple selectors of a head *)
Fixpoint unwrap_simples (simples : list Simple_Selector) (recseen : Seen)
    (cpy_head : Compound_Selector) : St Compound_Selector :=
  match simples with
  | [] => St_ret cpy_head
  | hs :: rest =>
      match hs with
      | Wrapped_Selector name (Some []) =>
          unwrap_simples rest recseen (compound_push cpy_head (Type_Selector name))
      | Wrapped_Selector name (Some sl) =>
          dos ext_sl <- extendInner sl recseen;
          unwrap_simples rest recseen (foldl compound_push cpy_head (unwrap_clones name ext_sl))
      | _ => unwrap_simples rest recseen (compound_push cpy_head hs)
      end
  end.

(** Lines 1966-2016: [while (cur)].  The heads are replaced in place; the
    value is the selector as the loop leaves it. *)
Fixpoint unwrap_selector (cur : Complex_Selector) (seen : Seen) : St Complex_Selector :=
  match cur with
  | mkComplex c pHead pTail lf =>
      dos pHead <-
        match pHead with
        | Some h =>
            if seen_contains h seen then St_ret (Some h)
            else
              let recseen := seen_insert h seen in
              dos cpy_head <- unwrap_simples (elements h) recseen emptyCompound;
              St_ret (Some cpy_head)
        | None => St_ret None
        end;
      dos pTail <-
        match pTail with
        | Some t => dos t <- unwrap_selector t seen; St_ret (Some t)
        | None => St_ret None
        end;
      St_ret (mkComplex c pHead pTail lf)
  end.

Fixpoint unwrap_selectors (selectors : list Complex_Selector) (seen : Seen)
    : St (list Complex_Selector) :=
  match selectors with
  | [] => St_ret []
  | cur :: rest =>
      dos cur <- unwrap_selector cur seen;
      dos rest <- unwrap_selectors rest seen;
      St_ret (cur :: rest)
  end.

End Unwrap.

(** [Extend::extendSelectorList] with the [seen] argument.  The value is the
    new list and [extendedSomething].  The overload called for the inner
    list of a wrapped selector is declared in extend.hpp, which is not in
    the source tree.

    Modelled from the spec: Section 4.8, the inner list is extended
    recursively under the extended [seen] set, without replacement.

    The inner lists come from the selectors the extension produced, so the
    recursion is not on the structure of the argument: [depth] bounds its
    nesting. *)
Fixpoint extendSelectorList_seen (depth : nat) (pSelectorList : list Complex_Selector)
    (isReplace : bool) (seen : Seen) : St (list Complex_Selector * bool) :=
  match depth with
  | 0 => fun _ => OutOfFuel
  | S depth =>
      dos r <- extendSelectorList_loop pSelectorList isReplace seen [] false;
      let pNewSelectors := remove_placeholders r.1 in
      dos pNewSelectors <-
        unwrap_selectors
          (fun sl recseen => dos inner <- extendSelectorList_seen depth sl false recseen;
                             St_ret inner.1)
          pNewSelectors seen;
      St_ret (pNewSelectors, r.2)
  end.

(** [Extend::extendSelectorList] (lines 1912-1915) *)
Definition extendSelectorList (depth : nat) (pSelectorList : list Complex_Selector)
    (isReplace : bool) : St (list Complex_Selector * bool) :=
  extendSelectorList_seen depth pSelectorList isReplace [].

End SelectorList.

(** *** Selectors the unwrapping pass leaves as they are *)

(** A simple selector other than a wrapped selector with an inner list. *)
Definition no_inner_list (s : Simple_Selector) : bool :=
  match s with
  | Wrapped_Selector _ (Some _) => false
  | _ => true
  end.

(** A head as [new Compound_Selector] followed by [operator<<] makes it:
    without sources, flags or media block. *)
Definition unflagged (h : Compound_Selector) : bool :=
  match h with
  | mkCompound _ [] false false false None => true
  | _ => false
  end.

(** Every head of the chain is unflagged and holds no inner list. *)
Fixpoint untouched (s : Complex_Selector) : bool :=
  match s with
  | mkComplex _ h t _ =>
      match h with
      | Some h => unflagged h && forallb no_inner_list (elements h)
      | None => true
      end
      && match t with
         | Some t => untouched t
         | None => true
         end
  end.

(** ** The tree walker (lines 2023-2134)

    Modelled from the spec: the statement classes of ast.hpp are not in the
    source tree.  Section 4.10: the walker visits rulesets, supports blocks,
    media blocks and directives; a ruleset has a selector list and a block,
    a directive may have no block.  Every other statement is left alone by
    the visitor.

    The walk is followed for what the final check depends on: the errors it
    raises and the [extended] flags it sets.  The selector lists it writes
    back into the rulesets are not part of the state. *)

Inductive Statement : Type :=
  | Ruleset (selector : list Complex_Selector) (block : Block)
  | Supports_Block (block : Block)
  | Media_Block_Statement (block : Block)
  | Directive (block : option Block)
  | Other_Statement
with Block : Type :=
  | mkBlock (is_root : bool) (statements : list Statement).

Definition is_root (b : Block) : bool :=
  match b with mkBlock r _ => r end.
Definition statements (b : Block) : list Statement :=
  match b with mkBlock _ l => l end.

(** [shouldExtendBlock] *)
Definition shouldExtendBlock (b : Block) : bool :=
  existsb (fun stm => match stm with Ruleset _ _ => false | _ => true end) (statements b).

Section Walker.
Context `{Ast} (subset_map : ExtensionSubsetMap).

(** [depth] is the bound on the nesting of wrapped selectors handed to
    [extendSelectorList]. *)
Variable depth : nat.

(** [extendObjectWithSelectorAndBlock], for a ruleset *)
Definition extendObjectWithSelectorAndBlock (selector : list Complex_Selector) (block : Block)
    : St unit :=
  if negb (shouldExtendBlock block) then St_ret tt
  else
    dos pNewSelectorList <- extendSelectorList subset_map depth selector false;
    St_ret tt.

(** Lines 2095-2107: the final check.  [error] throws, which ends the loop
    at the first entry that is neither extended nor optional. *)
Fixpoint check_extended (entries : SubsetMapEntries) (heap : Heap) : Outcome unit :=
  match entries with
  | [] => Returns tt
  | it :: rest =>
      let sel := it.1 ≫= first in
      match it.2 with
      | Some address =>
          do ext <- deref (heap !! address);
          if extended ext || is_optional ext then check_extended rest heap
          else
            do sel <- deref sel;
            Thrown (failed_to_extend_message (complex_to_string sel) (compound_to_string ext))
      | None =>
          do sel <- deref sel;
          Undefined
      end
  end.

(** [Extend::operator()] for a block and for a statement *)
Fixpoint Extend_Block (b : Block) {struct b} : St unit :=
  match b with
  | mkBlock root stms =>
      dos _ <-
        (fix perform_all (stms : list Statement) : St unit :=
           match stms with
           | [] => St_ret tt
           | stm :: rest => dos _ <- Extend_Statement stm; perform_all rest
           end) stms;
      if root then fun heap => do _ <- check_extended (values subset_map) heap; Returns (tt, heap)
      else St_ret tt
  end
with Extend_Statement (stm : Statement) {struct stm} : St unit :=
  match stm with
  | Ruleset selector block =>
      dos _ <- extendObjectWithSelectorAndBlock selector block;
      Extend_Block block
  | Supports_Block block => Extend_Block block
  | Media_Block_Statement block => Extend_Block block
  | Directive (Some block) => Extend_Block block
  | Directive None => St_ret tt
  | Other_Statement => St_ret tt
  end.

(** The loop of lines 2088-2090 over the statements of a block *)
Fixpoint perform_statements (stms : list Statement) : St unit :=
  match stms with
  | [] => St_ret tt
  | stm :: rest => dos _ <- Extend_Statement stm; perform_statements rest
  end.

End Walker.

(** *** The rule of the final check *)

(** An entry is satisfied when its extendee is there and is marked
    [extended] or flagged optional. *)
Definition entry_satisfied (heap : Heap) (it : ExtensionPair) : bool :=
  match it.2 ≫= (fun address => heap !! address) with
  | Some ext => extended ext || is_optional ext
  | None => false
  end.

(** ** Further properties: the shapes they speak of *)

(** In a group of [groupSelectors], of two neighbours one is a combinator. *)
Fixpoint glued (l : list Node) : bool :=
  match l with
  | a :: rest =>
      match rest with
      | b :: _ => (isCombinator a || isCombinator b) && glued rest
      | [] => true
      end
  | [] => true
  end.

(** What one activation of [mergeFinalOps] leaves: the sequences are cut at
    the back only, and [res] grows at the front only. *)
Definition final_ops_step_keeps (seq1 seq2 res : list Node) (step : FinalOpsStep) : Prop :=
  match step with
  | FinalOpsReturn seq1' seq2' result =>
      seq1' `prefix_of` seq1 ∧ seq2' `prefix_of` seq2
      ∧ (result = createNil ∨ ∃ pushed, result = CollectionNode false (pushed ++ res))
  | FinalOpsRecurse seq1' seq2' res' =>
      seq1' `prefix_of` seq1 ∧ seq2' `prefix_of` seq2 ∧ ∃ pushed, res' = pushed ++ res
  end.

(** [heap'] is [heap] with more extendees marked [extended], and nothing
    else changed. *)
Definition marks_only (heap heap' : Heap) : Prop :=
  Forall2 (fun c c' => c' = c ∨ c' = set_extended c) heap heap'.

(** The extendee at [address] is there and marked [extended]. *)
Definition marked (heap : Heap) (address : nat) : Prop :=
  ∃ e, heap !! address = Some e ∧ extended e = true.

(** [m] changes the store by marking only. *)
Definition frames {A : Type} (m : St A) : Prop :=
  ∀ heap a heap', m heap = Returns (a, heap') → marks_only heap heap'.

(** No two nodes of the list are equal, simple selectors compared without
    their order: an earlier node is never equal to a later one. *)
Definition pairwise_different `{Ast} (l : list Node) : Prop :=
  ∀ i j a b, i < j → l !! i = Some a → l !! j = Some b → nodesEqual false a b = false.

(** No ruleset of the tree holds anything but rulesets in its block, and no
    nested block is flagged as the root. *)
Fixpoint holds_rulesets_only (stm : Statement) : bool :=
  match stm with
  | Ruleset _ block => negb (shouldExtendBlock block) && block_holds_rulesets_only block
  | Supports_Block block => block_holds_rulesets_only block
  | Media_Block_Statement block => block_holds_rulesets_only block
  | Directive (Some block) => block_holds_rulesets_only block
  | Directive None => true
  | Other_Statement => true
  end
with block_holds_rulesets_only (b : Block) : bool :=
  match b with
  | mkBlock root stms =>
      negb root
      && (fix all (stms : list Statement) : bool :=
            match stms with
            | [] => true
            | stm :: rest => holds_rulesets_only stm && all rest
            end) stms
  end.

(** An extendee may be extended from the head: it is in no media block, or
    the head is in a media block with the same queries. *)
Definition may_extend (pHead extendee : Compound_Selector) : bool :=
  match media_block extendee with
  | None => true
  | Some ext_block =>
      match media_block pHead, media_queries ext_block with
      | Some head_block, Some query_left =>
          match media_queries head_block with
          | Some query_right => String.eqb query_left query_right
          | None => false
          end
      | _, _ => false
      end
  end.

(** The extendee of the entry is in the store and may be extended from the
    head. *)
Definition entry_allowed (pHead : Compound_Selector) (heap : Heap) (ext : ExtensionPair) : bool :=
  match ext.2 ≫= (fun address => heap !! address) with
  | Some extendee => may_extend pHead extendee
  | None => false
  end.

(** ** An implementation of the interface, modelled from the specification

    The concrete inputs of the examples below are evaluated with this
    implementation of [Ast]. *)

Module SpecModel.

(** Modelled from the spec: the canonical string form of a selector (the
    glossary's notation: [.a.b#id], [.a > .b .c]); ast.cpp's [to_string] is
    not in the source tree. *)
Definition combinator_to_string (c : Combinator) : string :=
  match c with
  | ANCESTOR_OF => " "
  | PARENT_OF => " > "
  | PRECEDES => " ~ "
  | ADJACENT_TO => " + "
  | REFERENCE => " / "
  end.

Fixpoint simple_to_string (s : Simple_Selector) : string :=
  match s with
  | Type_Selector n => n
  | Class_Selector n => "." +:+ n
  | Id_Selector n => "#" +:+ n
  | Attribute_Selector n => "[" +:+ n +:+ "]"
  | Pseudo_Selector n false => ":" +:+ n
  | Pseudo_Selector n true => "::" +:+ n
  | Placeholder_Selector n => "%" +:+ n
  | Parent_Selector => "&"
  | Wrapped_Selector n None => n +:+ "()"
  | Wrapped_Selector n (Some sel) =>
      n +:+ "(" +:+
      (fix list_to_string (l : list Complex_Selector) : string :=
         match l with
         | [] => ""
         | c :: l' =>
             complex_to_string c +:+
             match l' with [] => "" | _ => ", " +:+ list_to_string l' end
         end) sel
      +:+ ")"
  end
with compound_to_string (c : Compound_Selector) : string :=
  match c with
  | mkCompound els _ _ _ _ _ =>
      (fix elements_to_string (l : list Simple_Selector) : string :=
         match l with
         | [] => ""
         | s :: l' => simple_to_string s +:+ elements_to_string l'
         end) els
  end
with complex_to_string (c : Complex_Selector) : string :=
  match c with
  | mkComplex comb h t _ =>
      match comb with ANCESTOR_OF => "" | _ => combinator_to_string comb end
      +:+ match h with Some hd => compound_to_string hd | None => "" end
      +:+ match t with
          | Some tl => match combinator tl with ANCESTOR_OF => " " | _ => "" end
                       +:+ complex_to_string tl
          | None => ""
          end
  end.

(** Simple selectors are compared by their canonical string form. *)
Definition simple_eqb (a b : Simple_Selector) : bool :=
  bool_decide (simple_to_string a = simple_to_string b).

Definition simple_in (a : Simple_Selector) (l : list Simple_Selector) : bool :=
  existsb (simple_eqb a) l.

(** The nodes of a chain, outermost first. *)
Fixpoint chain (s : Complex_Selector) : list (Combinator * option Compound_Selector) :=
  match s with
  | mkComplex c h t _ =>
      (c, h) :: match t with Some tl => chain tl | None => [] end
  end.

(** Modelled from the spec: Section 4.3.  Ids count 10000, classes,
    attributes and pseudo-classes (wrapped ones included) 100, types and
    pseudo-elements 1; the specification gives no weight to placeholders and
    parent references. *)
Definition simple_specificity (s : Simple_Selector) : N :=
  match s with
  | Id_Selector _ => 10000
  | Class_Selector _ | Attribute_Selector _ | Pseudo_Selector _ false
  | Wrapped_Selector _ _ => 100
  | Type_Selector _ | Pseudo_Selector _ true => 1
  | Placeholder_Selector _ | Parent_Selector => 0
  end%N.

Definition compound_specificity (c : Compound_Selector) : N :=
  foldr (fun s n => (simple_specificity s + n)%N) 0%N (elements c).

Definition specificity (s : Complex_Selector) : N :=
  foldr (fun node n =>
           (match node.2 with Some h => compound_specificity h | None => 0 end + n)%N)
        0%N (chain s).

(** Modelled from the spec: Section 3, the sources set of a complex selector;
    the sets are carried by the compounds of the chain. *)
Definition sources (s : Complex_Selector) : list Complex_Selector :=
  flat_map (fun node => match node.2 with Some h => compound_sources h | None => [] end)
           (chain s).

(** Modelled from the spec: Section 4.2, compounds: set containment with
    pseudo-element compatibility. *)
Definition is_pseudo_element (s : Simple_Selector) : bool :=
  match s with Pseudo_Selector _ true => true | _ => false end.

Definition compound_is_superselector_of (a b : Compound_Selector) : bool :=
  forallb (fun s => simple_in s (elements b)) (elements a)
  && forallb (fun s => simple_in s (elements a)) (List.filter is_pseudo_element (elements b)).

(** Modelled from the spec: Section 4.2, combinators agree up to
    [ANCESTOR_OF ⊇ PARENT_OF] and [PRECEDES ⊇ ADJACENT_TO]. *)
Definition combinator_covers (ca cb : Combinator) : bool :=
  match ca, cb with
  | ANCESTOR_OF, PARENT_OF | PRECEDES, ADJACENT_TO => true
  | _, _ => bool_decide (ca = cb)
  end.

Definition head_covers (a b : option Compound_Selector) : bool :=
  match a, b with
  | Some ha, Some hb => compound_is_superselector_of ha hb
  | _, _ => false
  end.

(** Modelled from the spec: Section 4.2, complex selectors: a walk along both
    chains.  The last compound of [a] must cover the last compound of [b];
    every earlier compound of [a] must cover a compound of [b] at a matching
    position, with agreeing combinators. *)
Fixpoint chain_covers (a b : list (Combinator * option Compound_Selector)) : bool :=
  match a with
  | [] => false
  | [(_, ha)] => match list.last b with Some (_, hb) => head_covers ha hb | None => false end
  | (_, ha) :: (((ca, _) :: _) as a') =>
      (fix find (b : list (Combinator * option Compound_Selector)) : bool :=
         match b with
         | [] | [_] => false
         | (_, hb) :: (((cb, _) :: _) as b') =>
             if head_covers ha hb
             then combinator_covers ca cb && chain_covers a' b'
             else find b'
         end) b
  end.

Definition is_superselector_of (a b : Complex_Selector) : bool :=
  chain_covers (chain a) (chain b).

(** Modelled from the spec: Section 4.1.  Two distinct type selectors or two
    distinct pseudo-elements reject; [*] unifies with any type; the result
    holds the elements of [a], then the elements of [b] that [a] lacks, a
    type selector first. *)
Definition type_of (c : Compound_Selector) : option string :=
  match elements c with Type_Selector n :: _ => Some n | _ => None end.

Definition without_type (l : list Simple_Selector) : list Simple_Selector :=
  match l with Type_Selector _ :: l' => l' | _ => l end.

Definition unify_types (ta tb : option string) : option (option string) :=
  match ta, tb with
  | None, t | t, None => Some t
  | Some na, Some nb =>
      if bool_decide (na = nb) then Some (Some na)
      else if bool_decide (na = "*") then Some (Some nb)
      else if bool_decide (nb = "*") then Some (Some na)
      else None
  end.

Definition unify_with (a b : Compound_Selector) : option Compound_Selector :=
  match unify_types (type_of a) (type_of b) with
  | None => None
  | Some t =>
      let rest := without_type (elements a)
                  ++ List.filter (fun s => negb (simple_in s (elements a)))
                                 (without_type (elements b)) in
      if decide (1 < length (remove_dups (simple_to_string <$>
                                   List.filter is_pseudo_element rest)))
      then None
      else Some (mkCompound (match t with Some n => [Type_Selector n] | None => [] end ++ rest)
                            (compound_sources a ++ compound_sources b)
                            false false (compound_line_feed a) (media_block a))
  end.

(** Modelled from the spec: Section 3, equality of selectors.  Order
    dependent: the canonical strings agree.  Otherwise the compounds are
    compared as sets. *)
Definition head_equal (orderDependent : bool) (a b : option Compound_Selector) : bool :=
  match a, b with
  | None, None => true
  | Some ha, Some hb =>
      if orderDependent
      then bool_decide (compound_to_string ha = compound_to_string hb)
      else forallb (fun s => simple_in s (elements hb)) (elements ha)
           && forallb (fun s => simple_in s (elements ha)) (elements hb)
  | _, _ => false
  end.

Fixpoint chain_equal (orderDependent : bool)
    (a b : list (Combinator * option Compound_Selector)) : bool :=
  match a, b with
  | [], [] => true
  | (ca, ha) :: a', (cb, hb) :: b' =>
      bool_decide (ca = cb) && head_equal orderDependent ha hb
      && chain_equal orderDependent a' b'
  | _, _ => false
  end.

Definition selectors_equal (a b : Complex_Selector) (orderDependent : bool) : bool :=
  chain_equal orderDependent (chain a) (chain b).

(** Modelled from the spec: Section 3, a selector node wraps a complex
    selector. *)
Definition createSelector (s : Complex_Selector) : Node :=
  SelectorNode (has_line_feed s) s.

(** Modelled from the spec: Section 3, the Node form of a complex selector:
    the sequence of its compounds and combinators.  A selector node wraps one
    node of the chain, without tail and without combinator. *)
Fixpoint complexSelectorToNode_children (s : Complex_Selector) : list Node :=
  match s with
  | mkComplex c h t lf =>
      match c with ANCESTOR_OF => [] | _ => [CombinatorNode false c] end
      ++ match h with
         | Some hd => [createSelector (mkComplex ANCESTOR_OF (Some hd) None lf)]
         | None => []
         end
      ++ match t with Some tl => complexSelectorToNode_children tl | None => [] end
  end.

Definition complexSelectorToNode (s : Complex_Selector) : Node :=
  CollectionNode (has_line_feed s) (complexSelectorToNode_children s).

(** The chain of a sequence of nodes; [pending] is the combinator read just
    before the current position. *)
Fixpoint nodes_to_chain (pending : option Combinator) (l : list Node) : option Complex_Selector :=
  match l with
  | [] => match pending with
          | Some c => Some (mkComplex c None None false)
          | None => None
          end
  | CombinatorNode _ c :: l' =>
      match pending with
      | Some c0 => Some (mkComplex c0 None (nodes_to_chain (Some c) l') false)
      | None => nodes_to_chain (Some c) l'
      end
  | SelectorNode lf s :: l' =>
      Some (mkComplex (default ANCESTOR_OF pending) (head s) (nodes_to_chain None l') lf)
  | _ :: l' => nodes_to_chain pending l'
  end.

Definition nodeToComplexSelector (n : Node) : Outcome Complex_Selector :=
  match n with
  | NilNode => Undefined
  | CollectionNode _ l =>
      Returns (default (mkComplex ANCESTOR_OF None None false) (nodes_to_chain None l))
  | _ => Thrown "The node to convert to a Complex_Selector* must be a collection type or nil."
  end.

Lemma nodeToComplexSelector_fuel (n : Node) : nodeToComplexSelector n ≠ OutOfFuel.
Proof. by destruct n. Qed.

(** Modelled from the spec: Section 3, the innermost node of a chain is its
    last one; [set_innermost] appends [val], related to the former last node
    by the combinator [c]. *)
Fixpoint set_innermost (s val : Complex_Selector) (c : Combinator) : Complex_Selector :=
  match s with
  | mkComplex c0 h None lf =>
      mkComplex c0 h (Some (mkComplex c (head val) (tail val) (has_line_feed val))) lf
  | mkComplex c0 h (Some t) lf => mkComplex c0 h (Some (set_innermost t val c)) lf
  end.

(** Modelled from the spec: [clear_innermost] takes the last node off the
    chain and returns the combinator that related it to the node before. *)
Fixpoint clear_innermost (s : Complex_Selector) : Combinator * Complex_Selector :=
  match s with
  | mkComplex c0 h None lf => (ANCESTOR_OF, s)
  | mkComplex c0 h (Some (mkComplex c _ None _)) lf => (c, mkComplex c0 h None lf)
  | mkComplex c0 h (Some t) lf =>
      let '(c, t') := clear_innermost t in (c, mkComplex c0 h (Some t') lf)
  end.

(** Modelled from the spec: Section 3, the sources are carried by the
    compounds: [addSources] adds them to every compound of the chain. *)
Definition compound_addSources (srcs : list Complex_Selector) (c : Compound_Selector)
    : Compound_Selector :=
  match c with
  | mkCompound els old e o lf mb => mkCompound els (old ++ srcs) e o lf mb
  end.

Fixpoint addSources (s : Complex_Selector) (srcs : list Complex_Selector) : Complex_Selector :=
  match s with
  | mkComplex c h t lf =>
      mkComplex c (compound_addSources srcs <$> h)
                (match t with Some tl => Some (addSources tl srcs) | None => None end) lf
  end.

Definition is_parent_reference (h : option Compound_Selector) : bool :=
  match h with
  | Some (mkCompound [Parent_Selector] _ _ _ _ _) => true
  | _ => false
  end.

(** Modelled from the spec: [first()] skips the leading nodes that hold a
    parent reference only. *)
Fixpoint first (s : Complex_Selector) : option Complex_Selector :=
  match s with
  | mkComplex _ h t _ =>
      if is_parent_reference h
      then match t with Some tl => first tl | None => None end
      else Some s
  end.

Definition chain_elements (s : Complex_Selector) : list Simple_Selector :=
  flat_map (fun node => match node.2 with Some h => elements h | None => [] end) (chain s).

Definition has_placeholder (s : Complex_Selector) : bool :=
  existsb (fun e => match e with Placeholder_Selector _ => true | _ => false end)
          (chain_elements s).

Definition has_wrapped_selector (s : Complex_Selector) : bool :=
  existsb (fun e => match e with Wrapped_Selector _ _ => true | _ => false end)
          (chain_elements s).

(** Modelled from the spec: Section 3, the key of a compound is the vector
    of the canonical strings of its simple selectors. *)
Definition to_str_vec (c : Compound_Selector) : list string :=
  simple_to_string <$> elements c.

(** Selectors are hashed by their canonical string. *)
Fixpoint string_hash (s : string) : N :=
  match s with
  | EmptyString => 0%N
  | String a rest => (Ascii.N_of_ascii a + 256 * string_hash rest)%N
  end.

Definition selector_hash (s : Complex_Selector) : N := string_hash (complex_to_string s).

(** Modelled from the spec: Section 4.8, [selfWithout = C - pSels]. *)
Definition minus (c rhs : Compound_Selector) : Compound_Selector :=
  match c with
  | mkCompound els srcs e o lf mb =>
      mkCompound (List.filter (fun s => negb (simple_in s (elements rhs))) els) srcs e o lf mb
  end.

(** Compounds are ordered by their canonical strings. *)
Definition Compound_lt (a b : Compound_Selector) : bool :=
  match String.compare (compound_to_string a) (compound_to_string b) with
  | Lt => true
  | _ => false
  end.

Lemma Compound_lt_irrefl (c : Compound_Selector) : Compound_lt c c = false.
Proof.
  unfold Compound_lt.
  pose proof (String.compare_antisym (compound_to_string c) (compound_to_string c)) as Hc.
  by destruct (String.compare _ _).
Qed.

(** Modelled from the spec: the glossary, placeholder selectors are removed
    before output: the pass drops the complex selectors that hold one. *)
Definition remove_placeholders (l : list Complex_Selector) : list Complex_Selector :=
  List.filter (fun s => negb (has_placeholder s)) l.

(** Parent references are resolved before the extend pass runs: nothing is
    left to remove. *)
Definition remove_parent_selectors (l : list Complex_Selector) : list Complex_Selector := l.

#[export] Instance ast : Ast :=
  Build_Ast specificity sources is_superselector_of unify_with selectors_equal
            nodeToComplexSelector nodeToComplexSelector_fuel
            complexSelectorToNode createSelector set_innermost
            clear_innermost addSources first has_placeholder has_wrapped_selector
            selector_hash to_str_vec minus Compound_lt Compound_lt_irrefl
            remove_placeholders remove_parent_selectors
            complex_to_string compound_to_string.

(** Selectors used in the examples. *)
Definition compound (els : list Simple_Selector) : Compound_Selector :=
  mkCompound els [] false false false None.
Definition simple_complex (els : list Simple_Selector) : Complex_Selector :=
  mkComplex ANCESTOR_OF (Some (compound els)) None false.
(** A compound as a selector node, and as a one-compound sequence. *)
Definition sel (els : list Simple_Selector) : Node :=
  SelectorNode false (simple_complex els).
Definition seq1 (els : list Simple_Selector) : Node :=
  CollectionNode false [sel els].

End SpecModel.

(** ** Concrete inputs of the examples *)

Module Examples.
Import SpecModel.

Definition a : Simple_Selector := Class_Selector "a".
Definition b : Simple_Selector := Class_Selector "b".
Definition c : Simple_Selector := Class_Selector "c".

(** A collection node without line feed. *)
Definition coll (l : list Node) : Node := CollectionNode false l.

(** Three groups: [.a.b], [.a] and [.a]. *)
Definition three_groups : list Node :=
  [coll [seq1 [a; b]]; coll [seq1 [a]]; coll [seq1 [a]]].

(** Two groups: [.a.b, .a] and [.a.b]. *)
Definition two_groups : list Node :=
  [coll [seq1 [a; b]; seq1 [a]]; coll [seq1 [a; b]]].

(** 101 empty groups. *)
Definition many_groups : list Node := replicate 101 createCollection.

(** The operators [~], [>] and [+] as nodes. *)
Definition tilde : Node := createCombinator PRECEDES.
Definition child : Node := createCombinator PARENT_OF.
Definition plus : Node := createCombinator ADJACENT_TO.

(** The path of two sequences [> .a] and [+ .b .c]. *)
Definition weave_path : Node :=
  coll [coll [child; SpecModel.sel [a]]; coll [plus; SpecModel.sel [b]; SpecModel.sel [c]]].

(** The selectors [.a], [.b], [.x], [.y], [.z] and [.w]. *)
Definition sel_a : Complex_Selector := simple_complex [a].
Definition sel_b : Complex_Selector := simple_complex [b].
Definition sel_x : Complex_Selector := simple_complex [Class_Selector "x"].
Definition sel_z : Complex_Selector := simple_complex [Class_Selector "z"].
Definition y : Compound_Selector := compound [Class_Selector "y"].
Definition w : Compound_Selector := compound [Class_Selector "w"].

(** [.x { @extend .y }] and [.z { @extend .w }]: the extendees [.y] and [.w]
    are stored at the addresses 0 and 1. *)
Definition unmatched_heap : Heap := [y; w].
Definition one_unmatched : ExtensionSubsetMap :=
  [(SpecModel.to_str_vec y, (Some sel_x, Some 0))].
Definition two_unmatched : ExtensionSubsetMap :=
  [(SpecModel.to_str_vec y, (Some sel_x, Some 0));
   (SpecModel.to_str_vec w, (Some sel_z, Some 1))].

(** [.a { @extend .b }] and [.b { @extend .a }]: the extenders are [& .a]
    and [& .b], the extendees [.b] and [.a] are stored at the addresses 0
    and 1. *)
Definition with_parent (s : Complex_Selector) : Complex_Selector :=
  mkComplex ANCESTOR_OF (Some (compound [Parent_Selector])) (Some s) false.
Definition mutual_heap : Heap := [compound [b]; compound [a]].
Definition mutual_extends : ExtensionSubsetMap :=
  [(SpecModel.to_str_vec (compound [b]), (Some (with_parent sel_a), Some 0));
   (SpecModel.to_str_vec (compound [a]), (Some (with_parent sel_b), Some 1))].

(** [:not(.a, .b)] and [:not(.a):not(.b)] *)
Definition not_a_b : Complex_Selector :=
  simple_complex [Wrapped_Selector ":not" (Some [sel_a; sel_b])].
Definition not_a_not_b : Complex_Selector :=
  simple_complex [Wrapped_Selector ":not" (Some [sel_a]); Wrapped_Selector ":not" (Some [sel_b])].

(** The style sheet [.a { color: red }]. *)
Definition sheet_a : list Statement := [Ruleset [sel_a] (mkBlock false [Other_Statement])].

End Examples.

Module MoreExamples.
Import SpecModel Examples.

(** [.b] inside [@media print], and a store that holds it at address 0. *)
Definition b_in_print : Compound_Selector :=
  mkCompound [b] [] false false false (Some (mkMedia_Block (Some "print"))).
Definition print_heap : Heap := [b_in_print].

(** [.a { @extend .b }], with the extendee [.b] inside [@media print]. *)
Definition extends_into_print : ExtensionSubsetMap :=
  [(SpecModel.to_str_vec b_in_print, (Some (with_parent sel_a), Some 0))].

(** The style sheet [.a, .b { color: red }]. *)
Definition sheet_a_b : list Statement := [Ruleset [sel_a; sel_b] (mkBlock false [Other_Statement])].

(** The style sheet [.a { .b { } }]: no ruleset has output. *)
Definition sheet_nested : list Statement :=
  [Ruleset [sel_a] (mkBlock false [Ruleset [sel_b] (mkBlock false [])])].

End MoreExamples.

(** * Properties *)

(** ** trim *)

Section TrimFacts.
Context `{Ast}.

Lemma trim_seqs2_existsb isReplace seq1 pSeq1 l2 :
  nodeToComplexSelector seq1 = Returns pSeq1 →
  Forall (fun seq => returned (nodeToComplexSelector seq)) l2 →
  trim_seqs2 (maxSpecificity isReplace pSeq1) pSeq1 l2
  = Returns (existsb (dominates isReplace seq1) l2).
Proof.
  intros H1. induction 1 as [|seq2 l2 [pSeq2 H2] _ IH]; simpl; [done|].
  unfold dominates at 1. rewrite H1, H2. simpl. rewrite IH.
  by destruct (_ && _).
Qed.

Lemma trim_result_existsb isReplace h seq1 pSeq1 result :
  nodeToComplexSelector seq1 = Returns pSeq1 →
  Forall (fun e => is_group e.2) result →
  trim_result h (maxSpecificity isReplace pSeq1) pSeq1 result
  = Returns (existsb (fun e => bool_decide (e.1 ≠ h) && dominated_by isReplace seq1 e.2) result).
Proof.
  intros H1.
  induction 1 as [|[h2 seqs2] result (l2 & Hc & Hl2) _ IH]; simpl; [done|].
  destruct (decide (h = h2)) as [->|Hne].
  - rewrite bool_decide_eq_false_2 by (intros ?; done). simpl. apply IH.
  - rewrite bool_decide_eq_true_2 by (intros ->; done). simpl in *.
    rewrite Hc. simpl. rewrite (trim_seqs2_existsb _ seq1) by done.
    unfold dominated_by. rewrite Hc. simpl.
    destruct (existsb _ l2); simpl; [done|apply IH].
Qed.

Lemma trim_seqs1_filter isReplace h l1 result tempResult :
  Forall (fun seq => returned (nodeToComplexSelector seq)) l1 →
  Forall (fun e => is_group e.2) result →
  trim_seqs1 isReplace h l1 result tempResult
  = Returns (tempResult ++
       List.filter (fun seq1 => negb (existsb (fun e => bool_decide (e.1 ≠ h)
                                       && dominated_by isReplace seq1 e.2) result)) l1).
Proof.
  intros Hl1 Hres. revert tempResult.
  induction Hl1 as [|seq1 l1 [pSeq1 H1] _ IH]; intros tempResult; simpl.
  - by rewrite app_nil_r.
  - rewrite H1. simpl. rewrite (trim_result_existsb _ _ seq1) by done. simpl.
    rewrite IH. destruct (existsb _ result); simpl; [done|].
    by rewrite <- app_assoc.
Qed.

Lemma existsb_tag_done (f : Node → bool) t out :
  existsb (fun e => bool_decide (e.1 ≠ InputGroup t) && f e.2) (tag_done out)
  = existsb f out.
Proof.
  unfold tag_done. generalize 0 as k.
  assert (∀ (g : nat → nat) l, existsb (fun e => bool_decide (e.1 ≠ InputGroup t) && f e.2)
            (imap (fun k seqs => (TempResult (g k), seqs)) l) = existsb f l) as Hg.
  { intros g l. revert g. induction l as [|x l IH]; intros g; simpl; [done|].
    f_equal. apply (IH (g ∘ S)). }
  intros _. apply (Hg id).
Qed.

Lemma existsb_tag_todo (f : Node → bool) t t' rest :
  t < t' →
  existsb (fun e => bool_decide (e.1 ≠ InputGroup t) && f e.2) (tag_todo t' rest)
  = existsb f rest.
Proof.
  unfold tag_todo. revert t'.
  induction rest as [|x rest IH]; intros t' Hlt; simpl; [done|].
  rewrite bool_decide_eq_true_2 by (intros [= ?]; lia). simpl. f_equal.
  rewrite <- (IH (S t')) by lia.
  f_equal. apply imap_ext. intros k y _. simpl. do 2 f_equal. lia.
Qed.

Lemma tag_todo_cons t x rest :
  tag_todo t (x :: rest) = (InputGroup t, x) :: tag_todo (S t) rest.
Proof.
  unfold tag_todo. simpl. rewrite Nat.add_0_r. f_equal.
  apply imap_ext. intros k y _. simpl. do 2 f_equal. lia.
Qed.

Lemma tag_done_snoc out x :
  tag_done (out ++ [x]) = tag_done out ++ [(TempResult (length out), x)].
Proof.
  unfold tag_done. rewrite imap_app. simpl. by rewrite Nat.add_0_r.
Qed.

Lemma tag_done_length out : length (tag_done out) = length out.
Proof. unfold tag_done. apply length_imap. Qed.

Lemma snd_tag_done out : (tag_done out).*2 = out.
Proof.
  unfold tag_done. generalize 0.
  assert (∀ (g : nat → nat) (l : list Node),
            (imap (fun k seqs => (TempResult (g k), seqs)) l).*2 = l) as Hg.
  { intros g l. revert g. induction l as [|x l IH]; intros g; simpl; [done|].
    f_equal. apply (IH (g ∘ S)). }
  intros _. apply (Hg id).
Qed.

Lemma tag_todo_0 groups :
  tag_todo 0 groups = imap (fun k seqs => (InputGroup k, seqs)) groups.
Proof. unfold tag_todo. by apply imap_ext. Qed.

Lemma Forall_tag_done (P : Node → Prop) out :
  Forall P out → Forall (fun e => P e.2) (tag_done out).
Proof.
  intros HP. apply Forall_fmap with (f := snd) (P := P).
  by rewrite snd_tag_done.
Qed.

Lemma Forall_tag_todo (P : Node → Prop) t rest :
  Forall P rest → Forall (fun e => P e.2) (tag_todo t rest).
Proof.
  intros HP. revert t. induction HP as [|x rest Hx _ IH]; intros t.
  - constructor.
  - rewrite tag_todo_cons. constructor; [done|apply IH].
Qed.

Lemma dropped_prefix isReplace out more groups i seq1 :
  i ≤ length out →
  dropped isReplace (out ++ more) groups i seq1 = dropped isReplace out groups i seq1.
Proof.
  intros Hi. unfold dropped, compared_groups.
  by rewrite take_app_le.
Qed.

Lemma existsb_working_result (f : Node → bool) out_done seqs1 rest :
  existsb (fun e => bool_decide (e.1 ≠ InputGroup (length out_done)) && f e.2)
          (tag_done out_done ++ tag_todo (length out_done) (seqs1 :: rest))
  = existsb f (out_done ++ rest).
Proof.
  rewrite !existsb_app, existsb_tag_done.
  rewrite tag_todo_cons. cbn [existsb fst snd].
  rewrite bool_decide_eq_false_2 by (intros Hne; by apply Hne).
  rewrite existsb_tag_todo by lia. done.
Qed.

Lemma is_group_filter lf (f : Node → bool) seqs l :
  collection seqs = Some l →
  Forall (fun seq => returned (nodeToComplexSelector seq)) l →
  is_group (CollectionNode lf (List.filter f l)).
Proof.
  intros _ Hl. exists (List.filter f l). split; [done|].
  induction Hl as [|x l Hx _ IH]; simpl; [constructor|].
  destruct (f x); [by constructor|done].
Qed.

Lemma trim_seqses_rule isReplace groups :
  Forall is_group groups →
  ∀ rest done out_done,
    groups = done ++ rest →
    length out_done = length done →
    Forall is_group out_done →
    (∀ i seqs1 l1, i < length done → groups !! i = Some seqs1 → collection seqs1 = Some l1 →
       out_done !! i = Some (trimmed_group isReplace out_done groups i seqs1 l1)) →
    ∃ out,
      trim_seqses isReplace rest (length done) (tag_done out_done ++ tag_todo (length done) rest)
        = Returns (tag_done out)
      ∧ length out = length groups
      ∧ ∀ i seqs1 l1, groups !! i = Some seqs1 → collection seqs1 = Some l1 →
          out !! i = Some (trimmed_group isReplace out groups i seqs1 l1).
Proof.
  intros Hgroups rest.
  induction rest as [|seqs1 rest IH]; intros done out_done Hg Hlen Hout Hdone.
  - exists out_done. simpl. rewrite app_nil_r in *. subst groups.
    split; [done|]. split; [done|].
    intros i seqs1 l1 Hi Hl1. apply Hdone; [by eapply lookup_lt_Some|done..].
  - assert (Hall : Forall is_group (seqs1 :: rest)).
    { rewrite Hg in Hgroups. by apply Forall_app in Hgroups as [_ Hr]. }
    assert (Hc : is_group seqs1) by (by inversion Hall).
    destruct Hc as (l1 & Hc & Hl1).
    cbn [trim_seqses]. rewrite Hc. cbn [deref Outcome_bind].
    rewrite trim_seqs1_filter; [|done|]; cycle 1.
    { apply Forall_app. split.
      - by apply (Forall_tag_done is_group).
      - by apply (Forall_tag_todo is_group). }
    cbn [Outcome_bind app].
    set (new := CollectionNode (got_line_feed seqs1) _).
    assert (Hins : <[length done := (TempResult (length done), new)]>
                     (tag_done out_done ++ tag_todo (length done) (seqs1 :: rest))
                   = tag_done (out_done ++ [new]) ++ tag_todo (S (length done)) rest).
    { rewrite tag_todo_cons, tag_done_snoc, <- app_assoc. simpl.
      rewrite Hlen.
      replace (length done) with (length (tag_done out_done) + 0) at 1
        by (rewrite tag_done_length; lia).
      by rewrite insert_app_r. }
    rewrite Hins.
    assert (Hnew : new = trimmed_group isReplace (out_done ++ [new]) groups (length done)
                           seqs1 l1).
    { unfold new, trimmed_group. f_equal. apply filter_ext. intros seq1. f_equal.
      rewrite <- Hlen, existsb_working_result.
      unfold dropped, compared_groups.
      rewrite take_app_length. rewrite Hg, Hlen.
      rewrite (cons_middle _ done rest), app_assoc.
      replace (S (length done)) with (length (done ++ [seqs1]))
        by (rewrite length_app; simpl; lia).
      by rewrite drop_app_length. }
    replace (S (length done)) with (length (done ++ [seqs1]))
      by (rewrite length_app; simpl; lia).
    apply IH.
    + rewrite Hg. by rewrite <- app_assoc.
    + rewrite !length_app. simpl. lia.
    + apply Forall_app. split; [done|]. constructor; [|constructor].
      by eapply is_group_filter.
    + intros i seqs1' l1' Hi Hgi Hl1'.
      rewrite length_app in Hi. simpl in Hi.
      destruct (decide (i = length done)) as [->|Hne].
      * rewrite <- Hlen, list_lookup_middle by done.
        assert (seqs1' = seqs1) as ->.
        { rewrite Hg, list_lookup_middle in Hgi by done. congruence. }
        assert (l1' = l1) as -> by congruence.
        rewrite Hlen. by rewrite <- Hnew.
      * rewrite lookup_app_l by lia.
        rewrite (Hdone i seqs1' l1') by (done || lia).
        unfold trimmed_group. do 2 f_equal. apply filter_ext. intros seq1.
        rewrite dropped_prefix by lia. done.
Qed.

End TrimFacts.

Section TrimClaims.
Context `{Ast}.

Lemma fold_max_le (l : list Complex_Selector) (init n : N) :
  (fold_left (fun m p => N.max m (specificity p)) l init <= n)%N ↔
  (init <= n)%N ∧ ∀ src, src ∈ l → (specificity src <= n)%N.
Proof.
  revert init. induction l as [|x l IH]; intros init; simpl.
  - split; [intros ?; split; [done|]; intros ? Hin; inversion Hin|by intros [? _]].
  - rewrite IH. split.
    + intros [Hm Hl]. split; [lia|]. intros src Hin.
      apply elem_of_cons in Hin as [->|Hin]; [lia|by apply Hl].
    + intros [Hi Hl]. split.
      * assert (specificity x <= n)%N by (apply Hl; by left). lia.
      * intros src Hin. apply Hl. by right.
Qed.

(** The threshold of lines 572-581: a selector reaches it when it is at
    least as specific as every source and, for a replace, as the selector
    itself. *)
Lemma maxSpecificity_le isReplace pSeq1 (n : N) :
  (maxSpecificity isReplace pSeq1 <= n)%N ↔
  (∀ src, src ∈ sources pSeq1 → (specificity src <= n)%N)
  ∧ (isReplace = true → (specificity pSeq1 <= n)%N).
Proof.
  unfold maxSpecificity. rewrite fold_max_le.
  destruct isReplace; split.
  - intros [? ?]. done.
  - intros [? Hs]. split; [by apply Hs|done].
  - intros [_ ?]. split; [done|discriminate].
  - intros [? _]. split; [apply N.le_0_l|done].
Qed.

Lemma dominates_iff isReplace seq1 seq2 pSeq1 pSeq2 :
  nodeToComplexSelector seq1 = Returns pSeq1 →
  nodeToComplexSelector seq2 = Returns pSeq2 →
  dominates isReplace seq1 seq2 = true ↔
    (∀ src, src ∈ sources pSeq1 → (specificity src <= specificity pSeq2)%N)
    ∧ (isReplace = true → (specificity pSeq1 <= specificity pSeq2)%N)
    ∧ is_superselector_of pSeq2 pSeq1 = true.
Proof.
  intros H1 H2. unfold dominates. rewrite H1, H2.
  rewrite andb_true_iff, N.leb_le, maxSpecificity_le. tauto.
Qed.

Lemma trim_returns lf groups isReplace :
  length groups ≤ 100 →
  Forall is_group groups →
  ∃ out,
    trim (CollectionNode lf groups) isReplace = Returns (CollectionNode false out)
    ∧ length out = length groups
    ∧ ∀ i seqs1 l1, groups !! i = Some seqs1 → collection seqs1 = Some l1 →
        out !! i = Some (trimmed_group isReplace out groups i seqs1 l1).
Proof.
  intros Hlen Hg.
  destruct (trim_seqses_rule isReplace groups Hg groups [] []) as (out & Hrun & Hl & Hout);
    [done|done|constructor|intros i ? ? Hi; simpl in Hi; lia|].
  exists out. unfold trim. cbn [collection deref Outcome_bind].
  rewrite decide_False by lia.
  simpl in Hrun. rewrite tag_todo_0 in Hrun. rewrite Hrun. cbn [Outcome_bind].
  by rewrite snd_tag_done.
Qed.

(** C8.  When the input has more than 100 groups, [trim] returns the input
    itself: no group is visited and no selector is removed. *)
Theorem trim_over_100_groups_unchanged (seqses : Node) (groups : list Node) (isReplace : bool) :
  collection seqses = Some groups →
  100 < length groups →
  trim seqses isReplace = Returns seqses.
Proof.
  intros Hc Hlen. unfold trim. rewrite Hc. cbn [deref Outcome_bind].
  by rewrite decide_True.
Qed.

(** C1 (amended).  For an input of at most 100 groups, the output has one
    group per input group, and group [i] of the output keeps exactly the
    selectors [seq1] of input group [i] that no selector of the compared
    groups dominates.  The compared groups are the groups other than [i] of
    the working result: the groups before [i] as already trimmed, the groups
    after [i] as in the input.  [seq2] dominates [seq1] when it is a
    superselector of [seq1] and at least as specific as every source of
    [seq1] and, when [isReplace] is true, as [seq1] itself. *)
Theorem trim_dominance_rule (lf : bool) (groups : list Node) (isReplace : bool) :
  length groups ≤ 100 →
  Forall is_group groups →
  ∃ out,
    trim (CollectionNode lf groups) isReplace = Returns (CollectionNode false out)
    ∧ length out = length groups
    ∧ (∀ i seqs1 l1, groups !! i = Some seqs1 → collection seqs1 = Some l1 →
        out !! i = Some (CollectionNode (got_line_feed seqs1)
                           (List.filter
                              (fun seq1 => negb (existsb (dominated_by isReplace seq1)
                                                   (take i out ++ drop (S i) groups)))
                              l1)))
    ∧ (∀ seq1 seq2 pSeq1 pSeq2,
        nodeToComplexSelector seq1 = Returns pSeq1 →
        nodeToComplexSelector seq2 = Returns pSeq2 →
        dominates isReplace seq1 seq2 = true ↔
          (∀ src, src ∈ sources pSeq1 → (specificity src <= specificity pSeq2)%N)
          ∧ (isReplace = true → (specificity pSeq1 <= specificity pSeq2)%N)
          ∧ is_superselector_of pSeq2 pSeq1 = true).
Proof.
  intros Hlen Hg.
  destruct (trim_returns lf groups isReplace Hlen Hg) as (out & Hrun & Hl & Hout).
  exists out. split; [done|]. split; [done|]. split.
  - intros i seqs1 l1 Hi Hc. exact (Hout i seqs1 l1 Hi Hc).
  - intros seq1 seq2 pSeq1 pSeq2 H1 H2. by apply dominates_iff.
Qed.

(** C9 (amended).  When the same selector [seq] stands in two groups
    [i < j] and [trim] drops both copies, the later copy is dropped on
    account of a selector [seq2] of another group [k] of the working result
    (a group of the output for [k < j], a group of the input for [k > j]),
    and that selector is not the earlier copy: a group is never compared
    with itself, and group [i] is compared in its already trimmed form. *)
Theorem trim_identical_copies (lf : bool) (groups : list Node) (isReplace : bool)
    (i j : nat) (seqs_i seqs_j : Node) (l_i l_j : list Node) (seq : Node) :
  length groups ≤ 100 →
  Forall is_group groups →
  i < j →
  groups !! i = Some seqs_i → collection seqs_i = Some l_i → seq ∈ l_i →
  groups !! j = Some seqs_j → collection seqs_j = Some l_j → seq ∈ l_j →
  ∃ out kept_i kept_j,
    trim (CollectionNode lf groups) isReplace = Returns (CollectionNode false out)
    ∧ out !! i = Some (CollectionNode (got_line_feed seqs_i) kept_i)
    ∧ out !! j = Some (CollectionNode (got_line_feed seqs_j) kept_j)
    ∧ (seq ∉ kept_i → seq ∉ kept_j →
       ∃ k seqs2 l2 seq2,
         k ≠ j
         ∧ (if decide (k < j) then out !! k else groups !! k) = Some seqs2
         ∧ collection seqs2 = Some l2
         ∧ seq2 ∈ l2
         ∧ dominates isReplace seq seq2 = true
         ∧ (k = i → seq2 ≠ seq)).
Proof.
  intros Hlen Hg Hij Hi Hci Hini Hj Hcj Hinj.
  destruct (trim_returns lf groups isReplace Hlen Hg) as (out & Hrun & Hl & Hout).
  exists out. eexists. eexists.
  split; [exact Hrun|].
  split; [exact (Hout i seqs_i l_i Hi Hci)|].
  split; [exact (Hout j seqs_j l_j Hj Hcj)|].
  intros Hdi Hdj.
  assert (Hdrop : dropped isReplace out groups j seq = true).
  { destruct (dropped isReplace out groups j seq) eqn:E; [done|].
    exfalso. apply Hdj. apply list_elem_of_In, filter_In.
    split; [by apply list_elem_of_In|by rewrite E]. }
  unfold dropped, compared_groups in Hdrop.
  apply existsb_exists in Hdrop as (seqs2 & Hin & Hdom).
  unfold dominated_by in Hdom.
  destruct (collection seqs2) as [l2|] eqn:Hc2; [|done].
  apply existsb_exists in Hdom as (seq2 & Hin2 & Hdom).
  apply list_elem_of_In in Hin, Hin2.
  apply elem_of_app in Hin as [Hin|Hin].
  - apply list_elem_of_lookup in Hin as (k & Hk).
    apply lookup_take_Some in Hk as [Hk Hkj].
    exists k, seqs2, l2, seq2.
    split; [lia|]. rewrite decide_True by done.
    repeat split; try done.
    intros -> ->. rewrite (Hout i seqs_i l_i Hi Hci) in Hk.
    injection Hk as <-. simpl in Hc2. injection Hc2 as <-. done.
  - apply list_elem_of_lookup in Hin as (k & Hk).
    rewrite lookup_drop in Hk.
    exists (S j + k), seqs2, l2, seq2.
    split; [lia|]. rewrite decide_False by lia.
    repeat split; try done. lia.
Qed.

End TrimClaims.

(** *** trim on concrete inputs *)

Module TrimExamples.
Import Examples.
#[local] Existing Instance SpecModel.ast.

Lemma trim_over_100_groups_unchanged_witness :
  trim (CollectionNode true many_groups) false
  = Returns (CollectionNode true many_groups).
Proof.
  apply (trim_over_100_groups_unchanged _ many_groups).
  - reflexivity.
  - vm_compute. lia.
Defined.

Lemma is_group_example (l : list Node) :
  Forall (fun seq => isCollection seq = true) l →
  is_group (CollectionNode false l).
Proof.
  intros Hl. exists l. split; [reflexivity|].
  induction Hl as [|x l Hx _ IH]; constructor; [|done].
  destruct x; try discriminate. eexists. reflexivity.
Defined.

(** With [isReplace] false and no sources the threshold is 0: [.a.b] in
    group 0 is dropped on account of [.a] in group 1, although [.a] is less
    specific than [.a.b] (the rule as worded keeps it).  [.a] in group 2 is
    kept, because groups 0 and 1 are compared as already trimmed, although
    input group 1 holds [.a] (the rule as worded drops it). *)
Lemma trim_dominance_rule_counterexample :
  trim (coll three_groups) false
  = Returns (coll [coll []; coll [];
                            coll [SpecModel.seq1 [a]]])
  ∧ claimed_dropped false three_groups 0
      (SpecModel.seq1 [a; b]) = false
  ∧ claimed_dropped false three_groups 2
      (SpecModel.seq1 [a]) = true.
Proof. vm_compute. done. Qed.

Lemma trim_dominance_rule_witness :
  ∃ out,
    trim (CollectionNode false three_groups) false
    = Returns (CollectionNode false out)
    ∧ length out = length three_groups
    ∧ (∀ i seqs1 l1, three_groups !! i = Some seqs1 → collection seqs1 = Some l1 →
        out !! i = Some (CollectionNode (got_line_feed seqs1)
                           (List.filter
                              (fun seq1 => negb (existsb (dominated_by false seq1)
                                                   (take i out ++ drop (S i) three_groups)))
                              l1)))
    ∧ (∀ seq1 seq2 pSeq1 pSeq2,
        nodeToComplexSelector seq1 = Returns pSeq1 →
        nodeToComplexSelector seq2 = Returns pSeq2 →
        dominates false seq1 seq2 = true ↔
          (∀ src, src ∈ sources pSeq1 → (specificity src <= specificity pSeq2)%N)
          ∧ (false = true → (specificity pSeq1 <= specificity pSeq2)%N)
          ∧ is_superselector_of pSeq2 pSeq1 = true).
Proof.
  apply (trim_dominance_rule false three_groups false).
  - simpl. lia.
  - repeat constructor; apply is_group_example; repeat constructor.
Defined.

(** Both copies of [.a.b] are dropped: the copy in group 0 on account of the
    copy in group 1, the copy in group 1 on account of [.a], which survives
    in group 0. *)
Lemma trim_identical_copies_counterexample :
  trim (coll two_groups) false
  = Returns (coll [coll [SpecModel.seq1 [a]]; coll []]).
Proof. vm_compute. done. Qed.

Lemma trim_identical_copies_witness :
  ∃ out kept_i kept_j,
    trim (CollectionNode false two_groups) false
    = Returns (CollectionNode false out)
    ∧ out !! 0 = Some (CollectionNode false kept_i)
    ∧ out !! 1 = Some (CollectionNode false kept_j)
    ∧ (SpecModel.seq1 [a; b] ∉ kept_i →
       SpecModel.seq1 [a; b] ∉ kept_j →
       ∃ k seqs2 l2 seq2,
         k ≠ 1
         ∧ (if decide (k < 1) then out !! k else two_groups !! k) = Some seqs2
         ∧ collection seqs2 = Some l2
         ∧ seq2 ∈ l2
         ∧ dominates false (SpecModel.seq1 [a; b]) seq2 = true
         ∧ (k = 0 → seq2 ≠ SpecModel.seq1 [a; b])).
Proof.
  apply (trim_identical_copies false two_groups false 0 1
           (coll [SpecModel.seq1 [a; b]; SpecModel.seq1 [a]])
           (coll [SpecModel.seq1 [a; b]])
           [SpecModel.seq1 [a; b]; SpecModel.seq1 [a]]
           [SpecModel.seq1 [a; b]]).
  - simpl. lia.
  - repeat constructor; apply is_group_example; repeat constructor.
  - lia.
  - reflexivity.
  - reflexivity.
  - constructor.
  - reflexivity.
  - reflexivity.
  - constructor.
Defined.

End TrimExamples.

(** ** chunks *)

Section ChunksFacts.
Context `{Ast}.

Lemma suffix_of_cons_inv (s : list Node) x l :
  s `suffix_of` x :: l → s = x :: l ∨ s `suffix_of` l.
Proof.
  destruct s as [|y s]; [right; apply suffix_nil|apply suffix_cons_inv].
Qed.

Lemma chunks_seq1_returns (p : Node → bool) lf l1 chunk1 :
  ∃ rest1 taken,
    chunks_seq1 (fun seq => Returns (p seq)) lf l1 chunk1 = Returns (rest1, chunk1 ++ taken)
    ∧ l1 = taken ++ rest1
    ∧ (rest1 = [] ∨ p (CollectionNode lf rest1) = true).
Proof.
  revert chunk1. induction l1 as [|x l1 IH]; intros chunk1; simpl.
  - exists [], []. rewrite app_nil_r. auto.
  - destruct (p (CollectionNode lf (x :: l1))) eqn:Hp.
    + exists (x :: l1), []. rewrite app_nil_r. auto.
    + destruct (IH (chunk1 ++ [x])) as (rest1 & taken & Hrun & -> & Hstop).
      exists rest1, (x :: taken). rewrite Hrun, <- app_assoc. auto.
Qed.

Lemma chunks_seq2_returns (p : Node → bool) lf l2 chunk2 :
  (∃ suffix, suffix `suffix_of` l2 ∧ p (CollectionNode lf suffix) = true) →
  ∃ rest2 taken,
    chunks_seq2 (fun seq => Returns (p seq)) lf l2 chunk2 = Returns (rest2, chunk2 ++ taken)
    ∧ l2 = taken ++ rest2
    ∧ p (CollectionNode lf rest2) = true.
Proof.
  revert chunk2. induction l2 as [|x l2 IH]; intros chunk2 (suffix & Hsuf & Hp); simpl.
  - apply suffix_nil_inv in Hsuf as ->. rewrite Hp.
    exists [], []. by rewrite app_nil_r.
  - destruct (p (CollectionNode lf (x :: l2))) eqn:Hx.
    + exists (x :: l2), []. by rewrite app_nil_r.
    + apply suffix_of_cons_inv in Hsuf as [->|Hsuf]; [congruence|].
      destruct (IH (chunk2 ++ [x])) as (rest2 & taken & Hrun & -> & Hstop); [by eauto|].
      exists rest2, (x :: taken). by rewrite Hrun, <- app_assoc.
Qed.

Lemma chunks_seq2_undefined (p : Node → bool) lf l2 chunk2 :
  (∀ suffix, suffix `suffix_of` l2 → p (CollectionNode lf suffix) = false) →
  chunks_seq2 (fun seq => Returns (p seq)) lf l2 chunk2 = Undefined.
Proof.
  revert chunk2. induction l2 as [|x l2 IH]; intros chunk2 Hp; simpl.
  - by rewrite Hp.
  - rewrite Hp by done. apply IH. intros suffix Hsuf. apply Hp. by apply suffix_cons_r.
Qed.

Lemma chunks_seq2_dichotomy (p : Node → bool) lf (l2 : list Node) :
  (∃ suffix, suffix `suffix_of` l2 ∧ p (CollectionNode lf suffix) = true)
  ∨ (∀ suffix, suffix `suffix_of` l2 → p (CollectionNode lf suffix) = false).
Proof.
  induction l2 as [|x l2 [(s & Hs & Hp)|IH]].
  - destruct (p (CollectionNode lf [])) eqn:Hp.
    + left. by exists [].
    + right. intros s Hs. by apply suffix_nil_inv in Hs as ->.
  - left. exists s. split; [by apply suffix_cons_r|done].
  - destruct (p (CollectionNode lf (x :: l2))) eqn:Hp.
    + left. by exists (x :: l2).
    + right. intros s Hs. apply suffix_of_cons_inv in Hs as [->|Hs]; [done|by apply IH].
Qed.

(** C10.  For a chunker that is a total predicate [p]:
    - the loop that collects [chunk1] always returns: it stops at the first
      suffix of [seq1] on which [p] holds, or when [seq1] is empty;
    - [chunks] returns exactly when [p] holds on some suffix of [seq2]
      (the empty suffix included), and otherwise reads the front of the
      empty [seq2], which is undefined;
    - [ParentSuperselectorChunker] answers false on an empty sequence, so
      with it the undefined access is reached whenever [seq2] runs empty,
      at once when [seq1] and [seq2] are empty. *)
Theorem chunks_total_iff_chunker_holds_on_suffix
    (p : Node → bool) (lf1 lf2 : bool) (l1 l2 : list Node) :
  let chunker := fun seq => Returns (p seq) in
  (∃ rest1 chunk1,
      chunks_seq1 chunker lf1 l1 [] = Returns (rest1, chunk1)
      ∧ l1 = chunk1 ++ rest1
      ∧ (rest1 = [] ∨ p (CollectionNode lf1 rest1) = true))
  ∧ (returned (chunks chunker (CollectionNode lf1 l1) (CollectionNode lf2 l2))
     ↔ ∃ suffix, suffix `suffix_of` l2 ∧ p (CollectionNode lf2 suffix) = true)
  ∧ ((∀ suffix, suffix `suffix_of` l2 → p (CollectionNode lf2 suffix) = false) →
     chunks chunker (CollectionNode lf1 l1) (CollectionNode lf2 l2) = Undefined)
  ∧ (∀ mLcs, ParentSuperselectorChunker mLcs (CollectionNode lf2 []) = Returns false)
  ∧ (∀ mLcs, chunks (ParentSuperselectorChunker mLcs)
               (CollectionNode lf1 []) (CollectionNode lf2 []) = Undefined).
Proof.
  intros chunker.
  destruct (chunks_seq1_returns p lf1 l1 []) as (rest1 & chunk1 & Hrun1 & Hl1 & Hstop).
  simpl in Hrun1.
  assert (Hundef : (∀ suffix, suffix `suffix_of` l2 → p (CollectionNode lf2 suffix) = false) →
            chunks chunker (CollectionNode lf1 l1) (CollectionNode lf2 l2) = Undefined).
  { intros Hp. unfold chunks. cbn [collection deref Outcome_bind got_line_feed].
    unfold chunker. rewrite Hrun1. cbn [Outcome_bind].
    by rewrite chunks_seq2_undefined. }
  split; [by exists rest1, chunk1|].
  split; [|split; [exact Hundef|split; [done|done]]].
  split.
  - intros [r Hr].
    destruct (chunks_seq2_dichotomy p lf2 l2) as [Hex|Hall]; [done|].
    rewrite (Hundef Hall) in Hr. discriminate.
  - intros Hex.
    destruct (chunks_seq2_returns p lf2 l2 [] Hex) as (rest2 & chunk2 & Hrun2 & _ & _).
    unfold chunks. cbn [collection deref Outcome_bind got_line_feed].
    unfold chunker. rewrite Hrun1. cbn [Outcome_bind]. rewrite Hrun2. cbn [Outcome_bind].
    by eexists.
Qed.

End ChunksFacts.

(** ** The LCS utility *)

Section LcsFacts.
Context {A : Type} (comparator : A → A → option A).

#[local] Abbreviation L := (lcs_length comparator).

Lemma lcs_length_0_r (x y : list A) i : L x y i 0 = 0.
Proof. by destruct i. Qed.

Lemma lcs_length_S (x y : list A) i j xi yj :
  x !! i = Some xi → y !! j = Some yj →
  L x y (S i) (S j) =
    match comparator xi yj with
    | Some _ => L x y i j + 1
    | None => Nat.max (L x y (S i) j) (L x y i (S j))
    end.
Proof. intros Hx Hy. simpl. by rewrite Hx, Hy. Qed.

Lemma lcs_table_row_spec (x y : list A) i xi :
  x !! i = Some xi →
  ∀ ys j0, drop j0 y = ys →
    lcs_table_row comparator xi ys (L x y i <$> seq j0 (S (length ys))) (L x y (S i) j0)
    = L x y (S i) <$> seq (S j0) (length ys).
Proof.
  intros Hx ys. induction ys as [|yj ys IH]; intros j0 Hdrop; [done|].
  assert (Hy : y !! j0 = Some yj).
  { rewrite <- (Nat.add_0_r j0), <- lookup_drop, Hdrop. done. }
  cbn [lcs_table_row length seq fmap list_fmap nth drop].
  rewrite <- (lcs_length_S x y i j0 xi yj Hx Hy).
  f_equal. apply (IH (S j0)).
  rewrite <- (drop_drop y j0 1) || rewrite <- (Nat.add_1_r j0), <- drop_drop.
  all: by rewrite Hdrop.
Qed.

Lemma lcs_table_rows_spec (x y : list A) :
  ∀ xs i0, drop i0 x = xs →
    lcs_table_rows comparator xs y (L x y i0 <$> seq 0 (S (length y)))
    = (fun i => L x y i <$> seq 0 (S (length y))) <$> seq (S i0) (length xs).
Proof.
  intros xs. induction xs as [|xi xs IH]; intros i0 Hdrop; [done|].
  assert (Hx : x !! i0 = Some xi).
  { rewrite <- (Nat.add_0_r i0), <- lookup_drop, Hdrop. done. }
  assert (Hrow : 0 :: lcs_table_row comparator xi y (L x y i0 <$> seq 0 (S (length y))) 0
                 = L x y (S i0) <$> seq 0 (S (length y))).
  { pose proof (lcs_table_row_spec x y i0 xi Hx y 0 eq_refl) as Hr.
    rewrite lcs_length_0_r in Hr. rewrite Hr.
    cbn [seq fmap list_fmap]. by rewrite lcs_length_0_r. }
  change (lcs_table_rows comparator (xi :: xs) y ?p)
    with ((0 :: lcs_table_row comparator xi y p 0)
          :: lcs_table_rows comparator xs y (0 :: lcs_table_row comparator xi y p 0)).
  rewrite Hrow, (IH (S i0)); [done|].
  rewrite <- (Nat.add_1_r i0), <- drop_drop. by rewrite Hdrop.
Qed.

Lemma lcs_table_spec (x y : list A) :
  lcs_table comparator x y
  = (fun i => L x y i <$> seq 0 (S (length y))) <$> seq 0 (S (length x)).
Proof.
  unfold lcs_table.
  assert (Hrow0 : replicate (S (length y)) 0 = L x y 0 <$> seq 0 (S (length y))).
  { assert (Hrep : ∀ n k, replicate n 0 = L x y 0 <$> seq k n).
    { induction n as [|n IH]; intros k; [done|]. simpl. f_equal. apply IH. }
    apply Hrep. }
  cbn zeta. rewrite Hrow0.
  rewrite (lcs_table_rows_spec x y x 0) by done. done.
Qed.

Lemma table_at_spec (x y : list A) i j :
  i ≤ length x → j ≤ length y →
  table_at (lcs_table comparator x y) i j = L x y i j.
Proof.
  intros Hi Hj. unfold table_at. rewrite lcs_table_spec.
  rewrite (nth_lookup_Some _ _ _ (L x y i <$> seq 0 (S (length y)))).
  - apply nth_lookup_Some. rewrite list_lookup_fmap, lookup_seq_lt by lia. done.
  - rewrite list_lookup_fmap, lookup_seq_lt by lia. done.
Qed.

Lemma lcs_backtrace_length (x y : list A) depth :
  ∀ i j, i ≤ length x → j ≤ length y → i + j ≤ depth →
    length (lcs_backtrace comparator depth (lcs_table comparator x y) x y i j) = L x y i j.
Proof.
  induction depth as [|depth IH]; intros i j Hi Hj Hd.
  - assert (i = 0) as -> by lia. done.
  - destruct i as [|i]; [done|]. destruct j as [|j]; [by rewrite lcs_length_0_r|].
    cbn [lcs_backtrace Nat.eqb orb]. rewrite !Nat.sub_succ, !Nat.sub_0_r.
    destruct (lookup_lt_is_Some_2 x i) as [xi Hx]; [lia|].
    destruct (lookup_lt_is_Some_2 y j) as [yj Hy]; [lia|].
    rewrite Hx, Hy, (lcs_length_S x y i j xi yj Hx Hy).
    destruct (comparator xi yj) as [out|].
    + rewrite length_app, IH by lia. done.
    + rewrite !table_at_spec by lia.
      destruct (Nat.ltb_spec (L x y i (S j)) (L x y (S i) j)).
      * rewrite IH by lia. lia.
      * rewrite IH by lia. lia.
Qed.

Lemma lcs_length_eq (x y : list A) :
  length (lcs comparator x y) = L x y (length x) (length y).
Proof. unfold lcs. by apply lcs_backtrace_length. Qed.

End LcsFacts.

Lemma sublist_snoc_inv {K : Type} (s l : list K) (a : K) :
  s `sublist_of` l ++ [a] → s `sublist_of` l ∨ ∃ t, s = t ++ [a] ∧ t `sublist_of` l.
Proof.
  intros Hs. apply sublist_app_r in Hs as (k1 & k2 & -> & H1 & H2).
  inversion H2 as [|? ? ? H3|? ? ? H3]; subst.
  - apply sublist_nil_r in H3 as ->. right. by exists k1.
  - apply sublist_nil_r in H3 as ->. left. by rewrite app_nil_r.
Qed.

Lemma sublist_same_length {K : Type} (s l : list K) :
  s `sublist_of` l → length l ≤ length s → s = l.
Proof.
  induction 1 as [|a s l Hs IH|a s l Hs IH]; simpl; intros Hlen; [done| |].
  - f_equal. apply IH. lia.
  - apply sublist_length in Hs. lia.
Qed.

(** The comparators used on operators compare a key of the elements and
    return their first argument. *)
Section LcsKeyed.
Context {A K : Type} (key : A → K) (comparator : A → A → option A) (x y : list A).
Hypothesis comparator_true :
  ∀ a b out, a ∈ x → b ∈ y → comparator a b = Some out → out = a ∧ key a = key b.
Hypothesis comparator_false :
  ∀ a b, a ∈ x → b ∈ y → comparator a b = None → key a ≠ key b.

Lemma lcs_backtrace_common depth :
  ∀ i j, i ≤ length x → j ≤ length y →
    let r := lcs_backtrace comparator depth (lcs_table comparator x y) x y i j in
    r `sublist_of` take i x ∧ key <$> r `sublist_of` key <$> take j y.
Proof.
  induction depth as [|depth IH]; intros i j Hi Hj; cbn zeta.
  - split; apply sublist_nil_l.
  - destruct i as [|i]; [split; apply sublist_nil_l|].
    destruct j as [|j]; [split; apply sublist_nil_l|].
    cbn [lcs_backtrace Nat.eqb orb]. rewrite !Nat.sub_succ, !Nat.sub_0_r.
    destruct (lookup_lt_is_Some_2 x i) as [xi Hx]; [lia|].
    destruct (lookup_lt_is_Some_2 y j) as [yj Hy]; [lia|].
    rewrite Hx, Hy, (take_S_r x i xi Hx), (take_S_r y j yj Hy), !fmap_app.
    destruct (comparator xi yj) as [out|] eqn:Hc.
    + destruct (comparator_true xi yj out) as [-> Hk];
        [by eapply list_elem_of_lookup_2|by eapply list_elem_of_lookup_2|done|].
      destruct (IH i j) as [H1 H2]; [lia..|]. cbn zeta in *.
      rewrite fmap_app. split; (apply sublist_app; [done|]).
      * done.
      * simpl. by rewrite Hk.
    + destruct (_ <? _).
      * destruct (IH (S i) j) as [H1 H2]; [lia..|]. cbn zeta in *.
        rewrite (take_S_r x i xi Hx) in H1. split; [done|].
        by apply sublist_inserts_r.
      * destruct (IH i (S j)) as [H1 H2]; [lia..|]. cbn zeta in *.
        rewrite (take_S_r y j yj Hy), fmap_app in H2. split; [|done].
        by apply sublist_inserts_r.
Qed.

Lemma lcs_length_optimal :
  ∀ i j (s : list K), i ≤ length x → j ≤ length y →
    s `sublist_of` key <$> take i x → s `sublist_of` key <$> take j y →
    length s ≤ lcs_length comparator x y i j.
Proof.
  induction i as [|i IHi]; intros j.
  { intros s Hi Hj Hsx Hsy. simpl in Hsx. apply sublist_nil_r in Hsx as ->. simpl. lia. }
  induction j as [|j IHj]; intros s Hi Hj Hsx Hsy.
  { simpl in Hsy. apply sublist_nil_r in Hsy as ->. simpl. lia. }
  destruct (lookup_lt_is_Some_2 x i) as [xi Hx]; [lia|].
  destruct (lookup_lt_is_Some_2 y j) as [yj Hy]; [lia|].
  rewrite (lcs_length_S comparator x y i j xi yj Hx Hy).
  rewrite (take_S_r x i xi Hx), fmap_app in Hsx.
  rewrite (take_S_r y j yj Hy), fmap_app in Hsy.
  assert (Hinx : xi ∈ x) by (by eapply list_elem_of_lookup_2).
  assert (Hiny : yj ∈ y) by (by eapply list_elem_of_lookup_2).
  simpl in Hsx, Hsy.
  apply sublist_snoc_inv in Hsx as [Hsx|(t & -> & Htx)];
    apply sublist_snoc_inv in Hsy as [Hsy|(t' & Hst & Hty)].
  - pose proof (IHi j s ltac:(lia) ltac:(lia) Hsx Hsy).
    destruct (comparator xi yj); [lia|].
    assert (length s ≤ lcs_length comparator x y i (S j)); [|lia].
    apply IHi; [lia|lia|done|].
    rewrite (take_S_r y j yj Hy), fmap_app. by apply sublist_inserts_r.
  - subst s.
    destruct (comparator xi yj) eqn:Hc.
    + assert (length t' ≤ lcs_length comparator x y i j).
      { apply IHi; [lia|lia| |done].
        etransitivity; [|exact Hsx]. by apply sublist_inserts_r. }
      rewrite length_app. simpl. lia.
    + assert (length (t' ++ [key yj]) ≤ lcs_length comparator x y i (S j)); [|lia].
      apply IHi; [lia|lia|done|].
      rewrite (take_S_r y j yj Hy), fmap_app. simpl.
      by apply sublist_app.
  - destruct (comparator xi yj) eqn:Hc.
    + assert (length t ≤ lcs_length comparator x y i j).
      { apply IHi; [lia|lia|done|].
        etransitivity; [|exact Hsy]. by apply sublist_inserts_r. }
      rewrite length_app. simpl. lia.
    + assert (length (t ++ [key xi]) ≤ lcs_length comparator x y (S i) j); [|lia].
      apply IHj; [lia|lia| |done].
      rewrite (take_S_r x i xi Hx), fmap_app. simpl. by apply sublist_app.
  - apply app_inj_tail in Hst as [-> Hk].
    destruct (comparator xi yj) eqn:Hc.
    + assert (length t' ≤ lcs_length comparator x y i j) by (apply IHi; (lia || done)).
      rewrite length_app. simpl. lia.
    + exfalso. by apply (comparator_false xi yj).
Qed.

Lemma lcs_sublist_l : lcs comparator x y `sublist_of` x.
Proof.
  destruct (lcs_backtrace_common (length x + length y) (length x) (length y)) as [H1 _];
    [done..|].
  cbn zeta in H1. by rewrite firstn_all in H1.
Qed.

Lemma lcs_sublist_r : key <$> lcs comparator x y `sublist_of` key <$> y.
Proof.
  destruct (lcs_backtrace_common (length x + length y) (length x) (length y)) as [_ H2];
    [done..|].
  cbn zeta in H2. by rewrite firstn_all in H2.
Qed.

Lemma lcs_longest (s : list K) :
  s `sublist_of` key <$> x → s `sublist_of` key <$> y →
  length s ≤ length (lcs comparator x y).
Proof.
  intros Hx Hy. rewrite lcs_length_eq.
  apply lcs_length_optimal; [done|done|by rewrite firstn_all..].
Qed.

(** The LCS equals [x] exactly when [x] is a subsequence of [y]. *)
Lemma lcs_eq_l_iff :
  lcs comparator x y = x ↔ key <$> x `sublist_of` key <$> y.
Proof.
  split.
  - intros Heq. rewrite <- Heq at 1. apply lcs_sublist_r.
  - intros Hsub. apply sublist_same_length; [apply lcs_sublist_l|].
    rewrite <- (length_fmap key x). by apply lcs_longest.
Qed.

(** The LCS agrees with [y], key by key, exactly when [y] is a subsequence
    of [x]. *)
Lemma lcs_eq_r_iff :
  key <$> lcs comparator x y = key <$> y ↔ key <$> y `sublist_of` key <$> x.
Proof.
  split.
  - intros Heq. rewrite <- Heq. apply fmap_sublist, lcs_sublist_l.
  - intros Hsub. apply sublist_same_length; [apply lcs_sublist_r|].
    rewrite !length_fmap, <- (length_fmap key y). by apply lcs_longest.
Qed.

End LcsKeyed.

(** ** mergeInitialOps *)

Section MergeInitialOpsFacts.
Context `{Ast}.

Lemma getAndRemoveInitialOps_spec l ops :
  ∃ taken rest,
    getAndRemoveInitialOps l ops = (rest, ops ++ taken)
    ∧ l = taken ++ rest
    ∧ Forall (fun n => isCombinator n = true) taken
    ∧ match rest with n :: _ => isCombinator n = false | [] => True end.
Proof.
  revert ops. induction l as [|n l IH]; intros ops; simpl.
  - exists [], []. by rewrite app_nil_r.
  - destruct (isCombinator n) eqn:Hn.
    + destruct (IH (ops ++ [n])) as (taken & rest & Hrun & -> & Hall & Hrest).
      exists (n :: taken), rest. rewrite Hrun, <- app_assoc.
      repeat split; [by constructor|done].
    + exists [], (n :: l). by rewrite app_nil_r.
Qed.

Lemma DefaultLcsComparator_true ops1 ops2 a b out :
  Forall (fun n => isCombinator n = true) ops1 →
  Forall (fun n => isCombinator n = true) ops2 →
  a ∈ ops1 → b ∈ ops2 → DefaultLcsComparator a b = Some out →
  out = a ∧ node_combinator a = node_combinator b.
Proof.
  intros H1 H2 Ha Hb. unfold DefaultLcsComparator, nodes_equal.
  rewrite Forall_forall in H1, H2.
  apply list_elem_of_In in Ha, Hb.
  specialize (H1 a Ha). specialize (H2 b Hb).
  destruct a, b; try discriminate. simpl.
  case_bool_decide; [|done]. intros [= <-]. by split.
Qed.

Lemma DefaultLcsComparator_false ops1 ops2 a b :
  Forall (fun n => isCombinator n = true) ops1 →
  Forall (fun n => isCombinator n = true) ops2 →
  a ∈ ops1 → b ∈ ops2 → DefaultLcsComparator a b = None →
  node_combinator a ≠ node_combinator b.
Proof.
  intros H1 H2 Ha Hb. unfold DefaultLcsComparator, nodes_equal.
  rewrite Forall_forall in H1, H2.
  apply list_elem_of_In in Ha, Hb.
  specialize (H1 a Ha). specialize (H2 b Hb).
  destruct a, b; try discriminate. simpl.
  case_bool_decide; [done|]. by intros _.
Qed.

Lemma nodes_equal_operators lf lf' (ops ops' : list Node) :
  Forall (fun n => isCombinator n = true) ops →
  Forall (fun n => isCombinator n = true) ops' →
  nodes_equal (CollectionNode lf ops) (CollectionNode lf' ops') = true
  ↔ node_combinator <$> ops = node_combinator <$> ops'.
Proof.
  intros Hops. revert ops'. unfold nodes_equal. simpl.
  induction Hops as [|n ops Hn _ IH]; intros ops' Hops'.
  - destruct ops'; simpl; split; congruence.
  - destruct Hops' as [|n' ops' Hn' Hops']; [simpl; split; congruence|].
    destruct n, n'; try discriminate. cbn [nodesEqual fmap list_fmap node_combinator].
    rewrite andb_true_iff, bool_decide_eq_true, (IH ops' Hops').
    split; [intros [-> ->]; done|intros [= -> ->]; done].
Qed.

(** C5.  [mergeInitialOps] strips the leading combinators [ops1] and [ops2]
    off the two sequences.  The LCS of [ops1] and [ops2] equals [ops1]
    exactly when [ops1] is a subsequence of [ops2], and equals [ops2] exactly
    when [ops2] is a subsequence of [ops1] (operators compared by their
    combinator).  The node returned is nil exactly when neither is a
    subsequence of the other; otherwise it is the longer of [ops1] and
    [ops2]: [ops2] when it contains [ops1], else [ops1]. *)
Theorem mergeInitialOps_subsequence_or_nil (lf1 lf2 : bool) (l1 l2 : list Node) :
  ∃ ops1 ops2 rest1 rest2 merged,
    mergeInitialOps (CollectionNode lf1 l1) (CollectionNode lf2 l2)
      = Returns (CollectionNode lf1 rest1, CollectionNode lf2 rest2, merged)
    ∧ getAndRemoveInitialOps l1 [] = (rest1, ops1)
    ∧ getAndRemoveInitialOps l2 [] = (rest2, ops2)
    ∧ l1 = ops1 ++ rest1 ∧ l2 = ops2 ++ rest2
    ∧ Forall (fun n => isCombinator n = true) ops1
    ∧ Forall (fun n => isCombinator n = true) ops2
    ∧ (lcs DefaultLcsComparator ops1 ops2 = ops1
       ↔ node_combinator <$> ops1 `sublist_of` node_combinator <$> ops2)
    ∧ (nodes_equal (CollectionNode false (lcs DefaultLcsComparator ops1 ops2))
                   (CollectionNode false ops2) = true
       ↔ node_combinator <$> ops2 `sublist_of` node_combinator <$> ops1)
    ∧ (merged = createNil
       ↔ ¬ node_combinator <$> ops1 `sublist_of` node_combinator <$> ops2
         ∧ ¬ node_combinator <$> ops2 `sublist_of` node_combinator <$> ops1)
    ∧ (node_combinator <$> ops1 `sublist_of` node_combinator <$> ops2 →
       merged = CollectionNode false ops2 ∧ length ops1 ≤ length ops2)
    ∧ (node_combinator <$> ops2 `sublist_of` node_combinator <$> ops1 →
       ¬ node_combinator <$> ops1 `sublist_of` node_combinator <$> ops2 →
       merged = CollectionNode false ops1 ∧ length ops2 < length ops1).
Proof.
  destruct (getAndRemoveInitialOps_spec l1 []) as (ops1 & rest1 & Hrun1 & Hl1 & Hops1 & _).
  destruct (getAndRemoveInitialOps_spec l2 []) as (ops2 & rest2 & Hrun2 & Hl2 & Hops2 & _).
  simpl in Hrun1, Hrun2.
  set (c1 := node_combinator <$> ops1). set (c2 := node_combinator <$> ops2).
  pose proof (lcs_eq_l_iff node_combinator DefaultLcsComparator ops1 ops2
                (fun a b out => DefaultLcsComparator_true ops1 ops2 a b out Hops1 Hops2)
                (fun a b => DefaultLcsComparator_false ops1 ops2 a b Hops1 Hops2)) as Hl.
  pose proof (lcs_eq_r_iff node_combinator DefaultLcsComparator ops1 ops2
                (fun a b out => DefaultLcsComparator_true ops1 ops2 a b out Hops1 Hops2)
                (fun a b => DefaultLcsComparator_false ops1 ops2 a b Hops1 Hops2)) as Hr.
  pose proof (lcs_sublist_l node_combinator DefaultLcsComparator ops1 ops2
                (fun a b out => DefaultLcsComparator_true ops1 ops2 a b out Hops1 Hops2)) as Hsub.
  fold c1 c2 in Hl, Hr.
  set (opsLcs := lcs DefaultLcsComparator ops1 ops2) in *.
  assert (HopsLcs : Forall (fun n => isCombinator n = true) opsLcs).
  { rewrite Forall_forall in Hops1 |- *. intros n Hn. apply Hops1.
    apply list_elem_of_In. apply list_elem_of_In in Hn.
    by eapply sublist_subseteq. }
  assert (Heq1 : nodes_equal (CollectionNode false opsLcs) (CollectionNode false ops1) = true
                 ↔ c1 `sublist_of` c2).
  { rewrite nodes_equal_operators by done. rewrite <- Hl. split; [|by intros ->].
    intros Hc. apply sublist_same_length; [done|].
    apply (f_equal length) in Hc. rewrite !length_fmap in Hc. lia. }
  assert (Heq2 : nodes_equal (CollectionNode false opsLcs) (CollectionNode false ops2) = true
                 ↔ c2 `sublist_of` c1).
  { rewrite nodes_equal_operators by done. exact Hr. }
  assert (Hlen1 : c1 `sublist_of` c2 → length ops1 ≤ length ops2).
  { intros Hs. apply sublist_length in Hs. unfold c1, c2 in Hs.
    by rewrite !length_fmap in Hs. }
  assert (Hlen2 : c2 `sublist_of` c1 → ¬ c1 `sublist_of` c2 → length ops2 < length ops1).
  { intros Hs Hn. pose proof (sublist_length _ _ Hs) as Hle. unfold c1, c2 in Hle.
    rewrite !length_fmap in Hle.
    destruct (decide (length ops2 = length ops1)) as [Heq|]; [|lia].
    exfalso. apply Hn. rewrite (sublist_same_length c2 c1 Hs); [done|].
    unfold c1, c2. rewrite !length_fmap. lia. }
  eexists ops1, ops2, rest1, rest2, _.
  split.
  { unfold mergeInitialOps. cbn [collection deref Outcome_bind].
    rewrite Hrun1, Hrun2. cbn [Outcome_bind]. fold opsLcs. reflexivity. }
  split; [done|]. split; [done|]. split; [done|]. split; [done|].
  split; [done|]. split; [done|]. split; [exact Hl|]. split; [exact Heq2|].
  destruct (nodes_equal (CollectionNode false opsLcs) (CollectionNode false ops1)) eqn:E1;
    destruct (nodes_equal (CollectionNode false opsLcs) (CollectionNode false ops2)) eqn:E2;
    cbn [orb negb].
  - assert (Hs1 : c1 `sublist_of` c2) by (by apply Heq1).
    assert (Hs2 : c2 `sublist_of` c1) by (by apply Heq2).
    split; [|split].
    + split; [|tauto]. destruct (_ <? _); discriminate.
    + intros _. split; [|by apply Hlen1].
      rewrite (proj2 (Nat.ltb_ge _ _)); [done|by apply Hlen1].
    + intros _ Hn. by destruct Hn.
  - assert (Hs1 : c1 `sublist_of` c2) by (by apply Heq1).
    split; [|split].
    + split; [|tauto]. destruct (_ <? _); discriminate.
    + intros _. split; [|by apply Hlen1].
      rewrite (proj2 (Nat.ltb_ge _ _)); [done|by apply Hlen1].
    + intros _ Hn. by destruct Hn.
  - assert (Hs2 : c2 `sublist_of` c1) by (by apply Heq2).
    assert (Hn1 : ¬ c1 `sublist_of` c2) by (rewrite <- Heq1; congruence).
    split; [|split].
    + split; [|tauto]. destruct (_ <? _); discriminate.
    + intros Hs1. by destruct Hn1.
    + intros _ _. split; [|by apply Hlen2].
      rewrite (proj2 (Nat.ltb_lt _ _)); [done|by apply Hlen2].
  - assert (Hn1 : ¬ c1 `sublist_of` c2) by (rewrite <- Heq1; congruence).
    assert (Hn2 : ¬ c2 `sublist_of` c1) by (rewrite <- Heq2; congruence).
    split; [|split].
    + done.
    + intros Hs1. by destruct Hn1.
    + intros Hs2. by destruct Hn2.
Qed.

End MergeInitialOpsFacts.

(** ** mergeFinalOps *)

Lemma bind_returns {A B : Type} (m : Outcome A) (k : A → Outcome B) (b : B) :
  Outcome_bind m k = Returns b → ∃ a, m = Returns a ∧ k a = Returns b.
Proof. destruct m; simpl; try discriminate. eauto. Qed.

Lemma bind_not_out_of_fuel {A B : Type} (m : Outcome A) (k : A → Outcome B) :
  m ≠ OutOfFuel → (∀ a, k a ≠ OutOfFuel) → Outcome_bind m k ≠ OutOfFuel.
Proof. destruct m; simpl; intros Hm Hk; first [done|apply Hk]. Qed.

Lemma deref_not_out_of_fuel {A : Type} (p : option A) : deref p ≠ OutOfFuel.
Proof. by destruct p. Qed.

Lemma back_not_out_of_fuel (l : list Node) : back l ≠ OutOfFuel.
Proof. unfold back. by destruct (list.last l). Qed.

Ltac not_out_of_fuel :=
  repeat first
    [ discriminate
    | apply deref_not_out_of_fuel
    | apply back_not_out_of_fuel
    | apply bind_not_out_of_fuel; [|intros ?]
    | match goal with
      | |- (if ?b then _ else _) ≠ OutOfFuel => destruct b
      | |- (match ?p with _ => _ end) ≠ OutOfFuel => destruct p
      end ].

Lemma back_returns (l : list Node) (x : Node) :
  back l = Returns x → l = pop_back l ++ [x].
Proof.
  unfold back, pop_back. destruct (list.last l) as [y|] eqn:Hl; [|discriminate].
  intros [= ->]. apply last_Some in Hl as [l' ->].
  by rewrite removelast_last.
Qed.

Lemma back_snoc (l : list Node) (x : Node) : back (l ++ [x]) = Returns x.
Proof. unfold back. by rewrite last_snoc. Qed.

Lemma pop_back_snoc (l : list Node) (x : Node) : pop_back (l ++ [x]) = l.
Proof. unfold pop_back. by rewrite removelast_last. Qed.

Lemma pop_back_length (l : list Node) (x : Node) :
  back l = Returns x → length l = S (length (pop_back l)).
Proof.
  intros Hb. rewrite (back_returns l x Hb) at 1. rewrite length_app. simpl. lia.
Qed.

Lemma pop_back_length_le (l : list Node) : length (pop_back l) ≤ length l.
Proof.
  unfold pop_back. induction l as [|x [|y l] IH]; simpl in *; lia.
Qed.

Section MergeFinalOpsFacts.
Context `{Ast}.

Lemma getAndRemoveFinalOps_length l rest ops :
  getAndRemoveFinalOps l [] = (rest, ops) → length l = length rest + length ops.
Proof.
  unfold getAndRemoveFinalOps.
  destruct (getAndRemoveInitialOps_spec (rev l) []) as (taken & r & Hrun & Hl & _).
  rewrite Hrun. simpl. intros [= <- <-].
  rewrite <- (length_rev l), Hl, length_app, length_rev. lia.
Qed.

Lemma getAndRemoveFinalOps_snoc l sel op :
  isCombinator sel = false → isCombinator op = true →
  getAndRemoveFinalOps (l ++ [sel; op]) [] = (l ++ [sel], [op]).
Proof.
  intros Hsel Hop. unfold getAndRemoveFinalOps.
  rewrite rev_app_distr. simpl. rewrite Hop. simpl. rewrite Hsel.
  simpl. by rewrite rev_involutive.
Qed.

Lemma mergeFinalOps_both_shrinks op1 op2 seq1 seq2 res seq1' seq2' res' :
  mergeFinalOps_both op1 op2 seq1 seq2 res = Returns (FinalOpsRecurse seq1' seq2' res') →
  length seq1' + length seq2' ≤ length seq1 + length seq2.
Proof.
  unfold mergeFinalOps_both. intros Hrun.
  apply bind_returns in Hrun as (sel1 & Hb1 & Hrun).
  apply bind_returns in Hrun as (sel2 & Hb2 & Hrun).
  apply pop_back_length in Hb1, Hb2.
  repeat match type of Hrun with
         | Outcome_bind _ _ = Returns _ => apply bind_returns in Hrun as (? & _ & Hrun)
         | (if ?b then _ else _) = Returns _ => destruct b
         | match ?p with Some _ => _ | None => _ end = Returns _ => destruct p
         | Returns _ = Returns _ => injection Hrun as <- <- <-
         end; try discriminate; rewrite ?length_app; simpl; lia.
Qed.

Lemma mergeFinalOps_one_shrinks op seq other res seq' other' res' :
  mergeFinalOps_one op seq other res = Returns (seq', other', res') →
  length seq' + length other' + 1 ≤ length seq + length other.
Proof.
  unfold mergeFinalOps_one. intros Hrun.
  apply bind_returns in Hrun as (o & Ho & Hrun).
  apply bind_returns in Hrun as (seqBack & Hb & Hrun).
  injection Hrun as <- <- <-.
  apply pop_back_length in Hb.
  assert (length o ≤ length other); [|lia].
  destruct (_ && _); [|by injection Ho as <-].
  repeat (apply bind_returns in Ho as (? & _ & Ho)).
  destruct (is_superselector_of _ _); injection Ho as <-; [apply pop_back_length_le|done].
Qed.

Lemma mergeFinalOps_step_shrinks seq1 seq2 res seq1' seq2' res' :
  mergeFinalOps_step seq1 seq2 res = Returns (FinalOpsRecurse seq1' seq2' res') →
  length seq1' + length seq2' + 2 ≤ length seq1 + length seq2.
Proof.
  unfold mergeFinalOps_step.
  destruct (getAndRemoveFinalOps seq1 []) as [l1 ops1] eqn:H1.
  destruct (getAndRemoveFinalOps seq2 []) as [l2 ops2] eqn:H2.
  apply getAndRemoveFinalOps_length in H1, H2.
  destruct ops1 as [|op1 ops1], ops2 as [|op2 ops2]; [discriminate| | |].
  - destruct (_ || _).
    { repeat match goal with |- context [if ?b then _ else _] => destruct b end; discriminate. }
    intros Hrun. apply bind_returns in Hrun as ([[? ?] ?] & Hone & Hrun).
    injection Hrun as <- <- <-. apply mergeFinalOps_one_shrinks in Hone.
    simpl in *. lia.
  - destruct (_ || _).
    { repeat match goal with |- context [if ?b then _ else _] => destruct b end; discriminate. }
    intros Hrun. apply bind_returns in Hrun as ([[? ?] ?] & Hone & Hrun).
    injection Hrun as <- <- <-. apply mergeFinalOps_one_shrinks in Hone.
    simpl in *. lia.
  - destruct (_ || _).
    { repeat match goal with |- context [if ?b then _ else _] => destruct b end; discriminate. }
    intros Hrun. apply mergeFinalOps_both_shrinks in Hrun. simpl in *. lia.
Qed.

Lemma mergeFinalOps_step_not_out_of_fuel seq1 seq2 res :
  mergeFinalOps_step seq1 seq2 res ≠ OutOfFuel.
Proof.
  unfold mergeFinalOps_step, mergeFinalOps_both, mergeFinalOps_one, unify_heads.
  destruct (getAndRemoveFinalOps seq1 []) as [l1 ops1].
  destruct (getAndRemoveFinalOps seq2 []) as [l2 ops2].
  destruct ops1 as [|op1 ops1], ops2 as [|op2 ops2]; not_out_of_fuel.
Qed.

(** Enough depth: the result does not depend on it, and it is not exhausted. *)
Lemma mergeFinalOps_rec_depth depth :
  ∀ depth' seq1 seq2 res,
    length seq1 + length seq2 < 2 * depth →
    length seq1 + length seq2 < 2 * depth' →
    mergeFinalOps_rec depth seq1 seq2 res = mergeFinalOps_rec depth' seq1 seq2 res
    ∧ mergeFinalOps_rec depth seq1 seq2 res ≠ OutOfFuel.
Proof.
  induction depth as [|depth IH]; intros depth' seq1 seq2 res Hd Hd'; [lia|].
  destruct depth' as [|depth']; [lia|]. simpl.
  destruct (mergeFinalOps_step seq1 seq2 res) as [[l1 l2 r|l1 l2 r]| | |] eqn:Hstep;
    simpl; try (split; [reflexivity|discriminate]).
  - apply mergeFinalOps_step_shrinks in Hstep.
    apply IH; lia.
  - exfalso. by apply (mergeFinalOps_step_not_out_of_fuel seq1 seq2 res).
Qed.

Lemma mergeFinalOps_rec_unfold seq1 seq2 res :
  mergeFinalOps_rec (S (length seq1 + length seq2)) seq1 seq2 res =
  do step <- mergeFinalOps_step seq1 seq2 res;
  match step with
  | FinalOpsReturn seq1 seq2 result => Returns (seq1, seq2, result)
  | FinalOpsRecurse seq1 seq2 res =>
      mergeFinalOps_rec (S (length seq1 + length seq2)) seq1 seq2 res
  end.
Proof.
  change (mergeFinalOps_rec (S (length seq1 + length seq2)) seq1 seq2 res)
    with (do step <- mergeFinalOps_step seq1 seq2 res;
          match step with
          | FinalOpsReturn seq1 seq2 result => Returns (seq1, seq2, result)
          | FinalOpsRecurse l1 l2 r =>
              mergeFinalOps_rec (length seq1 + length seq2) l1 l2 r
          end).
  destruct (mergeFinalOps_step seq1 seq2 res) as [[l1 l2 r|l1 l2 r]| | |] eqn:Hstep;
    try reflexivity.
  apply mergeFinalOps_step_shrinks in Hstep.
  cbn [Outcome_bind]. apply mergeFinalOps_rec_depth; lia.
Qed.

Lemma mergeFinalOps_total seq1 seq2 res :
  mergeFinalOps seq1 seq2 res ≠ OutOfFuel.
Proof.
  unfold mergeFinalOps.
  destruct (collection seq1) as [l1|]; [|done].
  destruct (collection seq2) as [l2|]; [|done].
  destruct (collection res) as [r|]; [|done]. cbn [deref Outcome_bind].
  destruct (mergeFinalOps_rec_depth (S (length l1 + length l2)) (S (length l1 + length l2))
              l1 l2 r) as [_ Hne]; [lia..|].
  destruct (mergeFinalOps_rec _ l1 l2 r) as [[[? ?] ?]| | |]; cbn [Outcome_bind]; congruence.
Qed.

End MergeFinalOpsFacts.

Section MergeFinalOpsClaim.
Context `{Ast}.

(** C2 (amended).  When both sequences end with [~], preceded by the
    compounds [sel1] and [sel2], [mergeFinalOps] goes on with the two
    sequences cut before these compounds and with [res] extended in front:
    - by [sel2 ~] when [sel1] is a superselector of [sel2], else by [sel1 ~]
      when [sel2] is a superselector of [sel1]: the pair emitted is the one
      of the covered (more specific) compound;
    - otherwise by one node holding the alternatives [sel1 ~ sel2 ~],
      [sel2 ~ sel1 ~] and, exactly when the unification of the two compounds
      exists, the unified compound followed by [~]. *)
Theorem mergeFinalOps_tilde_tilde (lf1 lf2 lfr g1 g2 k1 k2 : bool) (l1 l2 res : list Node)
    (s1 s2 : Complex_Selector) :
  let sel1 := SelectorNode g1 s1 in
  let sel2 := SelectorNode g2 s2 in
  let op1 := CombinatorNode k1 PRECEDES in
  let op2 := CombinatorNode k2 PRECEDES in
  let continue_with (pushed : list Node) :=
    mergeFinalOps (CollectionNode lf1 l1) (CollectionNode lf2 l2)
                  (CollectionNode lfr (pushed ++ res)) in
  mergeFinalOps (CollectionNode lf1 (l1 ++ [sel1; op1]))
                (CollectionNode lf2 (l2 ++ [sel2; op2]))
                (CollectionNode lfr res)
  = if is_superselector_of s1 s2 then continue_with [sel2; op1]
    else if is_superselector_of s2 s1 then continue_with [sel1; op1]
    else match head s1, head s2 with
         | Some h1, Some h2 =>
             continue_with [tilde_permutations sel1 sel2 s1 (unify_with h1 h2)]
         | _, _ => Undefined
         end.
Proof.
  intros sel1 sel2 op1 op2 continue_with.
  unfold continue_with, mergeFinalOps. cbn [collection deref Outcome_bind got_line_feed].
  rewrite mergeFinalOps_rec_unfold.
  unfold mergeFinalOps_step at 1.
  rewrite !getAndRemoveFinalOps_snoc by done.
  cbn [length Nat.ltb Nat.leb orb].
  unfold mergeFinalOps_both.
  rewrite !back_snoc, !pop_back_snoc.
  cbn [Outcome_bind node_combinator op1 op2 sel1 sel2 selector deref].
  rewrite !bool_decide_eq_true_2 by done. cbn [andb].
  destruct (is_superselector_of s1 s2); [reflexivity|].
  destruct (is_superselector_of s2 s1); [reflexivity|].
  unfold unify_heads.
  destruct (head s1) as [h1|]; [|reflexivity].
  destruct (head s2) as [h2|]; [|reflexivity].
  cbn [deref Outcome_bind]. unfold mergedPerm, tilde_permutations.
  destruct (unify_with h1 h2); reflexivity.
Qed.

End MergeFinalOpsClaim.

(** *** The operator merges on concrete inputs *)

Module MergeExamples.
Import Examples.
#[local] Existing Instance SpecModel.ast.

(** [.a ~] merged with [.a.b ~]: [.a] is a superselector of [.a.b], and the
    pair emitted is [.a.b ~], the pair of the covered compound; [.a.b] is not
    a superselector of [.a]. *)
Lemma mergeFinalOps_tilde_tilde_counterexample :
  mergeFinalOps (coll [SpecModel.sel [a]; tilde]) (coll [SpecModel.sel [a; b]; tilde]) (coll [])
  = Returns (coll [], coll [], coll [SpecModel.sel [a; b]; tilde])
  ∧ is_superselector_of (SpecModel.simple_complex [a]) (SpecModel.simple_complex [a; b]) = true
  ∧ is_superselector_of (SpecModel.simple_complex [a; b]) (SpecModel.simple_complex [a]) = false.
Proof. vm_compute. done. Qed.

(** [.a ~] merged with [.b ~]: three alternatives, the last one unified. *)
Example mergeFinalOps_three_permutations :
  mergeFinalOps (coll [SpecModel.sel [a]; tilde]) (coll [SpecModel.sel [b]; tilde]) (coll [])
  = Returns (coll [], coll [],
             coll [coll [coll [SpecModel.sel [a]; tilde; SpecModel.sel [b]; tilde];
                         coll [SpecModel.sel [b]; tilde; SpecModel.sel [a]; tilde];
                         coll [SpecModel.sel [a; b]; tilde]]]).
Proof. vm_compute. done. Qed.

(** [> .a] against [+ .a.b]: neither operator sequence is a subsequence of
    the other.  [> .a] against [> + .a.b]: the longer sequence is kept. *)
Example mergeInitialOps_examples :
  mergeInitialOps (coll [child; SpecModel.sel [a]]) (coll [plus; SpecModel.sel [a; b]])
  = Returns (coll [SpecModel.sel [a]], coll [SpecModel.sel [a; b]], createNil)
  ∧ mergeInitialOps (coll [child; SpecModel.sel [a]]) (coll [child; plus; SpecModel.sel [a; b]])
    = Returns (coll [SpecModel.sel [a]], coll [SpecModel.sel [a; b]], coll [child; plus]).
Proof. vm_compute. done. Qed.

End MergeExamples.

(** ** weave *)

Section WeaveFacts.
Context `{Ast}.

Lemma weave_befores_nil befores current last_current tempResult before :
  weave_calls befores current last_current tempResult before →
  subweave before current = Returns createNil →
  weave_befores befores current last_current tempResult = Returns None.
Proof.
  intros Hcalls Hnil.
  induction Hcalls as [before rest current last_current tempResult
                      |earlier rest current last_current tempResult sub subs tempResult' before
                         Hsub Hnn Hsubs Hpush _ IH]; simpl.
  - by rewrite Hnil.
  - rewrite Hsub. simpl. rewrite Hnn, Hsubs. simpl. rewrite Hpush. simpl. by apply IH.
Qed.

Lemma weave_afters_early_return afters befores afterFront befores' :
  weave_starts afters befores afterFront befores' →
  weave_round befores' afterFront = Returns None →
  weave_afters afters befores = Returns createCollection.
Proof.
  intros Hstarts Hround.
  induction Hstarts as [afterFront afters befores
                       |afterFront afters befores befores' later befores'' Hr _ IH]; simpl.
  - by rewrite Hround.
  - rewrite Hr. simpl. by apply IH.
Qed.

(** C3.  If a call of [subweave] that [weave] makes while building the
    prefixes returns nil, [weave] returns the empty collection. *)
Theorem weave_empty_when_subweave_rejects (path before current : Node) :
  subweave_called path before current →
  subweave before current = Returns createNil →
  weave path = Returns createCollection.
Proof.
  intros (afters & afterFront & befores & front_children & currentBack
          & Hpath & Hstarts & Hfront & Hne & Hback & -> & Hcalls) Hnil.
  unfold weave. rewrite Hpath. simpl.
  apply (weave_afters_early_return afters _ afterFront befores Hstarts).
  unfold weave_round. rewrite Hfront. simpl.
  destruct front_children as [|x l]; [done|].
  rewrite Hback. simpl.
  by apply (weave_befores_nil befores _ _ [] before).
Qed.

End WeaveFacts.

Module WeaveExamples.
Import Examples.
#[local] Existing Instance SpecModel.ast.

(** The path [> .a] then [+ .b .c]: the first round leaves the prefix
    [> .a]; in the second round [subweave(> .a, + .b)] is rejected by the
    merge of the initial operators, and [weave] returns the empty list. *)
Lemma weave_empty_when_subweave_rejects_witness :
  weave weave_path = Returns createCollection.
Proof.
  apply (weave_empty_when_subweave_rejects weave_path
           (coll [child; SpecModel.sel [a]]) (coll [plus; SpecModel.sel [b]])).
  - exists [coll [child; SpecModel.sel [a]]; coll [plus; SpecModel.sel [b]; SpecModel.sel [c]]],
      (coll [plus; SpecModel.sel [b]; SpecModel.sel [c]]),
      [coll [child; SpecModel.sel [a]]],
      [plus; SpecModel.sel [b]; SpecModel.sel [c]],
      (SpecModel.sel [c]).
    split; [reflexivity|]. split.
    { eapply weave_starts_later; [vm_compute; reflexivity|apply weave_starts_here]. }
    split; [reflexivity|]. split; [discriminate|]. split; [reflexivity|].
    split; [reflexivity|]. apply weave_calls_here.
  - vm_compute. reflexivity.
Defined.

End WeaveExamples.

(** ** The functions the driver calls are not fuel-bounded *)

Section FuelFacts.
Context `{Ast}.

Ltac fuel_step :=
  first
    [ discriminate
    | apply nodeToComplexSelector_fuel
    | apply deref_not_out_of_fuel
    | apply back_not_out_of_fuel
    | apply bind_not_out_of_fuel; [|intros ?]
    | match goal with
      | |- (if ?b then _ else _) ≠ OutOfFuel => destruct b
      | |- (let '(_, _) := ?p in _) ≠ OutOfFuel => destruct p
      | |- (match ?p with _ => _ end) ≠ OutOfFuel => destruct p
      end ].

Lemma front_not_out_of_fuel (l : list Node) : front l ≠ OutOfFuel.
Proof. by destruct l. Qed.

Lemma parentSuperselector_fuel one two : parentSuperselector one two ≠ OutOfFuel.
Proof. unfold parentSuperselector. repeat fuel_step. Qed.

Lemma ParentSuperselectorChunker_fuel mLcs seq : ParentSuperselectorChunker mLcs seq ≠ OutOfFuel.
Proof.
  unfold ParentSuperselectorChunker.
  repeat first [apply parentSuperselector_fuel | apply front_not_out_of_fuel | fuel_step].
Qed.

Lemma SubweaveEmptyChunker_fuel seq : SubweaveEmptyChunker seq ≠ OutOfFuel.
Proof. unfold SubweaveEmptyChunker. repeat fuel_step. Qed.

Lemma chunks_seq1_fuel chunker lf l1 chunk1 :
  (∀ seq, chunker seq ≠ OutOfFuel) → chunks_seq1 chunker lf l1 chunk1 ≠ OutOfFuel.
Proof.
  intros Hc. revert chunk1. induction l1 as [|x rest IH]; intros chunk1; [done|].
  cbn [chunks_seq1]. apply bind_not_out_of_fuel; [apply Hc|].
  intros [|]; [done|apply IH].
Qed.

Lemma chunks_seq2_fuel chunker lf l2 chunk2 :
  (∀ seq, chunker seq ≠ OutOfFuel) → chunks_seq2 chunker lf l2 chunk2 ≠ OutOfFuel.
Proof.
  intros Hc. revert chunk2. induction l2 as [|x rest IH]; intros chunk2.
  - cbn [chunks_seq2]. apply bind_not_out_of_fuel; [apply Hc|]. by intros [|].
  - cbn [chunks_seq2]. apply bind_not_out_of_fuel; [apply Hc|].
    intros [|]; [done|apply IH].
Qed.

Lemma chunks_fuel chunker seq1 seq2 :
  (∀ seq, chunker seq ≠ OutOfFuel) → chunks chunker seq1 seq2 ≠ OutOfFuel.
Proof.
  intros Hc. unfold chunks.
  repeat first [by apply chunks_seq1_fuel | by apply chunks_seq2_fuel | fuel_step].
Qed.

Lemma mergeInitialOps_fuel seq1 seq2 : mergeInitialOps seq1 seq2 ≠ OutOfFuel.
Proof. unfold mergeInitialOps. repeat fuel_step. Qed.

Lemma groupSelectors_fuel seq : groupSelectors seq ≠ OutOfFuel.
Proof. unfold groupSelectors. repeat fuel_step. Qed.

Lemma nodeToComplexSelectorDeque_fuel children :
  nodeToComplexSelectorDeque children ≠ OutOfFuel.
Proof.
  induction children as [|child rest IH]; [done|].
  cbn [nodeToComplexSelectorDeque]. repeat first [apply IH | fuel_step].
Qed.

Lemma paths_loop_fuel arrs loopStart : paths_loop arrs loopStart ≠ OutOfFuel.
Proof.
  revert loopStart. induction arrs as [|arr rest IH]; intros loopStart; [done|].
  cbn [paths_loop]. repeat first [apply IH | fuel_step].
Qed.

Lemma paths_fuel arrs : paths arrs ≠ OutOfFuel.
Proof. unfold paths. repeat first [apply paths_loop_fuel | fuel_step]. Qed.

Lemma subweave_lcs_loop_fuel seqLcs groupSeq1 groupSeq2 diff :
  subweave_lcs_loop seqLcs groupSeq1 groupSeq2 diff ≠ OutOfFuel.
Proof.
  revert groupSeq1 groupSeq2 diff.
  induction seqLcs as [|lcsFront rest IH]; intros groupSeq1 groupSeq2 diff; [done|].
  cbn [subweave_lcs_loop]. apply bind_not_out_of_fuel.
  - apply chunks_fuel. intros seq. apply ParentSuperselectorChunker_fuel.
  - intros [[g1 g2] chunksResult]. repeat first [apply IH | fuel_step].
Qed.

Lemma subweave_merge_fuel l1 l2 : subweave_merge l1 l2 ≠ OutOfFuel.
Proof.
  unfold subweave_merge.
  apply bind_not_out_of_fuel; [apply mergeInitialOps_fuel|]. intros [[seq1 seq2] init].
  destruct (isNil init); [done|].
  apply bind_not_out_of_fuel; [apply mergeFinalOps_total|]. intros [[seq1' seq2'] fin].
  destruct (isNil fin); [done|].
  repeat first
    [ apply groupSelectors_fuel
    | apply nodeToComplexSelectorDeque_fuel
    | apply subweave_lcs_loop_fuel
    | apply paths_fuel
    | apply chunks_fuel; intros ?; apply SubweaveEmptyChunker_fuel
    | fuel_step ].
Qed.

Lemma subweave_fuel one two : subweave one two ≠ OutOfFuel.
Proof. unfold subweave. repeat first [apply subweave_merge_fuel | fuel_step]. Qed.

Lemma plus_fuel this rhs : plus this rhs ≠ OutOfFuel.
Proof. unfold plus. repeat fuel_step. Qed.

Lemma weave_push_fuel sub last_current tempResult :
  weave_push sub last_current tempResult ≠ OutOfFuel.
Proof.
  revert tempResult. induction sub as [|seqs rest IH]; intros tempResult; [done|].
  cbn [weave_push]. repeat first [apply IH | apply plus_fuel | fuel_step].
Qed.

Lemma weave_befores_fuel befores current last_current tempResult :
  weave_befores befores current last_current tempResult ≠ OutOfFuel.
Proof.
  revert tempResult. induction befores as [|before rest IH]; intros tempResult; [done|].
  cbn [weave_befores].
  repeat first [apply IH | apply subweave_fuel | apply weave_push_fuel | fuel_step].
Qed.

Lemma weave_round_fuel befores afterFront : weave_round befores afterFront ≠ OutOfFuel.
Proof. unfold weave_round. repeat first [apply weave_befores_fuel | fuel_step]. Qed.

Lemma weave_afters_fuel afters befores : weave_afters afters befores ≠ OutOfFuel.
Proof.
  revert befores. induction afters as [|afterFront rest IH]; intros befores; [done|].
  cbn [weave_afters]. repeat first [apply IH | apply weave_round_fuel | fuel_step].
Qed.

Lemma weave_fuel path : weave path ≠ OutOfFuel.
Proof. unfold weave. repeat first [apply weave_afters_fuel | fuel_step]. Qed.

Lemma trim_seqs2_fuel maxSpec pSeq1 seqs2 : trim_seqs2 maxSpec pSeq1 seqs2 ≠ OutOfFuel.
Proof.
  induction seqs2 as [|seq2 rest IH]; [done|].
  cbn [trim_seqs2]. repeat first [apply IH | fuel_step].
Qed.

Lemma trim_result_fuel seqs1 maxSpec pSeq1 result :
  trim_result seqs1 maxSpec pSeq1 result ≠ OutOfFuel.
Proof.
  induction result as [|[h2 seqs2] rest IH]; [done|].
  cbn [trim_result]. repeat first [apply IH | apply trim_seqs2_fuel | fuel_step].
Qed.

Lemma trim_seqs1_fuel isReplace seqs1 l1 result tempResult :
  trim_seqs1 isReplace seqs1 l1 result tempResult ≠ OutOfFuel.
Proof.
  revert tempResult. induction l1 as [|seq1 rest IH]; intros tempResult; [done|].
  cbn [trim_seqs1]. repeat first [apply IH | apply trim_result_fuel | fuel_step].
Qed.

Lemma trim_seqses_fuel isReplace groups toTrimIndex result :
  trim_seqses isReplace groups toTrimIndex result ≠ OutOfFuel.
Proof.
  revert toTrimIndex result.
  induction groups as [|seqs1 rest IH]; intros toTrimIndex result; [done|].
  cbn [trim_seqses]. repeat first [apply IH | apply trim_seqs1_fuel | fuel_step].
Qed.

Lemma trim_fuel seqses isReplace : trim seqses isReplace ≠ OutOfFuel.
Proof. unfold trim. repeat first [apply trim_seqses_fuel | fuel_step]. Qed.

End FuelFacts.

(** ** The seen set of the extend driver *)

Lemma runs_ret {A : Type} store (Q : A → Prop) (a : A) : Q a → runs store Q (St_ret a).
Proof. intros Ha heap Hheap. done. Qed.

Lemma runs_lift {A : Type} store (m : Outcome A) :
  m ≠ OutOfFuel → runs store anything (St_lift m).
Proof. intros Hm heap Hheap. unfold St_lift. by destruct m. Qed.

Lemma runs_bind {A B : Type} store (Q : A → Prop) (R : B → Prop) (m : St A) (k : A → St B) :
  runs store Q m → (∀ a, Q a → runs store R (k a)) → runs store R (St_bind m k).
Proof.
  intros Hm Hk heap Hheap. unfold St_bind. specialize (Hm heap Hheap).
  destruct (m heap) as [[a heap']| | |]; [|done..].
  destruct Hm as [Hheap' Ha]. cbn [Outcome_bind fst snd]. by apply Hk.
Qed.

Lemma runs_weaken {A : Type} store (Q R : A → Prop) (m : St A) :
  runs store Q m → (∀ a, Q a → R a) → runs store R m.
Proof.
  intros Hm HQR heap Hheap. specialize (Hm heap Hheap).
  destruct (m heap) as [[a heap']| | |]; [|done..].
  destruct Hm as [Hheap' Ha]. split; [done|by apply HQR].
Qed.

Lemma runs_not_out_of_fuel {A : Type} (Q : A → Prop) (m : St A) heap :
  runs (store_elements heap) Q m → m heap ≠ OutOfFuel.
Proof. intros Hm Hout. specialize (Hm heap eq_refl). by rewrite Hout in Hm. Qed.

(** *** Subsequences *)

Lemma sublists_sublist {A : Type} (g l : list A) : g `sublist_of` l → g ∈ sublists l.
Proof.
  induction 1 as [|x g l _ IH|x g l _ IH]; cbn [sublists].
  - by left.
  - apply elem_of_app. right. by apply list_elem_of_fmap_2.
  - apply elem_of_app. by left.
Qed.

Lemma length_sublists {A : Type} (l : list A) : length (sublists l) = 2 ^ length l.
Proof.
  induction l as [|x l IH]; [done|].
  cbn [sublists length]. rewrite length_app, length_fmap, IH, Nat.pow_succ_r'. lia.
Qed.

Lemma filter_sublist {A : Type} (f : A → bool) (l : list A) : List.filter f l `sublist_of` l.
Proof.
  induction l as [|x l IH]; [done|]. cbn [List.filter].
  destruct (f x); by constructor.
Qed.

Lemma filter_length_le {A : Type} (f : A → bool) (l : list A) :
  length (List.filter f l) ≤ length l.
Proof. apply sublist_length, filter_sublist. Qed.

Lemma filter_length_mono {A : Type} (f g : A → bool) (l : list A) :
  (∀ y, g y = true → f y = true) → length (List.filter g l) ≤ length (List.filter f l).
Proof.
  intros Hgf. induction l as [|y l IH]; [done|]. cbn [List.filter].
  destruct (g y) eqn:Hg.
  - rewrite (Hgf y Hg). cbn [length]. lia.
  - destruct (f y); cbn [length]; lia.
Qed.

Lemma filter_length_lt {A : Type} (f g : A → bool) (l : list A) (x : A) :
  x ∈ l → (∀ y, g y = true → f y = true) → f x = true → g x = false →
  length (List.filter g l) < length (List.filter f l).
Proof.
  intros Hx Hgf Hfx Hgx. induction Hx as [x l|x y l Hx IH]; [|specialize (IH Hfx Hgx)].
  - cbn [List.filter]. rewrite Hfx, Hgx. cbn [length].
    pose proof (filter_length_mono f g l Hgf). by apply Nat.lt_succ_r.
  - cbn [List.filter]. destruct (g y) eqn:Hg.
    + rewrite (Hgf y Hg). cbn [length]. lia.
    + destruct (f y); cbn [length]; lia.
Qed.

Section SeenFacts.
Context `{Ast}.

Lemma seen_contains_insert (c : Compound_Selector) (seen : Seen) :
  seen_contains c (seen_insert c seen) = true.
Proof. unfold seen_contains, seen_insert. cbn [existsb]. by rewrite Compound_lt_irrefl. Qed.

Lemma seen_contains_mono (c x : Compound_Selector) (seen : Seen) :
  seen_contains c seen = true → seen_contains c (seen_insert x seen) = true.
Proof.
  unfold seen_contains, seen_insert. cbn [existsb]. intros ->. apply orb_true_r.
Qed.

End SeenFacts.

Section DriverFacts.
Context `{Ast} (subset_map : ExtensionSubsetMap) (store : list (list Simple_Selector)).

Lemma unseen_groups_le (seen : Seen) : unseen_groups subset_map store seen ≤ 2 ^ length subset_map.
Proof.
  unfold unseen_groups. etrans; [apply filter_length_le|].
  rewrite length_sublists. unfold values. by rewrite length_fmap.
Qed.

Lemma unseen_groups_insert (group : list ExtensionPair) (seen : Seen) :
  group `sublist_of` values subset_map →
  seen_contains (composite_extendee store group emptyCompound) seen = false →
  unseen_groups subset_map store (seen_insert (composite_extendee store group emptyCompound) seen)
  < unseen_groups subset_map store seen.
Proof.
  intros Hgroup Hunseen. unfold unseen_groups.
  apply (filter_length_lt _ _ _ group).
  - by apply sublists_sublist.
  - intros g Hg. apply negb_true_iff. apply negb_true_iff in Hg.
    destruct (seen_contains (composite_extendee store g emptyCompound) seen) eqn:Hs; [|done].
    by rewrite seen_contains_mono in Hg.
  - by rewrite Hunseen.
  - by rewrite seen_contains_insert.
Qed.

Lemma get_v_sublist (query : list string) : get_v subset_map query `sublist_of` values subset_map.
Proof. unfold get_v, values. apply fmap_sublist, filter_sublist. Qed.

Lemma extender_keys_snd entries keyed :
  extender_keys entries = Returns keyed → snd <$> keyed = entries.
Proof.
  revert keyed. induction entries as [|[[pSelector|] extendee] rest IH]; intros keyed.
  - by intros [= <-].
  - cbn [extender_keys fst deref Outcome_bind].
    destruct (extender_keys rest) as [keyed'| | |]; try discriminate.
    cbn [Outcome_bind]. intros [= <-]. cbn [fmap list_fmap snd]. by rewrite (IH keyed').
  - discriminate.
Qed.

Lemma group_by_to_a_sublist entries arr :
  group_by_to_a entries = Returns arr →
  Forall (fun groupedPair => groupedPair.2 `sublist_of` entries) arr.
Proof.
  unfold group_by_to_a.
  destruct (extender_keys entries) as [keyed| | |] eqn:Hkeyed; try discriminate.
  cbn [Outcome_bind]. intros [= <-]. apply extender_keys_snd in Hkeyed as <-.
  apply Forall_fmap, Forall_true. intros key. cbn [snd].
  apply fmap_sublist, filter_sublist.
Qed.

Lemma group_by_to_a_fuel entries : group_by_to_a entries ≠ OutOfFuel.
Proof.
  unfold group_by_to_a.
  assert (Hkeys : extender_keys entries ≠ OutOfFuel).
  { induction entries as [|[[pSelector|] extendee] rest IH]; [done| |done].
    cbn [extender_keys fst deref Outcome_bind].
    by destruct (extender_keys rest). }
  by destruct (extender_keys entries).
Qed.

Lemma store_elements_insert heap address pCompound :
  heap !! address = Some pCompound →
  store_elements (<[address := set_extended pCompound]> heap) = store_elements heap.
Proof.
  intros Hlookup. unfold store_elements, Heap in *. rewrite list_fmap_insert.
  apply list_insert_id. rewrite list_lookup_fmap, Hlookup. by destruct pCompound.
Qed.

Lemma extend_group_sels_runs group pSels :
  runs store (fun p => p = composite_extendee store group pSels)
       (extend_group_sels group pSels).
Proof.
  revert pSels. induction group as [|[extender [address|]] rest IH]; intros pSels heap Hheap;
    [done| |done].
  cbn [extend_group_sels snd deref Outcome_bind].
  destruct (heap !! address) as [pCompound|] eqn:Hlookup; [|done].
  cbn [deref Outcome_bind composite_extendee foldl snd mbind option_bind].
  assert (Hstore : store !! address = Some (elements pCompound)).
  { rewrite <- Hheap. unfold store_elements, Heap in *.
    by rewrite list_lookup_fmap, Hlookup. }
  rewrite Hstore. cbn [default].
  apply IH. destruct (elements pCompound); [done|].
  by rewrite store_elements_insert.
Qed.

Lemma extend_group_runs pSelector groupedPair :
  groupedPair.2 `sublist_of` values subset_map →
  runs store (fun pushed => ∀ p, pushed = Some p → holds_composite subset_map store p)
       (extend_group pSelector groupedPair).
Proof.
  intros Hgroup. unfold extend_group.
  eapply runs_bind; [apply extend_group_sels_runs|].
  intros pSels ->. cbn zeta.
  destruct (unify_with _ _) as [pUnifiedSelector|]; [|by apply runs_ret].
  destruct (length (elements pUnifiedSelector) =? 0); [by apply runs_ret|].
  apply runs_ret. intros p [= <-]. by exists groupedPair.2.
Qed.

Lemma extend_groups_runs pSelector arr holder :
  Forall (fun groupedPair => groupedPair.2 `sublist_of` values subset_map) arr →
  Forall (holds_composite subset_map store) holder →
  runs store (Forall (holds_composite subset_map store)) (extend_groups pSelector arr holder).
Proof.
  intros Harr. revert holder. induction Harr as [|groupedPair rest Hgroup _ IH];
    intros holder Hholder.
  - by apply runs_ret.
  - cbn [extend_groups]. eapply runs_bind; [by apply extend_group_runs|].
    intros [p|] Hp; apply IH; [|done].
    apply Forall_app. split; [done|]. constructor; [by apply Hp|constructor].
Qed.

End DriverFacts.

Section RecursionFacts.
Context `{Ast} (subset_map : ExtensionSubsetMap) (store : list (list Simple_Selector)).

Lemma extend_holder_runs bound recurse holder seen isReplace extendedSelectors :
  runs_below subset_map store bound recurse →
  unseen_groups subset_map store seen ≤ bound →
  Forall (holds_composite subset_map store) holder →
  runs store anything (extend_holder recurse holder seen isReplace extendedSelectors).
Proof.
  intros Hrec Hseen Hholder. revert extendedSelectors.
  induction Hholder as [|[pSels pNewSelector] rest [group [Hgroup Hsels]] _ IH];
    intros extendedSelectors.
  - by apply runs_ret.
  - cbn [extend_holder]. cbn [fst] in Hsels.
    destruct (seen_contains pSels seen) eqn:Hunseen; [apply IH|].
    eapply runs_bind.
    + apply Hrec. subst pSels.
      pose proof (unseen_groups_insert subset_map store group seen Hgroup Hunseen). lia.
    + intros recurseExtendedSelectors _.
      eapply runs_bind; [apply runs_lift, deref_not_out_of_fuel|].
      intros recursed _. apply IH.
Qed.

Lemma extendCompoundSelector_with_runs bound recurse pSelector seen isReplace :
  runs_below subset_map store bound recurse →
  unseen_groups subset_map store seen ≤ bound →
  runs store anything (extendCompoundSelector_with subset_map recurse pSelector seen isReplace).
Proof.
  intros Hrec Hseen. unfold extendCompoundSelector_with.
  eapply runs_bind; [apply runs_lift, deref_not_out_of_fuel|]. intros pSel _.
  intros heap Hheap. unfold St_bind at 1, St_lift.
  destruct (group_by_to_a _) as [arr| | |] eqn:Harr; [|done|done|].
  - cbn [Outcome_bind fst snd]. revert heap Hheap.
    change (runs store anything
              (dos holder <- extend_groups pSel arr [];
               dos extendedSelectors <- extend_holder recurse holder seen isReplace [];
               St_ret (CollectionNode false extendedSelectors))).
    eapply runs_bind.
    + apply extend_groups_runs; [|constructor].
      apply group_by_to_a_sublist in Harr.
      eapply list.Forall_impl; [exact Harr|]. intros groupedPair Hsub.
      etrans; [exact Hsub|apply get_v_sublist].
    + intros holder Hholder.
      eapply runs_bind; [by eapply extend_holder_runs|].
      intros extendedSelectors _. by apply runs_ret.
  - by apply group_by_to_a_fuel in Harr.
Qed.

Lemma extension_is_superselector_fuel extended pJustCurrentCompoundSelector :
  extension_is_superselector extended pJustCurrentCompoundSelector ≠ OutOfFuel.
Proof.
  induction extended as [|childNode rest IH]; [done|].
  cbn [extension_is_superselector].
  apply bind_not_out_of_fuel; [apply nodeToComplexSelector_fuel|].
  intros pExtensionSelector. by destruct (is_superselector_of _ _).
Qed.

Lemma extend_node_runs extendCompound pComplexSelector sseqOrOp seen isReplace isOriginal :
  compound_runs store seen extendCompound →
  runs store anything
       (extend_node extendCompound pComplexSelector sseqOrOp seen isReplace isOriginal).
Proof.
  intros Hcompound. unfold extend_node.
  destruct (negb (isSelector sseqOrOp)); [by apply runs_ret|].
  eapply runs_bind; [apply runs_lift, deref_not_out_of_fuel|]. intros sel _.
  eapply runs_bind; [apply Hcompound|]. intros extended _.
  eapply runs_bind; [apply runs_lift, deref_not_out_of_fuel|]. intros children _.
  cbn zeta.
  eapply runs_bind; [apply runs_lift, extension_is_superselector_fuel|].
  intros [|] _; by apply runs_ret.
Qed.

Lemma extend_nodes_runs extendCompound pComplexSelector nodes seen isReplace isOriginal
    extendedNotExpanded :
  compound_runs store seen extendCompound →
  runs store anything
       (extend_nodes extendCompound pComplexSelector nodes seen isReplace isOriginal
                     extendedNotExpanded).
Proof.
  intros Hcompound. revert extendedNotExpanded.
  induction nodes as [|sseqOrOp rest IH]; intros extendedNotExpanded.
  - by apply runs_ret.
  - cbn [extend_nodes]. eapply runs_bind; [by apply extend_node_runs|].
    intros pushed _. apply IH.
Qed.

Lemma weave_paths_fuel paths weaves : weave_paths paths weaves ≠ OutOfFuel.
Proof.
  revert weaves. induction paths as [|path rest IH]; intros weaves; [done|].
  cbn [weave_paths]. apply bind_not_out_of_fuel; [apply weave_fuel|].
  intros weaved. apply IH.
Qed.

Lemma extendComplexSelector_with_runs extendCompound pComplexSelector seen isReplace isOriginal :
  compound_runs store seen extendCompound →
  runs store anything
       (extendComplexSelector_with extendCompound pComplexSelector seen isReplace isOriginal).
Proof.
  intros Hcompound. unfold extendComplexSelector_with. cbn zeta.
  eapply runs_bind; [apply runs_lift, deref_not_out_of_fuel|]. intros nodes _.
  eapply runs_bind; [by apply extend_nodes_runs|]. intros extendedNotExpanded _.
  apply runs_lift.
  apply bind_not_out_of_fuel; [apply paths_fuel|]. intros paths.
  apply bind_not_out_of_fuel; [apply deref_not_out_of_fuel|]. intros pathsChildren.
  apply bind_not_out_of_fuel; [apply weave_paths_fuel|]. intros weaves.
  apply bind_not_out_of_fuel; [apply trim_fuel|]. done.
Qed.

Lemma extendComplexSelector_rec_runs depth :
  runs_below subset_map store depth (extendComplexSelector_rec subset_map depth).
Proof.
  induction depth as [|depth IH]; intros pNewSelector seen isReplace isOriginal Hseen; [lia|].
  cbn [extendComplexSelector_rec].
  apply extendComplexSelector_with_runs. intros pSelector isReplace'.
  apply (extendCompoundSelector_with_runs depth); [exact IH|lia].
Qed.

End RecursionFacts.

Section SeenGuard.
Context `{Ast} (subset_map : ExtensionSubsetMap).

Lemma extend_holder_skips_seen recurse holder seen isReplace extendedSelectors heap :
  extend_holder recurse holder seen isReplace extendedSelectors heap
  = extend_holder recurse (List.filter (fun pushed => negb (seen_contains pushed.1 seen)) holder)
                  seen isReplace extendedSelectors heap.
Proof.
  revert extendedSelectors heap. induction holder as [|[pSels pNewSelector] rest IH];
    intros extendedSelectors heap; [done|].
  cbn [extend_holder List.filter fst].
  destruct (seen_contains pSels seen) eqn:Hseen; cbn [negb]; [apply IH|].
  cbn [extend_holder]. rewrite Hseen. unfold St_bind.
  destruct (recurse _ _ _ _ heap) as [[r heap']| | |]; [|done..].
  cbn [Outcome_bind fst snd]. unfold St_lift.
  destruct (deref (collection r)) as [recursed| | |]; [|done..].
  cbn [Outcome_bind fst snd]. apply IH.
Qed.

Lemma extend_holder_calls recurse1 recurse2 holder seen isReplace extendedSelectors heap :
  (∀ pSels pNewSelector heap',
     (pSels, pNewSelector) ∈ holder → seen_contains pSels seen = false →
     recurse1 pNewSelector (seen_insert pSels seen) isReplace false heap'
     = recurse2 pNewSelector (seen_insert pSels seen) isReplace false heap') →
  extend_holder recurse1 holder seen isReplace extendedSelectors heap
  = extend_holder recurse2 holder seen isReplace extendedSelectors heap.
Proof.
  revert extendedSelectors heap. induction holder as [|[pSels pNewSelector] rest IH];
    intros extendedSelectors heap Hcalls; [done|].
  assert (Hrest : ∀ pSels pNewSelector heap',
            (pSels, pNewSelector) ∈ rest → seen_contains pSels seen = false →
            recurse1 pNewSelector (seen_insert pSels seen) isReplace false heap'
            = recurse2 pNewSelector (seen_insert pSels seen) isReplace false heap').
  { intros p q heap' Hin. apply Hcalls. by right. }
  cbn [extend_holder].
  destruct (seen_contains pSels seen) eqn:Hseen; [by apply IH|].
  unfold St_bind. rewrite (Hcalls pSels pNewSelector heap) by (done || by left).
  destruct (recurse2 _ _ _ _ heap) as [[r heap']| | |]; [|done..].
  cbn [Outcome_bind fst snd]. unfold St_lift.
  destruct (deref (collection r)) as [recursed| | |]; [|done..].
  cbn [Outcome_bind fst snd]. by apply IH.
Qed.

(** C4.  In the second loop of [extendCompoundSelector], a pair of [holder]
    whose composite extendee [pSels] is in [seen] contributes nothing: the
    loop gives what it gives without these pairs.  The loop calls
    [extendComplexSelector] only for a pair whose [pSels] is not in [seen],
    with the new selector of the pair, [seen] extended with [pSels], and
    [isOriginal] false: two functions that agree on these calls give the
    same loop.  Consequently the mutual recursion ends, for every subset
    map, selector, set and store: neither function runs out of the depth
    [2 ^ length subset_map] that the number of groups of entries allows. *)
Theorem extendCompoundSelector_seen_guard :
  (∀ recurse holder seen isReplace extendedSelectors heap,
     extend_holder recurse holder seen isReplace extendedSelectors heap
     = extend_holder recurse
         (List.filter (fun pushed => negb (seen_contains pushed.1 seen)) holder)
         seen isReplace extendedSelectors heap)
  ∧ (∀ recurse1 recurse2 holder seen isReplace extendedSelectors heap,
       (∀ pSels pNewSelector heap',
          (pSels, pNewSelector) ∈ holder → seen_contains pSels seen = false →
          recurse1 pNewSelector (seen_insert pSels seen) isReplace false heap'
          = recurse2 pNewSelector (seen_insert pSels seen) isReplace false heap') →
       extend_holder recurse1 holder seen isReplace extendedSelectors heap
       = extend_holder recurse2 holder seen isReplace extendedSelectors heap)
  ∧ (∀ pSelector seen isReplace heap,
       extendCompoundSelector subset_map pSelector seen isReplace heap ≠ OutOfFuel)
  ∧ (∀ pComplexSelector seen isReplace isOriginal heap,
       extendComplexSelector subset_map pComplexSelector seen isReplace isOriginal heap
       ≠ OutOfFuel).
Proof.
  split_and!.
  - apply extend_holder_skips_seen.
  - apply extend_holder_calls.
  - intros pSelector seen isReplace heap.
    apply (runs_not_out_of_fuel anything).
    apply (extendCompoundSelector_with_runs subset_map _ (extend_depth subset_map)).
    + apply extendComplexSelector_rec_runs.
    + apply unseen_groups_le.
  - intros pComplexSelector seen isReplace isOriginal heap.
    apply (runs_not_out_of_fuel anything).
    apply extendComplexSelector_rec_runs.
    pose proof (unseen_groups_le subset_map (store_elements heap) seen).
    unfold extend_depth. lia.
Qed.

End SeenGuard.

Module ExtendExamples.
#[local] Existing Instance SpecModel.ast.
Import Examples.

(** [.a { @extend .b }] and [.b { @extend .a }]: extending [.a] ends. *)
Lemma extendCompoundSelector_seen_guard_witness :
  extendComplexSelector mutual_extends sel_a [] false true mutual_heap ≠ OutOfFuel.
Proof. apply (extendCompoundSelector_seen_guard mutual_extends). Defined.

(** The list [.a, .b] is extended to [.a, & .b, .b, & .a]: both originals
    are kept, each gains the other one, and both extendees are marked. *)
Lemma mutual_extends_result :
  extendSelectorList mutual_extends 1 [sel_a; sel_b] false mutual_heap
  = Returns (([sel_a; with_parent sel_b; sel_b; with_parent sel_a], true), set_extended <$> mutual_heap).
Proof. by vm_compute. Qed.

End ExtendExamples.

(** ** extendSelectorList against an empty subset map *)

Section HasExtensionEquations.
Context `{Ast} (subset_map : ExtensionSubsetMap).

Lemma complexSelectorHasExtension_unfold (c : Complex_Selector) seen heap :
  complexSelectorHasExtension subset_map c seen heap
  = has_extension_from
      match head c with
      | Some pHead => has_extension_head subset_map pHead seen heap
      | None => Returns false
      end
      match tail c with
      | Some pTail => complexSelectorHasExtension subset_map pTail seen heap
      | None => Returns false
      end.
Proof. by destruct c. Qed.

(** The loop of lines 1730-1736 calls the function for [cs] and then for
    its tails, until one call answers true. *)
Lemma has_extension_suffixes_unfold (cs : Complex_Selector) seen heap :
  has_extension_suffixes subset_map cs seen heap
  = do found <- complexSelectorHasExtension subset_map cs seen heap;
    if found then Returns true
    else match tail cs with
         | Some pTail => has_extension_suffixes subset_map pTail seen heap
         | None => Returns false
         end.
Proof. by destruct cs. Qed.

Lemma has_extension_head_unfold (pHead : Compound_Selector) seen heap :
  has_extension_head subset_map pHead seen heap
  = do hasExtension <-
      (if seen_contains pHead seen then Returns false
       else visit_all (fun pSimple => has_extension_simple subset_map pSimple seen heap)
                      (elements pHead));
    head_has_extension subset_map pHead heap hasExtension.
Proof. by destruct pHead. Qed.

Lemma has_extension_simple_unfold (pSimple : Simple_Selector) seen heap :
  has_extension_simple subset_map pSimple seen heap
  = match pSimple with
    | Wrapped_Selector _ (Some sl) =>
        visit_all (fun cs => has_extension_suffixes subset_map cs seen heap) sl
    | _ => Returns false
    end.
Proof. by destruct pSimple. Qed.

End HasExtensionEquations.

Section EmptyMapFacts.
Context `{Ast}.

Lemma get_v_empty (query : list string) : get_v [] query = [].
Proof. done. Qed.

Lemma head_has_extension_empty pHead heap hasExtension :
  head_has_extension [] pHead heap hasExtension = Returns hasExtension.
Proof. done. Qed.

Fixpoint complexSelectorHasExtension_empty (c : Complex_Selector) (seen : Seen) (heap : Heap)
    {struct c} : complexSelectorHasExtension [] c seen heap = Returns false
with has_extension_suffixes_empty (c : Complex_Selector) (seen : Seen) (heap : Heap)
    {struct c} : has_extension_suffixes [] c seen heap = Returns false
with has_extension_head_empty (h : Compound_Selector) (seen : Seen) (heap : Heap)
    {struct h} : has_extension_head [] h seen heap = Returns false
with has_extension_simple_empty (s : Simple_Selector) (seen : Seen) (heap : Heap)
    {struct s} : has_extension_simple [] s seen heap = Returns false.
Proof.
  - rewrite complexSelectorHasExtension_unfold.
    destruct c as [comb [h|] [t|] lf]; cbn [head tail];
      rewrite ?has_extension_head_empty, ?complexSelectorHasExtension_empty; done.
  - rewrite has_extension_suffixes_unfold, complexSelectorHasExtension_unfold.
    destruct c as [comb [h|] [t|] lf]; cbn [head tail];
      rewrite ?has_extension_head_empty, ?complexSelectorHasExtension_empty;
      cbn [has_extension_from Outcome_bind];
      rewrite ?has_extension_suffixes_empty; done.
  - rewrite has_extension_head_unfold.
    destruct (seen_contains _ seen); [done|].
    destruct h as [simples srcs e o lf mb]. cbn [elements].
    assert (Hsimples :
      visit_all (fun pSimple => has_extension_simple [] pSimple seen heap) simples
      = Returns false).
    { induction simples as [|s simples IH]; [done|].
      cbn [visit_all]. rewrite has_extension_simple_empty, IH. done. }
    by rewrite Hsimples.
  - rewrite has_extension_simple_unfold.
    destruct s as [| | | | | | |name [sl|]]; try done.
    induction sl as [|cs sl IH]; [done|].
    cbn [visit_all]. rewrite has_extension_suffixes_empty, IH. done.
Qed.

Lemma extendSelectorList_loop_empty selectors isReplace seen pNewSelectors extendedSomething heap :
  extendSelectorList_loop [] selectors isReplace seen pNewSelectors extendedSomething heap
  = Returns ((pNewSelectors ++ selectors, extendedSomething), heap).
Proof.
  revert pNewSelectors. induction selectors as [|pSelector rest IH]; intros pNewSelectors.
  - by rewrite app_nil_r.
  - cbn [extendSelectorList_loop]. rewrite complexSelectorHasExtension_empty.
    cbn [Outcome_bind negb]. rewrite IH. by rewrite <- app_assoc.
Qed.

Lemma foldl_compound_push (h : Compound_Selector) (simples : list Simple_Selector) :
  foldl compound_push h simples
  = mkCompound (elements h ++ simples) (compound_sources h) (extended h) (is_optional h)
               (compound_line_feed h) (media_block h).
Proof.
  revert h. induction simples as [|s simples IH]; intros [els srcs e o lf mb].
  - cbn. by rewrite app_nil_r.
  - cbn [foldl compound_push]. rewrite IH. cbn. by rewrite <- app_assoc.
Qed.

Section UnwrapFacts.
Variable extendInner : list Complex_Selector → Seen → St (list Complex_Selector).

Lemma unwrap_simples_no_inner_list simples recseen cpy_head heap :
  forallb no_inner_list simples = true →
  unwrap_simples extendInner simples recseen cpy_head heap
  = Returns (foldl compound_push cpy_head simples, heap).
Proof.
  revert cpy_head. induction simples as [|hs rest IH]; intros cpy_head; [done|].
  cbn [forallb]. intros [Hhs Hrest]%andb_true_iff.
  destruct hs as [| | | | | | |name [sl|]]; try discriminate; cbn [unwrap_simples foldl];
    by apply IH.
Qed.

Lemma unwrap_selector_untouched cur seen heap :
  untouched cur = true → unwrap_selector extendInner cur seen heap = Returns (cur, heap).
Proof.
  induction cur as [c pHead pTail lf IH] using
    (fix ind (P : Complex_Selector → Prop)
         (step : ∀ c h t lf, (∀ t', t = Some t' → P t') → P (mkComplex c h t lf))
         (s : Complex_Selector) {struct s} : P s :=
       match s with
       | mkComplex c h t lf =>
           step c h t lf
             (match t return ∀ t', t = Some t' → P t' with
              | Some t0 => fun t' Heq =>
                  match Heq in _ = o return match o with Some x => P x | None => True end with
                  | eq_refl => ind P step t0
                  end
              | None => fun t' Heq => match Heq with end
              end)
       end).
  cbn [untouched unwrap_selector]. intros [Hhead Htail]%andb_true_iff.
  assert (Htl : match pTail with
                | Some t => unwrap_selector extendInner t seen heap = Returns (t, heap)
                | None => True
                end).
  { destruct pTail as [t|]; [|done]. by apply (IH t). }
  destruct pHead as [h|].
  - apply andb_true_iff in Hhead as [Hflags Hsimples].
    unfold St_bind, St_ret.
    destruct (seen_contains h seen).
    + cbn [Outcome_bind fst snd]. destruct pTail as [t|]; [|done].
      rewrite Htl. done.
    + rewrite unwrap_simples_no_inner_list by done. cbn [Outcome_bind fst snd].
      rewrite foldl_compound_push.
      assert (Hh : mkCompound (elements emptyCompound ++ elements h)
                     (compound_sources emptyCompound) (extended emptyCompound)
                     (is_optional emptyCompound) (compound_line_feed emptyCompound)
                     (media_block emptyCompound) = h).
      { by destruct h as [els [|] [|] [|] [|] [|]]. }
      rewrite Hh. destruct pTail as [t|]; [|done].
      rewrite Htl. done.
  - unfold St_bind, St_ret. cbn [Outcome_bind fst snd].
    destruct pTail as [t|]; [|done]. rewrite Htl. done.
Qed.

Lemma unwrap_selectors_untouched selectors seen heap :
  forallb untouched selectors = true →
  unwrap_selectors extendInner selectors seen heap = Returns (selectors, heap).
Proof.
  induction selectors as [|cur rest IH]; [done|].
  cbn [forallb unwrap_selectors]. intros [Hcur Hrest]%andb_true_iff.
  unfold St_bind. rewrite unwrap_selector_untouched by done.
  cbn [Outcome_bind fst snd]. rewrite IH by done. done.
Qed.

End UnwrapFacts.

(** C6, amended.  With an empty subset map, [complexSelectorHasExtension] is
    false for every complex selector and the loop over the list passes every
    selector through, leaving [extendedSomething] false.  The list returned
    is that list after the two passes that follow the loop: the removal of
    the placeholders, and the unwrapping pass, which rebuilds the heads not
    in [seen] and extends the inner lists of their wrapped selectors.  The
    list returned is the list passed when the removal of the placeholders
    leaves it alone and its heads have neither flags, sources nor a wrapped
    selector with an inner list. *)
Theorem extendSelectorList_empty_map (depth : nat) (pSelectorList : list Complex_Selector)
    (isReplace : bool) (seen : Seen) (heap : Heap) :
  (∀ pSelector, complexSelectorHasExtension [] pSelector seen heap = Returns false)
  ∧ extendSelectorList_loop [] pSelectorList isReplace seen [] false heap
    = Returns ((pSelectorList, false), heap)
  ∧ extendSelectorList_seen [] (S depth) pSelectorList isReplace seen heap
    = (dos unwrapped <-
         unwrap_selectors
           (fun sl recseen => dos inner <- extendSelectorList_seen [] depth sl false recseen;
                              St_ret inner.1)
           (remove_placeholders pSelectorList) seen;
       St_ret (unwrapped, false)) heap
  ∧ (remove_placeholders pSelectorList = pSelectorList →
     forallb untouched pSelectorList = true →
     extendSelectorList_seen [] (S depth) pSelectorList isReplace seen heap
     = Returns ((pSelectorList, false), heap)).
Proof.
  assert (Hseen : extendSelectorList_seen [] (S depth) pSelectorList isReplace seen heap
    = (dos unwrapped <-
         unwrap_selectors
           (fun sl recseen => dos inner <- extendSelectorList_seen [] depth sl false recseen;
                              St_ret inner.1)
           (remove_placeholders pSelectorList) seen;
       St_ret (unwrapped, false)) heap).
  { cbn [extendSelectorList_seen]. unfold St_bind at 1.
    rewrite extendSelectorList_loop_empty. done. }
  split_and!.
  - intros pSelector. apply complexSelectorHasExtension_empty.
  - apply extendSelectorList_loop_empty.
  - exact Hseen.
  - intros Hplace Huntouched. rewrite Hseen, Hplace. unfold St_bind.
    rewrite unwrap_selectors_untouched by done. done.
Qed.

End EmptyMapFacts.

Module SelectorListExamples.
#[local] Existing Instance SpecModel.ast.
Import Examples.

(** The list [.a, .b] comes back as it is. *)
Lemma extendSelectorList_empty_map_witness :
  extendSelectorList [] 1 [sel_a; sel_b] false [] = Returns (([sel_a; sel_b], false), []).
Proof.
  apply (proj2 (proj2 (proj2 (extendSelectorList_empty_map 0 [sel_a; sel_b] false [] []))));
    vm_compute; reflexivity.
Defined.

(** The list [:not(.a, .b)] comes back as [:not(.a):not(.b)]. *)
Lemma extendSelectorList_empty_map_counterexample :
  extendSelectorList [] 2 [not_a_b] false [] = Returns (([not_a_not_b], false), [])
  ∧ extendSelectorList [] 2 [not_a_b] false [] ≠ Returns (([not_a_b], false), []).
Proof. split; by vm_compute. Qed.

End SelectorListExamples.

(** ** The final check of the tree walker *)

Section WalkerFacts.
Context `{Ast} (subset_map : ExtensionSubsetMap) (depth : nat).

Lemma Extend_Block_unfold (root : bool) (stms : list Statement) :
  Extend_Block subset_map depth (mkBlock root stms)
  = dos _ <- perform_statements subset_map depth stms;
    if root
    then fun heap => do _ <- check_extended (values subset_map) heap; Returns (tt, heap)
    else St_ret tt.
Proof.
  reflexivity.
Qed.

Lemma check_extended_satisfied (heap : Heap) (entries : SubsetMapEntries) (rest : SubsetMapEntries) :
  forallb (entry_satisfied heap) entries = true →
  check_extended (entries ++ rest) heap = check_extended rest heap.
Proof.
  induction entries as [|[sel ext] entries IH]; [done|].
  cbn [forallb app check_extended]. intros [Hsat Hrest]%andb_true_iff.
  unfold entry_satisfied in Hsat. cbn [snd] in *.
  destruct ext as [address|]; [|done]. cbn [mbind option_bind] in Hsat.
  destruct (heap !! address) as [e|]; [|done]. cbn [deref Outcome_bind].
  rewrite Hsat. by apply IH.
Qed.

(** C7, amended.  Once the statements of the root block have been walked
    without error, leaving the store [heap']: if every entry of the subset
    map is marked extended or flagged optional, the walk of the root block
    returns; otherwise the walk raises one fatal error, for the first entry
    in the order of the map whose extendee [Y] is neither, and the message
    names the selector [first()] of the extender [X] and [Y], whatever
    the entries after it are; a block that is not the root checks
    nothing. *)
Theorem final_check_reports_first_unsatisfied (stms : list Statement) (heap heap' : Heap) :
  perform_statements subset_map depth stms heap = Returns (tt, heap') →
  (forallb (entry_satisfied heap') (values subset_map) = true →
   Extend_Block subset_map depth (mkBlock true stms) heap = Returns (tt, heap'))
  ∧ (∀ satisfied X address Y X' rest,
       values subset_map = satisfied ++ (Some X, Some address) :: rest →
       forallb (entry_satisfied heap') satisfied = true →
       heap' !! address = Some Y →
       extended Y || is_optional Y = false →
       first X = Some X' →
       Extend_Block subset_map depth (mkBlock true stms) heap
       = Thrown (failed_to_extend_message (complex_to_string X') (compound_to_string Y)))
  ∧ Extend_Block subset_map depth (mkBlock false stms) heap = Returns (tt, heap').
Proof.
  intros Hwalk. rewrite !Extend_Block_unfold. unfold St_bind. rewrite Hwalk.
  cbn [Outcome_bind fst snd]. split_and!; [| |done].
  - intros Hall.
    rewrite <- (app_nil_r (values subset_map)), check_extended_satisfied by done.
    done.
  - intros satisfied X address Y X' rest -> Hsat HY Hflags HX.
    rewrite check_extended_satisfied by done.
    cbn [check_extended fst snd mbind option_bind]. rewrite HY, HX.
    cbn [deref Outcome_bind]. by rewrite Hflags.
Qed.

End WalkerFacts.

Module WalkerExamples.
#[local] Existing Instance SpecModel.ast.
Import Examples.

(** [.x { @extend .y }] with a style sheet that has no [.y]. *)
Lemma final_check_reports_first_unsatisfied_witness :
  Extend_Block one_unmatched 1 (mkBlock true sheet_a) unmatched_heap
  = Thrown (failed_to_extend_message ".x" ".y").
Proof.
  assert (Hwalk : perform_statements one_unmatched 1 sheet_a unmatched_heap
                  = Returns (tt, unmatched_heap)) by (vm_compute; reflexivity).
  apply (proj1 (proj2 (final_check_reports_first_unsatisfied one_unmatched 1 sheet_a
           unmatched_heap unmatched_heap Hwalk)) [] sel_x 0 y sel_x []);
    vm_compute; reflexivity.
Defined.

(** Two extends fail, [.x { @extend .y }] and [.z { @extend .w }]: the error
    raised names the first, and no error names the second. *)
Lemma final_check_first_only_counterexample :
  entry_satisfied unmatched_heap (Some sel_z, Some 1) = false
  ∧ (Some sel_z, Some 1) ∈ values two_unmatched
  ∧ Extend_Block two_unmatched 1 (mkBlock true sheet_a) unmatched_heap
    = Thrown (failed_to_extend_message ".x" ".y")
  ∧ Extend_Block two_unmatched 1 (mkBlock true sheet_a) unmatched_heap
    ≠ Thrown (failed_to_extend_message ".z" ".w").
Proof.
  split_and!; [done| |by vm_compute|by vm_compute].
  apply list_elem_of_In. right. by left.
Qed.

End WalkerExamples.

(** ** The LCS utility, for any comparator *)

Lemma Forall2_snoc_inv_l {A B : Type} (R : A → B → Prop) (t : list A) (a : A) (ys : list B) :
  Forall2 R (t ++ [a]) ys → ∃ t' b, ys = t' ++ [b] ∧ Forall2 R t t' ∧ R a b.
Proof.
  intros (t' & k & Ht & Hk & ->)%Forall2_app_inv_l.
  apply Forall2_cons_inv_l in Hk as (b & k' & Hab & Hnil & ->).
  apply Forall2_nil_inv_l in Hnil as ->. by exists t', b.
Qed.

Lemma Forall3_out_elem {A B C : Type} (P : A → B → C → Prop) xs ys outs out :
  Forall3 P xs ys outs → out ∈ outs → ∃ a b, a ∈ xs ∧ b ∈ ys ∧ P a b out.
Proof.
  induction 1 as [|a b o xs ys outs Hp _ IH]; intros Hout.
  - by apply elem_of_nil in Hout.
  - apply elem_of_cons in Hout as [->|Hout].
    + exists a, b. split_and!; [by left..|done].
    + destruct (IH Hout) as (a' & b' & Ha & Hb & Hp').
      exists a', b'. split_and!; [by right..|done].
Qed.

Section LcsGeneral.
Context {A : Type} (comparator : A → A → option A) (x y : list A).

(** The comparator answers true for [a] and [b]. *)
#[local] Abbreviation matches := (fun a b => is_Some (comparator a b)).

Lemma lcs_backtrace_matched depth :
  ∀ i j, i ≤ length x → j ≤ length y →
    ∃ xs ys, xs `sublist_of` take i x ∧ ys `sublist_of` take j y
             ∧ Forall3 (fun a b out => comparator a b = Some out) xs ys
                       (lcs_backtrace comparator depth (lcs_table comparator x y) x y i j).
Proof.
  induction depth as [|depth IH]; intros i j Hi Hj.
  - exists [], []. split_and!; [apply sublist_nil_l..|constructor].
  - destruct i as [|i]; [exists [], []; split_and!; [apply sublist_nil_l..|constructor]|].
    destruct j as [|j]; [exists [], []; split_and!; [apply sublist_nil_l..|constructor]|].
    cbn [lcs_backtrace Nat.eqb orb]. rewrite !Nat.sub_succ, !Nat.sub_0_r.
    destruct (lookup_lt_is_Some_2 x i) as [xi Hx]; [lia|].
    destruct (lookup_lt_is_Some_2 y j) as [yj Hy]; [lia|].
    rewrite Hx, Hy, (take_S_r x i xi Hx), (take_S_r y j yj Hy).
    destruct (comparator xi yj) as [out|] eqn:Hc.
    + destruct (IH i j) as (xs & ys & Hxs & Hys & Hall); [lia..|].
      exists (xs ++ [xi]), (ys ++ [yj]).
      split_and!; [by apply sublist_app..|].
      apply Forall3_app; [done|]. by repeat constructor.
    + destruct (_ <? _).
      * destruct (IH (S i) j) as (xs & ys & Hxs & Hys & Hall); [lia..|].
        rewrite (take_S_r x i xi Hx) in Hxs.
        exists xs, ys. split_and!; [done| |done]. by apply sublist_inserts_r.
      * destruct (IH i (S j)) as (xs & ys & Hxs & Hys & Hall); [lia..|].
        rewrite (take_S_r y j yj Hy) in Hys.
        exists xs, ys. split_and!; [|done..]. by apply sublist_inserts_r.
Qed.

Lemma lcs_length_bounds_matched :
  ∀ i j xs ys, i ≤ length x → j ≤ length y →
    xs `sublist_of` take i x → ys `sublist_of` take j y → Forall2 matches xs ys →
    length xs ≤ lcs_length comparator x y i j.
Proof.
  induction i as [|i IHi]; intros j.
  { intros xs ys Hi Hj Hxs Hys Hm. simpl in Hxs. apply sublist_nil_r in Hxs as ->. simpl. lia. }
  induction j as [|j IHj]; intros xs ys Hi Hj Hxs Hys Hm.
  { simpl in Hys. apply sublist_nil_r in Hys as ->.
    apply Forall2_nil_inv_r in Hm as ->. simpl. lia. }
  destruct (lookup_lt_is_Some_2 x i) as [xi Hx]; [lia|].
  destruct (lookup_lt_is_Some_2 y j) as [yj Hy]; [lia|].
  rewrite (lcs_length_S comparator x y i j xi yj Hx Hy).
  pose proof Hxs as Hxs0. pose proof Hys as Hys0.
  rewrite (take_S_r x i xi Hx) in Hxs. rewrite (take_S_r y j yj Hy) in Hys.
  apply sublist_snoc_inv in Hxs as [Hxs|(t & -> & Htx)].
  - (* the last element of [x] is not used *)
    destruct (comparator xi yj) eqn:Hc.
    + apply sublist_snoc_inv in Hys as [Hys|(t' & -> & Hty)].
      * pose proof (IHi j xs ys ltac:(lia) ltac:(lia) Hxs Hys Hm). lia.
      * apply Forall2_flip, Forall2_snoc_inv_l in Hm as (xs' & a' & -> & Hm & _).
        apply Forall2_flip in Hm.
        assert (length xs' ≤ lcs_length comparator x y i j).
        { apply (IHi j xs' t'); [lia|lia| |done|done].
          etrans; [|exact Hxs]. by apply sublist_inserts_r. }
        rewrite length_app. simpl. lia.
    + pose proof (IHi (S j) xs ys ltac:(lia) ltac:(lia) Hxs Hys0 Hm). lia.
  - (* the last element of [x] is used *)
    apply Forall2_snoc_inv_l in Hm as (t' & b & -> & Hm & Hab).
    apply sublist_snoc_inv in Hys as [Hys|(t'' & Heq & Hty)].
    + destruct (comparator xi yj) eqn:Hc.
      * assert (length t ≤ lcs_length comparator x y i j).
        { apply (IHi j t t'); [lia|lia|done| |done].
          etrans; [|exact Hys]. by apply sublist_inserts_r. }
        rewrite length_app. simpl. lia.
      * assert (length (t ++ [xi]) ≤ lcs_length comparator x y (S i) j); [|lia].
        apply (IHj (t ++ [xi]) (t' ++ [b])); [lia|lia|done|done|].
        apply Forall2_app; [done|]. by repeat constructor.
    + apply app_inj_tail in Heq as [-> ->].
      destruct (comparator xi yj) eqn:Hc.
      * assert (length t ≤ lcs_length comparator x y i j)
          by (apply (IHi j t t''); (lia || done)).
        rewrite length_app. simpl. lia.
      * by destruct Hab.
Qed.

(** X1.  Whatever the comparator, [lcs] returns a longest common
    subsequence in its sense: the elements returned are the out-parameters
    of the comparator for a subsequence of [x] matched, in order, with a
    subsequence of [y], and no two subsequences of [x] and [y] that the
    comparator matches pairwise are longer than the result. *)
Theorem lcs_longest_matched_subsequence :
  (∃ xs ys, xs `sublist_of` x ∧ ys `sublist_of` y
            ∧ Forall3 (fun a b out => comparator a b = Some out) xs ys (lcs comparator x y))
  ∧ (∀ xs ys, xs `sublist_of` x → ys `sublist_of` y →
       Forall2 (fun a b => is_Some (comparator a b)) xs ys →
       length xs ≤ length (lcs comparator x y)).
Proof.
  split.
  - destruct (lcs_backtrace_matched (length x + length y) (length x) (length y))
      as (xs & ys & Hxs & Hys & Hall); [done..|].
    rewrite firstn_all in Hxs, Hys. by exists xs, ys.
  - intros xs ys Hxs Hys Hm. rewrite lcs_length_eq.
    apply (lcs_length_bounds_matched _ _ xs ys); [done|done|by rewrite firstn_all..|done].
Qed.

End LcsGeneral.

Section LcsCollection.
Context `{Ast}.

Lemma LcsCollectionComparator_out pOne pTwo out :
  LcsCollectionComparator pOne pTwo = Some out → out = pOne ∨ out = pTwo.
Proof.
  unfold LcsCollectionComparator.
  repeat match goal with |- context [if ?b then _ else _] => destruct b end;
    intros [= <-]; auto.
Qed.

(** X2.  The comparator of [subweave] answers with one of its two
    arguments, the first one when they are equal, and answers false for
    two different selectors as soon as one of them has a combinator other
    than the descendant one.  So the LCS that [subweave] computes holds
    only selectors of the two deques it is given. *)
Theorem LcsCollectionComparator_picks_an_argument :
  (∀ pOne pTwo, selectors_equal pOne pTwo true = true →
     LcsCollectionComparator pOne pTwo = Some pOne)
  ∧ (∀ pOne pTwo, selectors_equal pOne pTwo true = false →
       combinator pOne ≠ ANCESTOR_OF ∨ combinator pTwo ≠ ANCESTOR_OF →
       LcsCollectionComparator pOne pTwo = None)
  ∧ (∀ x y out, out ∈ lcs LcsCollectionComparator x y → out ∈ x ∨ out ∈ y).
Proof.
  split_and!.
  - intros pOne pTwo Heq. unfold LcsCollectionComparator. by rewrite Heq.
  - intros pOne pTwo Hne Hcomb. unfold LcsCollectionComparator. rewrite Hne.
    destruct Hcomb as [Hc|Hc]; rewrite (bool_decide_eq_false_2 _ Hc); cbn [negb orb];
      [done|by rewrite orb_true_r].
  - intros x y out Hout.
    destruct (lcs_backtrace_matched LcsCollectionComparator x y
                (length x + length y) (length x) (length y))
      as (xs & ys & Hxs & Hys & Hall); [done..|].
    rewrite firstn_all in Hxs, Hys. fold (lcs LcsCollectionComparator x y) in Hall.
    destruct (Forall3_out_elem _ _ _ _ out Hall Hout) as (a & b & Ha & Hb & Hc).
    apply LcsCollectionComparator_out in Hc as [-> | ->]; [left|right].
    + by eapply elem_of_submseteq, sublist_submseteq.
    + by eapply elem_of_submseteq, sublist_submseteq.
Qed.

End LcsCollection.

(** ** groupSelectors and the operator strippers *)

Lemma glued_snoc (l : list Node) (a b : Node) :
  glued (l ++ [a]) = true → isCombinator a || isCombinator b = true →
  glued (l ++ [a; b]) = true.
Proof.
  intros Hl Hab. induction l as [|c l IH].
  - cbn. by rewrite Hab.
  - destruct l as [|d l].
    + cbn in *. rewrite Hab. by rewrite andb_true_r in Hl |- *.
    + cbn [app glued] in *. apply andb_true_iff in Hl as [Hcd Hl].
      rewrite Hcd. cbn [andb]. by apply IH.
Qed.

Section GroupSelectorsFacts.
Context `{Ast}.

Lemma groupSelectors_tail_spec l :
  ∀ hd hb, glued (hd ++ [hb]) = true →
    ∃ g0 rest,
      groupSelectors_tail l (hd ++ [hb]) hb
        = CollectionNode false <$> ((hd ++ [hb] ++ g0) :: rest)
      ∧ concat ((hd ++ [hb] ++ g0) :: rest) = hd ++ [hb] ++ l
      ∧ Forall (fun g => g ≠ [] ∧ glued g = true) ((hd ++ [hb] ++ g0) :: rest)
      ∧ (∀ i g g', ((hd ++ [hb] ++ g0) :: rest) !! i = Some g →
           ((hd ++ [hb] ++ g0) :: rest) !! S i = Some g' →
           ∃ a b, list.last g = Some a ∧ g' !! 0 = Some b
                  ∧ isCombinator a = false ∧ isCombinator b = false).
Proof.
  induction l as [|tailFront l IH]; intros hd hb Hglued.
  - exists [], []. cbn [groupSelectors_tail]. rewrite !app_nil_r.
    split_and!; [done|by cbn; rewrite app_nil_r| |].
    + constructor; [|constructor]. split; [by destruct hd|done].
    + intros i g g' _ Hg'. by destruct i.
  - cbn [groupSelectors_tail].
    destruct (isCombinator hb || isCombinator tailFront) eqn:Hcomb.
    + destruct (IH (hd ++ [hb]) tailFront) as (g0 & rest & Hrun & Hcat & Hall & Hbound).
      { rewrite <- app_assoc. by apply glued_snoc. }
      exists (tailFront :: g0), rest.
      rewrite <- ?app_assoc in Hrun, Hcat, Hall, Hbound. rewrite <- ?app_assoc.
      cbn [app] in *.
      split_and!; [by rewrite Hrun, <- app_assoc|by rewrite Hcat, <- app_assoc|done..].
    + destruct (IH [] tailFront) as (g0 & rest & Hrun & Hcat & Hall & Hbound); [done|].
      cbn [app] in *.
      exists [], ((tailFront :: g0) :: rest). cbn [app].
      apply orb_false_iff in Hcomb as [Hhb Htf].
      split_and!.
      * by rewrite Hrun.
      * cbn [concat] in *. rewrite Hcat. by rewrite <- !app_assoc.
      * constructor; [|done]. split; [by destruct hd|done].
      * intros [|i] g g' Hg Hg'.
        -- injection Hg as <-. injection Hg' as <-.
           exists hb, tailFront. by rewrite last_snoc.
        -- by apply (Hbound i).
Qed.

(** X3.  [groupSelectors] cuts a sequence into consecutive groups and loses
    nothing: the groups, put end to end, are the sequence.  No group is
    empty; inside a group, of two neighbours one is a combinator; and a
    group ends where a node that is not a combinator is followed by another
    one. *)
Theorem groupSelectors_cuts_between_selectors (lf : bool) (l : list Node) :
  ∃ groups,
    groupSelectors (CollectionNode lf l) = Returns (CollectionNode false (CollectionNode false <$> groups))
    ∧ concat groups = l
    ∧ Forall (fun g => g ≠ [] ∧ glued g = true) groups
    ∧ (∀ i g g', groups !! i = Some g → groups !! S i = Some g' →
         ∃ a b, list.last g = Some a ∧ g' !! 0 = Some b
                ∧ isCombinator a = false ∧ isCombinator b = false).
Proof.
  unfold groupSelectors. cbn [collection deref Outcome_bind].
  destruct l as [|tailFront l].
  - exists []. split_and!; [done|done|constructor|]. intros i g g' Hg. by destruct i.
  - destruct (groupSelectors_tail_spec l [] tailFront) as (g0 & rest & Hrun & Hcat & Hall & Hb);
      [done|].
    cbn [app] in *. exists ((tailFront :: g0) :: rest). by rewrite Hrun.
Qed.

(** X4.  The two operator strippers.  [getAndRemoveInitialOps] takes the
    leading combinators off a sequence, in their order; what is left does
    not start with a combinator.  [getAndRemoveFinalOps] takes the trailing
    combinators off, last one first: the sequence is what is left followed
    by the operators in reverse, and what is left does not end with a
    combinator. *)
Theorem operator_strippers_split (l : list Node) :
  (∃ ops rest,
     getAndRemoveInitialOps l [] = (rest, ops)
     ∧ l = ops ++ rest
     ∧ Forall (fun n => isCombinator n = true) ops
     ∧ (∀ n, rest !! 0 = Some n → isCombinator n = false))
  ∧ (∃ ops rest,
       getAndRemoveFinalOps l [] = (rest, ops)
       ∧ l = rest ++ rev ops
       ∧ Forall (fun n => isCombinator n = true) ops
       ∧ (∀ n, list.last rest = Some n → isCombinator n = false)).
Proof.
  split.
  - destruct (getAndRemoveInitialOps_spec l []) as (taken & rest & Hrun & Hl & Hall & Hrest).
    exists taken, rest. split_and!; [done..|].
    intros n Hn. destruct rest; [done|]. by injection Hn as <-.
  - unfold getAndRemoveFinalOps.
    destruct (getAndRemoveInitialOps_spec (rev l) []) as (taken & rest & Hrun & Hl & Hall & Hrest).
    rewrite Hrun. exists taken, (rev rest). split_and!; [done| |done|].
    + by rewrite <- rev_app_distr, <- Hl, rev_involutive.
    + intros n Hn. destruct rest as [|m rest]; [done|].
      cbn [rev] in Hn. rewrite last_snoc in Hn. by injection Hn as <-.
Qed.

End GroupSelectorsFacts.

(** ** mergeFinalOps: the other cases *)

Lemma sublist_rev {A : Type} (s l : list A) : s `sublist_of` l → rev s `sublist_of` rev l.
Proof.
  induction 1 as [|a s l _ IH|a s l _ IH]; cbn [rev]; [done| |].
  - by apply sublist_app.
  - by apply sublist_inserts_r.
Qed.

Lemma sublist_rev_iff {A : Type} (s l : list A) : rev s `sublist_of` rev l ↔ s `sublist_of` l.
Proof.
  split; [|apply sublist_rev].
  intros Hs. apply sublist_rev in Hs. by rewrite !rev_involutive in Hs.
Qed.

Lemma fmap_rev {A B : Type} (f : A → B) (l : list A) : f <$> rev l = rev (f <$> l).
Proof.
  induction l as [|a l IH]; [done|]. cbn [rev fmap list_fmap].
  rewrite fmap_app, IH. done.
Qed.

Section MergeFinalOpsCases.
Context `{Ast}.

Lemma getAndRemoveInitialOps_app (taken rest acc : list Node) :
  Forall (fun n => isCombinator n = true) taken →
  (∀ n, rest !! 0 = Some n → isCombinator n = false) →
  getAndRemoveInitialOps (taken ++ rest) acc = (rest, acc ++ taken).
Proof.
  intros Htaken Hrest. revert acc.
  induction Htaken as [|n taken Hn _ IH]; intros acc.
  - cbn [app]. rewrite app_nil_r. destruct rest as [|n rest]; [done|].
    cbn [getAndRemoveInitialOps]. by rewrite (Hrest n eq_refl).
  - cbn [app getAndRemoveInitialOps]. rewrite Hn, IH. by rewrite <- app_assoc.
Qed.

Lemma getAndRemoveFinalOps_app (rest ops : list Node) :
  Forall (fun n => isCombinator n = true) ops →
  (∀ n, list.last rest = Some n → isCombinator n = false) →
  getAndRemoveFinalOps (rest ++ ops) [] = (rest, rev ops).
Proof.
  intros Hops Hrest. unfold getAndRemoveFinalOps.
  rewrite rev_app_distr, getAndRemoveInitialOps_app.
  - by rewrite rev_involutive.
  - rewrite Forall_forall in Hops |- *. intros n Hn. apply Hops. by apply in_rev.
  - intros n Hn. apply Hrest. destruct rest as [|m rest] using rev_ind; [done|].
    rewrite rev_app_distr in Hn. injection Hn as <-. by rewrite last_snoc.
Qed.

Lemma getAndRemoveFinalOps_selector (l : list Node) (g : bool) (s : Complex_Selector) :
  getAndRemoveFinalOps (l ++ [SelectorNode g s]) [] = (l ++ [SelectorNode g s], []).
Proof.
  rewrite <- (app_nil_r (l ++ [SelectorNode g s])) at 1.
  rewrite getAndRemoveFinalOps_app; [done|constructor|].
  intros n. rewrite last_snoc. by intros [= <-].
Qed.

Lemma lcs_operators_equal (ops1 ops2 : list Node) :
  Forall (fun n => isCombinator n = true) ops1 →
  Forall (fun n => isCombinator n = true) ops2 →
  let opsLcs := CollectionNode false (lcs DefaultLcsComparator ops1 ops2) in
  (nodes_equal opsLcs (CollectionNode false ops1) = true
   ↔ node_combinator <$> ops1 `sublist_of` node_combinator <$> ops2)
  ∧ (nodes_equal opsLcs (CollectionNode false ops2) = true
     ↔ node_combinator <$> ops2 `sublist_of` node_combinator <$> ops1).
Proof.
  intros Hops1 Hops2.
  pose proof (lcs_eq_l_iff node_combinator DefaultLcsComparator ops1 ops2
                (fun a b out => DefaultLcsComparator_true ops1 ops2 a b out Hops1 Hops2)
                (fun a b => DefaultLcsComparator_false ops1 ops2 a b Hops1 Hops2)) as Hl.
  pose proof (lcs_eq_r_iff node_combinator DefaultLcsComparator ops1 ops2
                (fun a b out => DefaultLcsComparator_true ops1 ops2 a b out Hops1 Hops2)
                (fun a b => DefaultLcsComparator_false ops1 ops2 a b Hops1 Hops2)) as Hr.
  pose proof (lcs_sublist_l node_combinator DefaultLcsComparator ops1 ops2
                (fun a b out => DefaultLcsComparator_true ops1 ops2 a b out Hops1 Hops2)) as Hsub.
  assert (HopsLcs : Forall (fun n => isCombinator n = true) (lcs DefaultLcsComparator ops1 ops2)).
  { rewrite Forall_forall in Hops1 |- *. intros n Hn. apply Hops1.
    apply list_elem_of_In. apply list_elem_of_In in Hn.
    by eapply sublist_subseteq. }
  cbn zeta. split.
  - rewrite nodes_equal_operators by done. rewrite <- Hl. split; [|by intros ->].
    intros Hc. apply sublist_same_length; [done|].
    apply (f_equal length) in Hc. rewrite !length_fmap in Hc. lia.
  - rewrite nodes_equal_operators by done. exact Hr.
Qed.

(** X5.  More than one trailing operator on a side (lines 943-960).  When
    the two sequences end with the operators [ops1] and [ops2], and one of
    them has more than one, [mergeFinalOps] does not look at the selectors:
    it gives nil when neither list of combinators is a subsequence of the
    other, and otherwise puts the longer list ([ops2] when they are equally
    long) in front of [res], in its order; the sequences are left without
    their operators. *)
Theorem mergeFinalOps_several_operators (lf1 lf2 lfr : bool) (rest1 rest2 ops1 ops2 res : list Node) :
  Forall (fun n => isCombinator n = true) ops1 →
  Forall (fun n => isCombinator n = true) ops2 →
  (∀ n, list.last rest1 = Some n → isCombinator n = false) →
  (∀ n, list.last rest2 = Some n → isCombinator n = false) →
  1 < length ops1 ∨ 1 < length ops2 →
  let c1 := node_combinator <$> ops1 in
  let c2 := node_combinator <$> ops2 in
  let run := mergeFinalOps (CollectionNode lf1 (rest1 ++ ops1)) (CollectionNode lf2 (rest2 ++ ops2))
                           (CollectionNode lfr res) in
  (¬ c1 `sublist_of` c2 → ¬ c2 `sublist_of` c1 →
   run = Returns (CollectionNode lf1 rest1, CollectionNode lf2 rest2, createNil))
  ∧ (c1 `sublist_of` c2 ∨ c2 `sublist_of` c1 →
     run = Returns (CollectionNode lf1 rest1, CollectionNode lf2 rest2,
                    CollectionNode lfr ((if length ops2 <? length ops1 then ops1 else ops2) ++ res))).
Proof.
  intros Hops1 Hops2 Hrest1 Hrest2 Hlen c1 c2 run.
  assert (Hr1 : Forall (fun n => isCombinator n = true) (rev ops1)).
  { rewrite Forall_forall in Hops1 |- *. intros n Hn. apply Hops1. by apply in_rev. }
  assert (Hr2 : Forall (fun n => isCombinator n = true) (rev ops2)).
  { rewrite Forall_forall in Hops2 |- *. intros n Hn. apply Hops2. by apply in_rev. }
  assert (Hrun : run =
    let opsLcs := CollectionNode false (lcs DefaultLcsComparator (rev ops1) (rev ops2)) in
    Returns (CollectionNode lf1 rest1, CollectionNode lf2 rest2,
             if negb (nodes_equal opsLcs (CollectionNode false (rev ops1))
                      || nodes_equal opsLcs (CollectionNode false (rev ops2)))
             then createNil
             else CollectionNode lfr
                    ((if length ops2 <? length ops1 then ops1 else ops2) ++ res))).
  { unfold run, mergeFinalOps. cbn [collection deref Outcome_bind got_line_feed].
    rewrite mergeFinalOps_rec_unfold. unfold mergeFinalOps_step.
    rewrite !getAndRemoveFinalOps_app by done.
    assert (Hlong : (1 <? length (rev ops1)) || (1 <? length (rev ops2)) = true).
    { rewrite !length_rev. apply orb_true_iff.
      destruct Hlen; [left|right]; by apply Nat.ltb_lt. }
    destruct (rev ops1) as [|o1 r1] eqn:E1, (rev ops2) as [|o2 r2] eqn:E2;
      try (exfalso; cbn in Hlong; discriminate).
    all: rewrite Hlong; rewrite <- ?E1, <- ?E2, ?length_rev, ?rev_involutive.
    all: cbn zeta.
    all: destruct (negb _); [done|].
    all: destruct (length ops2 <? length ops1) eqn:Hlt; cbn [Outcome_bind with_collection got_line_feed];
      try done.
    all: exfalso; apply (f_equal (@length Node)) in E1, E2; rewrite ?length_rev in *;
      cbn [length] in *; apply Nat.ltb_lt in Hlt || apply Nat.ltb_ge in Hlt; lia. }
  destruct (lcs_operators_equal (rev ops1) (rev ops2) Hr1 Hr2) as [Heq1 Heq2].
  rewrite !fmap_rev, !sublist_rev_iff in Heq1, Heq2. fold c1 c2 in Heq1, Heq2.
  rewrite Hrun. cbn zeta. split.
  - intros Hn1 Hn2.
    rewrite (not_true_is_false _ (fun E => Hn1 (proj1 Heq1 E))).
    rewrite (not_true_is_false _ (fun E => Hn2 (proj1 Heq2 E))). done.
  - intros [Hs|Hs].
    + apply Heq1 in Hs. by rewrite Hs.
    + apply Heq2 in Hs. rewrite Hs. by rewrite orb_true_r.
Qed.

Ltac merge_final_step :=
  unfold mergeFinalOps; cbn [collection deref Outcome_bind got_line_feed];
  rewrite mergeFinalOps_rec_unfold; unfold mergeFinalOps_step at 1;
  rewrite ?getAndRemoveFinalOps_snoc, ?getAndRemoveFinalOps_selector by done;
  cbn [length Nat.ltb Nat.leb orb].

(** X6.  [~] against [+] (lines 1026-1076).  When one sequence ends with
    [tilde ~] and the other with [plus +], whichever is which:
    [mergeFinalOps] goes on with the two sequences cut before these
    compounds, and with [res] extended in front by [plus +] when [tilde] is
    a superselector of [plus], otherwise by one node holding the
    alternative [tilde ~ plus +] and, exactly when [plus] unifies with
    [tilde], the unified compound followed by [+]. *)
Theorem mergeFinalOps_tilde_plus (lf1 lf2 lfr gt gp kt kp : bool) (l1 l2 res : list Node)
    (tilde plus : Complex_Selector) :
  let tildeSel := SelectorNode gt tilde in
  let plusSel := SelectorNode gp plus in
  let tildeOp := CombinatorNode kt PRECEDES in
  let plusOp := CombinatorNode kp ADJACENT_TO in
  let continue_with (pushed : list Node) :=
    mergeFinalOps (CollectionNode lf1 l1) (CollectionNode lf2 l2)
                  (CollectionNode lfr (pushed ++ res)) in
  let outcome :=
    if is_superselector_of tilde plus then continue_with [plusSel; plusOp]
    else match head plus, head tilde with
         | Some hp, Some ht =>
             continue_with
               [CollectionNode false
                  ([CollectionNode false [tildeSel; createCombinator PRECEDES;
                                          plusSel; createCombinator ADJACENT_TO]]
                   ++ match unify_with hp ht with
                      | Some merged =>
                          [CollectionNode false
                             [createSelector (set_head plus (Some merged));
                              createCombinator ADJACENT_TO]]
                      | None => []
                      end)]
         | _, _ => Undefined
         end in
  mergeFinalOps (CollectionNode lf1 (l1 ++ [tildeSel; tildeOp]))
                (CollectionNode lf2 (l2 ++ [plusSel; plusOp]))
                (CollectionNode lfr res) = outcome
  ∧ mergeFinalOps (CollectionNode lf1 (l1 ++ [plusSel; plusOp]))
                  (CollectionNode lf2 (l2 ++ [tildeSel; tildeOp]))
                  (CollectionNode lfr res) = outcome.
Proof.
  intros tildeSel plusSel tildeOp plusOp continue_with outcome.
  unfold outcome, continue_with.
  split; merge_final_step; unfold mergeFinalOps_both;
    rewrite !back_snoc, !pop_back_snoc;
    cbn [Outcome_bind node_combinator tildeOp plusOp tildeSel plusSel selector deref];
    repeat (case_bool_decide; try done);
    cbn [andb orb selector deref Outcome_bind tildeSel plusSel];
    (destruct (is_superselector_of tilde plus); [reflexivity|]);
    unfold unify_heads;
    (destruct (head plus) as [hp|]; [|reflexivity]);
    (destruct (head tilde) as [ht|]; [|reflexivity]);
    cbn [deref Outcome_bind]; unfold mergedPerm;
    destruct (unify_with hp ht); reflexivity.
Qed.

(** X7.  [>] against [~] or [+] (lines 1077-1091).  When one sequence ends
    with [sel1 >] and the other with [sel2 ~] or [sel2 +], the sibling pair
    is put in front of [res] and taken off its sequence, and the sequence
    that ends with [>] is looked at again as it is. *)
Theorem mergeFinalOps_child_waits (lf1 lf2 lfr g1 g2 k1 k2 : bool) (l1 l2 res : list Node)
    (s1 s2 : Complex_Selector) (sibling : Combinator) :
  sibling = PRECEDES ∨ sibling = ADJACENT_TO →
  let sel1 := SelectorNode g1 s1 in
  let sel2 := SelectorNode g2 s2 in
  let op1 := CombinatorNode k1 PARENT_OF in
  let op2 := CombinatorNode k2 sibling in
  mergeFinalOps (CollectionNode lf1 (l1 ++ [sel1; op1]))
                (CollectionNode lf2 (l2 ++ [sel2; op2]))
                (CollectionNode lfr res)
  = mergeFinalOps (CollectionNode lf1 (l1 ++ [sel1; op1])) (CollectionNode lf2 l2)
                  (CollectionNode lfr ([sel2; op2] ++ res))
  ∧ mergeFinalOps (CollectionNode lf1 (l1 ++ [sel2; op2]))
                  (CollectionNode lf2 (l2 ++ [sel1; op1]))
                  (CollectionNode lfr res)
    = mergeFinalOps (CollectionNode lf1 l1) (CollectionNode lf2 (l2 ++ [sel1; op1]))
                    (CollectionNode lfr ([sel2; op2] ++ res)).
Proof.
  intros Hsibling sel1 sel2 op1 op2.
  split.
  - merge_final_step. unfold mergeFinalOps_both.
    rewrite !back_snoc, !pop_back_snoc.
    cbn [Outcome_bind node_combinator op1 op2].
    destruct Hsibling as [-> | ->]; reflexivity.
  - merge_final_step. unfold mergeFinalOps_both.
    rewrite !back_snoc, !pop_back_snoc.
    cbn [Outcome_bind node_combinator op1 op2].
    destruct Hsibling as [-> | ->]; reflexivity.
Qed.

(** X8.  The same combinator on both sides, other than [~], and the pairs
    without a rule (lines 1093-1116).  When both sequences end with the
    same combinator, the two compounds before it are unified: if they do
    not unify the merge is rejected with nil, otherwise the unified
    compound and the combinator are put in front of [res].  Two different
    combinators of which one is the reference combinator or the descendant
    combinator are rejected with nil. *)
Theorem mergeFinalOps_same_or_unknown (lf1 lf2 lfr g1 g2 k1 k2 : bool) (l1 l2 res : list Node)
    (s1 s2 : Complex_Selector) (h1 h2 : Compound_Selector) (c1 c2 : Combinator) :
  head s1 = Some h1 → head s2 = Some h2 →
  let sel1 := SelectorNode g1 s1 in
  let sel2 := SelectorNode g2 s2 in
  let op1 := CombinatorNode k1 c1 in
  let op2 := CombinatorNode k2 c2 in
  let run := mergeFinalOps (CollectionNode lf1 (l1 ++ [sel1; op1]))
                           (CollectionNode lf2 (l2 ++ [sel2; op2]))
                           (CollectionNode lfr res) in
  let rejected := Returns (CollectionNode lf1 l1, CollectionNode lf2 l2, createNil) in
  (c1 = c2 → c1 ≠ PRECEDES →
   run = match unify_with h1 h2 with
         | None => rejected
         | Some merged =>
             mergeFinalOps (CollectionNode lf1 l1) (CollectionNode lf2 l2)
               (CollectionNode lfr ([createSelector (set_head s1 (Some merged)); op1] ++ res))
         end)
  ∧ (c1 ≠ c2 →
     c1 = REFERENCE ∨ c2 = REFERENCE ∨ c1 = ANCESTOR_OF ∨ c2 = ANCESTOR_OF →
     run = rejected).
Proof.
  intros Hh1 Hh2 sel1 sel2 op1 op2 run rejected. unfold run, rejected.
  split.
  - intros <- Hc. merge_final_step. unfold mergeFinalOps_both.
    rewrite !back_snoc, !pop_back_snoc.
    cbn [Outcome_bind node_combinator op1 op2 sel1 sel2 selector deref].
    unfold unify_heads. rewrite Hh1, Hh2. cbn [deref Outcome_bind].
    destruct c1; try done; cbn; destruct (unify_with h1 h2); reflexivity.
  - intros Hne Hc. merge_final_step. unfold mergeFinalOps_both.
    rewrite !back_snoc, !pop_back_snoc.
    cbn [Outcome_bind node_combinator op1 op2 sel1 sel2 selector deref].
    destruct c1, c2; try done;
      try (destruct Hc as [Hc|[Hc|[Hc|Hc]]]; discriminate); reflexivity.
Qed.

(** X9.  An operator on one side only (lines 1120-1149).  When only the
    first sequence ends with an operator, the compound before it and the
    operator are put in front of [res]; when the operator is [>] and the
    other sequence ends with a superselector of that compound, this
    superselector is dropped from the other sequence. *)
Theorem mergeFinalOps_one_sided (lf1 lf2 lfr g1 g2 k1 : bool) (l1 l2 res : list Node)
    (s1 s2 : Complex_Selector) (c1 : Combinator) :
  let sel1 := SelectorNode g1 s1 in
  let sel2 := SelectorNode g2 s2 in
  let op1 := CombinatorNode k1 c1 in
  mergeFinalOps (CollectionNode lf1 (l1 ++ [sel1; op1]))
                (CollectionNode lf2 (l2 ++ [sel2]))
                (CollectionNode lfr res)
  = mergeFinalOps (CollectionNode lf1 l1)
      (CollectionNode lf2 (if bool_decide (c1 = PARENT_OF) && is_superselector_of s2 s1
                           then l2 else l2 ++ [sel2]))
      (CollectionNode lfr ([sel1; op1] ++ res))
  ∧ mergeFinalOps (CollectionNode lf1 (l1 ++ [sel1; op1])) (CollectionNode lf2 [])
                  (CollectionNode lfr res)
    = mergeFinalOps (CollectionNode lf1 l1) (CollectionNode lf2 [])
                    (CollectionNode lfr ([sel1; op1] ++ res)).
Proof.
  intros sel1 sel2 op1. subst sel1 sel2 op1. split.
  - merge_final_step. unfold mergeFinalOps_one.
    cbn [node_combinator].
    assert (Hne : bool_decide (l2 ++ [SelectorNode g2 s2] = []) = false).
    { apply bool_decide_eq_false_2. by destruct l2. }
    rewrite Hne. clear Hne. cbn [negb]. rewrite andb_true_r.
    rewrite !back_snoc.
    destruct (bool_decide (c1 = PARENT_OF)); cbn [andb Outcome_bind selector deref].
    + rewrite !pop_back_snoc.
      destruct (is_superselector_of s2 s1); reflexivity.
    + rewrite !pop_back_snoc. reflexivity.
  - merge_final_step. unfold getAndRemoveFinalOps at 1. cbn [rev getAndRemoveInitialOps app].
    unfold mergeFinalOps_one. rewrite andb_false_r.
    cbn [Outcome_bind]. rewrite back_snoc, pop_back_snoc. reflexivity.
Qed.

End MergeFinalOpsCases.

(** ** mergeFinalOps: what every call keeps *)

Lemma bind_not_thrown {A B : Type} (m : Outcome A) (k : A → Outcome B) (msg : string) :
  m ≠ Thrown msg → (∀ a, k a ≠ Thrown msg) → Outcome_bind m k ≠ Thrown msg.
Proof.
  destruct m; simpl; intros Hm Hk; first [done|apply Hk|idtac].
  intros [= ->]. by apply Hm.
Qed.

Lemma deref_not_thrown {A : Type} (p : option A) (msg : string) : deref p ≠ Thrown msg.
Proof. by destruct p. Qed.

Lemma back_not_thrown (l : list Node) (msg : string) : back l ≠ Thrown msg.
Proof. unfold back. by destruct (list.last l). Qed.

Ltac not_thrown :=
  repeat first
    [ discriminate
    | apply deref_not_thrown
    | apply back_not_thrown
    | apply bind_not_thrown; [|intros ?]
    | match goal with
      | |- (if ?b then _ else _) ≠ Thrown _ => destruct b
      | |- (match ?p with _ => _ end) ≠ Thrown _ => destruct p
      end ].

Lemma pop_back_prefix (l : list Node) : pop_back l `prefix_of` l.
Proof.
  destruct l as [|x l] using rev_ind; [by exists []|].
  rewrite pop_back_snoc. by apply prefix_app_r.
Qed.

Section MergeFinalOpsInvariants.
Context `{Ast}.

Lemma getAndRemoveFinalOps_prefix l rest ops :
  getAndRemoveFinalOps l [] = (rest, ops) → l = rest ++ rev ops.
Proof.
  unfold getAndRemoveFinalOps.
  destruct (getAndRemoveInitialOps_spec (rev l) []) as (taken & r & Hrun & Hl & _).
  rewrite Hrun. cbn [app]. intros [= <- <-].
  by rewrite <- rev_app_distr, <- Hl, rev_involutive.
Qed.

Lemma mergeFinalOps_both_keeps op1 op2 seq1 seq2 res step :
  mergeFinalOps_both op1 op2 seq1 seq2 res = Returns step →
  final_ops_step_keeps (seq1 ++ [op1]) (seq2 ++ [op2]) res step.
Proof.
  unfold mergeFinalOps_both. intros Hrun.
  apply bind_returns in Hrun as (sel1 & Hb1 & Hrun).
  apply bind_returns in Hrun as (sel2 & Hb2 & Hrun).
  pose proof (back_returns _ _ Hb1) as E1. pose proof (back_returns _ _ Hb2) as E2.
  assert (P1 : pop_back seq1 `prefix_of` seq1 ++ [op1])
    by (apply prefix_app_r, pop_back_prefix).
  assert (P2 : pop_back seq2 `prefix_of` seq2 ++ [op2])
    by (apply prefix_app_r, pop_back_prefix).
  assert (Q1 : pop_back seq1 ++ [sel1; op1] `prefix_of` seq1 ++ [op1]).
  { rewrite E1 at 2. by rewrite <- app_assoc. }
  assert (Q2 : pop_back seq2 ++ [sel2; op2] `prefix_of` seq2 ++ [op2]).
  { rewrite E2 at 2. by rewrite <- app_assoc. }
  repeat match type of Hrun with
         | Outcome_bind _ _ = Returns _ => apply bind_returns in Hrun as (? & _ & Hrun)
         | (if ?b then _ else _) = Returns _ => destruct b
         | match ?p with Some _ => _ | None => _ end = Returns _ => destruct p
         | Returns _ = Returns _ => injection Hrun as <-
         end; try discriminate; cbn [final_ops_step_keeps];
    (split_and!; [done|done|]);
    first [ by left
          | by eexists [_; _]
          | by eexists [_] ].
Qed.

Lemma mergeFinalOps_one_keeps op seq other res seq' other' res' :
  mergeFinalOps_one op seq other res = Returns (seq', other', res') →
  seq' `prefix_of` seq ++ [op] ∧ other' `prefix_of` other ∧ ∃ pushed, res' = pushed ++ res.
Proof.
  unfold mergeFinalOps_one. intros Hrun.
  apply bind_returns in Hrun as (o & Ho & Hrun).
  apply bind_returns in Hrun as (seqBack & Hb & Hrun).
  injection Hrun as <- <- <-.
  split_and!.
  - apply prefix_app_r, pop_back_prefix.
  - destruct (_ && _); [|by injection Ho as <-].
    repeat (apply bind_returns in Ho as (? & _ & Ho)).
    destruct (is_superselector_of _ _); injection Ho as <-; [apply pop_back_prefix|done].
  - by eexists [_; _].
Qed.

Lemma mergeFinalOps_step_keeps seq1 seq2 res step :
  mergeFinalOps_step seq1 seq2 res = Returns step →
  final_ops_step_keeps seq1 seq2 res step.
Proof.
  unfold mergeFinalOps_step.
  destruct (getAndRemoveFinalOps seq1 []) as [l1 ops1] eqn:H1.
  destruct (getAndRemoveFinalOps seq2 []) as [l2 ops2] eqn:H2.
  apply getAndRemoveFinalOps_prefix in H1, H2. subst seq1 seq2.
  assert (P1 : l1 `prefix_of` l1 ++ rev ops1) by (by apply prefix_app_r).
  assert (P2 : l2 `prefix_of` l2 ++ rev ops2) by (by apply prefix_app_r).
  destruct ops1 as [|op1 ops1], ops2 as [|op2 ops2].
  - intros [= <-]. cbn. split_and!; [done..|]. right. by exists [].
  - destruct ((1 <? length []) || (1 <? length (op2 :: ops2))) eqn:Hlong.
    { repeat match goal with |- context [if ?b then _ else _] => destruct b end;
        intros [= <-]; cbn [final_ops_step_keeps]; (split_and!; [done|done|]);
        first [by left|right; by exists []|right; by eexists]. }
    destruct ops2; [|cbn in Hlong; discriminate].
    intros Hrun. apply bind_returns in Hrun as ([[? ?] ?] & Hone & Hrun).
    injection Hrun as <-. apply mergeFinalOps_one_keeps in Hone as (Q1 & Q2 & Q3).
    cbn [final_ops_step_keeps rev app]. split_and!; [|done..].
    etrans; [exact Q2|]. by rewrite app_nil_r.
  - destruct ((1 <? length (op1 :: ops1)) || (1 <? length [])) eqn:Hlong.
    { repeat match goal with |- context [if ?b then _ else _] => destruct b end;
        intros [= <-]; cbn [final_ops_step_keeps]; (split_and!; [done|done|]);
        first [by left|right; by exists []|right; by eexists]. }
    destruct ops1; [|cbn in Hlong; discriminate].
    intros Hrun. apply bind_returns in Hrun as ([[? ?] ?] & Hone & Hrun).
    injection Hrun as <-. apply mergeFinalOps_one_keeps in Hone as (Q1 & Q2 & Q3).
    cbn [final_ops_step_keeps rev app]. split_and!; [done| |done].
    etrans; [exact Q2|]. by rewrite app_nil_r.
  - destruct ((1 <? length (op1 :: ops1)) || (1 <? length (op2 :: ops2))) eqn:Hlong.
    { repeat match goal with |- context [if ?b then _ else _] => destruct b end;
        intros [= <-]; cbn [final_ops_step_keeps]; (split_and!; [done|done|]);
        first [by left|right; by exists []|right; by eexists]. }
    destruct ops1; [|cbn in Hlong; discriminate].
    destruct ops2; [|cbn in Hlong; rewrite ?orb_true_r in Hlong; discriminate].
    intros Hrun. by apply mergeFinalOps_both_keeps in Hrun.
Qed.

Lemma mergeFinalOps_rec_keeps depth :
  ∀ seq1 seq2 res seq1' seq2' result,
    mergeFinalOps_rec depth seq1 seq2 res = Returns (seq1', seq2', result) →
    seq1' `prefix_of` seq1 ∧ seq2' `prefix_of` seq2
    ∧ (result = createNil ∨ ∃ pushed, result = CollectionNode false (pushed ++ res)).
Proof.
  induction depth as [|depth IH]; intros seq1 seq2 res seq1' seq2' result; [done|].
  cbn [mergeFinalOps_rec]. intros Hrun.
  apply bind_returns in Hrun as (step & Hstep & Hrun).
  apply mergeFinalOps_step_keeps in Hstep.
  destruct step as [l1 l2 r|l1 l2 r]; cbn [final_ops_step_keeps] in Hstep.
  - by injection Hrun as <- <- <-.
  - destruct Hstep as (P1 & P2 & pushed & ->).
    apply IH in Hrun as (Q1 & Q2 & Q3).
    split_and!; [by etrans|by etrans|].
    destruct Q3 as [->|[pushed' ->]]; [by left|].
    right. exists (pushed' ++ pushed). by rewrite <- app_assoc.
Qed.

Lemma mergeFinalOps_step_not_thrown seq1 seq2 res msg :
  mergeFinalOps_step seq1 seq2 res ≠ Thrown msg.
Proof.
  unfold mergeFinalOps_step, mergeFinalOps_both, mergeFinalOps_one, unify_heads.
  destruct (getAndRemoveFinalOps seq1 []) as [l1 ops1].
  destruct (getAndRemoveFinalOps seq2 []) as [l2 ops2].
  destruct ops1 as [|op1 ops1], ops2 as [|op2 ops2]; not_thrown.
Qed.

Lemma mergeFinalOps_rec_not_thrown depth seq1 seq2 res msg :
  mergeFinalOps_rec depth seq1 seq2 res ≠ Thrown msg.
Proof.
  revert seq1 seq2 res. induction depth as [|depth IH]; intros seq1 seq2 res; [done|].
  cbn [mergeFinalOps_rec].
  apply bind_not_thrown; [apply mergeFinalOps_step_not_thrown|].
  intros [l1 l2 r|l1 l2 r]; [done|apply IH].
Qed.

(** X10.  [mergeFinalOps] ends, and raises no error: its recursion, which
    looks at two nodes less at every call, gives a value or stops at an
    undefined access.  When it returns, the two sequences have only been
    cut at the back, and the node returned is nil or [res] with nodes put
    in front of it. *)
Theorem mergeFinalOps_cuts_and_prepends (lf1 lf2 lfr : bool) (l1 l2 res : list Node) :
  let run := mergeFinalOps (CollectionNode lf1 l1) (CollectionNode lf2 l2)
                           (CollectionNode lfr res) in
  run ≠ OutOfFuel
  ∧ (∀ msg, run ≠ Thrown msg)
  ∧ (∀ seq1 seq2 result, run = Returns (seq1, seq2, result) →
       ∃ l1' l2', seq1 = CollectionNode lf1 l1' ∧ seq2 = CollectionNode lf2 l2'
                  ∧ l1' `prefix_of` l1 ∧ l2' `prefix_of` l2
                  ∧ (result = createNil
                     ∨ ∃ pushed, result = CollectionNode lfr (pushed ++ res))).
Proof.
  intros run. split_and!.
  - apply mergeFinalOps_total.
  - intros msg. unfold run, mergeFinalOps. cbn [collection deref Outcome_bind].
    apply bind_not_thrown; [apply mergeFinalOps_rec_not_thrown|]. by intros [[? ?] ?].
  - intros seq1 seq2 result. unfold run, mergeFinalOps.
    cbn [collection deref Outcome_bind got_line_feed]. intros Hrun.
    apply bind_returns in Hrun as ([[l1' l2'] r] & Hrec & Hrun).
    apply mergeFinalOps_rec_keeps in Hrec as (P1 & P2 & P3).
    injection Hrun as <- <- <-. exists l1', l2'. split_and!; [done..|].
    destruct P3 as [->|[pushed ->]]; [by left|]. right. by exists pushed.
Qed.

(** X11.  A sequence that is one operator and nothing else.  When the other
    sequence is empty or ends with a compound, or with a compound and one
    operator, [mergeFinalOps] reads the back of the sequence after taking
    its operator off: the back of an empty deque, which is undefined. *)
Theorem mergeFinalOps_lone_operator_undefined (lf1 lf2 lfr k g k2 : bool) (c c2 : Combinator)
    (l2 res : list Node) (s : Complex_Selector) :
  let seq1 := CollectionNode lf1 [CombinatorNode k c] in
  let res := CollectionNode lfr res in
  mergeFinalOps seq1 (CollectionNode lf2 []) res = Undefined
  ∧ mergeFinalOps seq1 (CollectionNode lf2 (l2 ++ [SelectorNode g s])) res = Undefined
  ∧ mergeFinalOps seq1 (CollectionNode lf2 (l2 ++ [SelectorNode g s; CombinatorNode k2 c2])) res
    = Undefined.
Proof.
  intros seq1 res'. subst seq1 res'.
  assert (Hlone : getAndRemoveFinalOps [CombinatorNode k c] [] = ([], [CombinatorNode k c]))
    by done.
  split_and!.
  - unfold mergeFinalOps. cbn [collection deref Outcome_bind].
    cbn [length Nat.add mergeFinalOps_rec]. unfold mergeFinalOps_step at 1.
    rewrite Hlone. cbn. unfold mergeFinalOps_one. cbn.
    by rewrite andb_false_r.
  - unfold mergeFinalOps. cbn [collection deref Outcome_bind].
    rewrite mergeFinalOps_rec_unfold. unfold mergeFinalOps_step at 1.
    rewrite Hlone, getAndRemoveFinalOps_selector. cbn [length Nat.ltb Nat.leb orb].
    unfold mergeFinalOps_one. cbn [node_combinator].
    destruct (bool_decide (c = PARENT_OF) && _); [|done].
    rewrite back_snoc. done.
  - unfold mergeFinalOps. cbn [collection deref Outcome_bind].
    rewrite mergeFinalOps_rec_unfold. unfold mergeFinalOps_step at 1.
    rewrite Hlone, getAndRemoveFinalOps_snoc by done. done.
Qed.

End MergeFinalOpsInvariants.

(** ** subweave and weave: the simple cases *)

Section SubweaveWeaveFacts.
Context `{Ast}.

(** X12.  [subweave] on the edges of its domain.  With an empty first
    sequence it returns the second one as the only result, and with an
    empty second sequence the first one.  It rejects two sequences with
    nil when they start with operators of which neither list is a
    subsequence of the other; the rest of the sequences is not looked
    at. *)
Theorem subweave_edges (lf1 lf2 : bool) (ops1 ops2 rest1 rest2 : list Node) :
  (∀ two, subweave (CollectionNode lf1 []) two = Returns (CollectionNode false [two]))
  ∧ (∀ l1, l1 ≠ [] →
       subweave (CollectionNode lf1 l1) (CollectionNode lf2 [])
       = Returns (CollectionNode false [CollectionNode lf1 l1]))
  ∧ (Forall (fun n => isCombinator n = true) ops1 →
     Forall (fun n => isCombinator n = true) ops2 →
     (∀ n, rest1 !! 0 = Some n → isCombinator n = false) →
     (∀ n, rest2 !! 0 = Some n → isCombinator n = false) →
     ¬ node_combinator <$> ops1 `sublist_of` node_combinator <$> ops2 →
     ¬ node_combinator <$> ops2 `sublist_of` node_combinator <$> ops1 →
     subweave (CollectionNode lf1 (ops1 ++ rest1)) (CollectionNode lf2 (ops2 ++ rest2))
     = Returns createNil).
Proof.
  split_and!.
  - done.
  - intros l1 Hl1. unfold subweave. cbn [collection deref Outcome_bind].
    by destruct l1.
  - intros Hops1 Hops2 Hrest1 Hrest2 Hn1 Hn2.
    assert (Hne1 : ops1 ≠ []).
    { intros ->. apply Hn1. apply sublist_nil_l. }
    assert (Hne2 : ops2 ≠ []).
    { intros ->. apply Hn2. apply sublist_nil_l. }
    unfold subweave. cbn [collection deref Outcome_bind].
    destruct (ops1 ++ rest1) as [|n1 l1] eqn:E1; [by destruct ops1|].
    destruct (ops2 ++ rest2) as [|n2 l2] eqn:E2; [by destruct ops2|].
    rewrite <- E1, <- E2. unfold subweave_merge, mergeInitialOps.
    cbn [collection deref Outcome_bind].
    rewrite !getAndRemoveInitialOps_app by done. cbn [app].
    destruct (lcs_operators_equal ops1 ops2 Hops1 Hops2) as [Heq1 Heq2].
    cbn zeta in Heq1, Heq2.
    rewrite (not_true_is_false _ (fun E => Hn1 (proj1 Heq1 E))).
    rewrite (not_true_is_false _ (fun E => Hn2 (proj1 Heq2 E))). done.
Qed.

Lemma weave_afters_skips_empty (pre post : list Node) (g : bool) (befores : list Node) :
  weave_afters (pre ++ CollectionNode g [] :: post) befores = weave_afters (pre ++ post) befores.
Proof.
  revert befores. induction pre as [|afterFront pre IH]; intros befores; [done|].
  cbn [app weave_afters].
  destruct (weave_round befores afterFront) as [[befores'|]| | |]; cbn [Outcome_bind];
    [apply IH|done..].
Qed.

Lemma weave_afters_singletons (ns done_nodes : list Node) :
  done_nodes ≠ [] →
  weave_afters ((fun n => CollectionNode false [n]) <$> ns) [CollectionNode false done_nodes]
  = Returns (CollectionNode false [CollectionNode false (done_nodes ++ ns)]).
Proof.
  revert done_nodes. induction ns as [|n ns IH]; intros done_nodes Hne.
  - cbn. by rewrite app_nil_r.
  - cbn [fmap list_fmap weave_afters]. unfold weave_round.
    cbn [collection deref Outcome_bind back list.last pop_back removelast with_collection
         got_line_feed weave_befores].
    unfold subweave. cbn [collection deref Outcome_bind].
    destruct done_nodes as [|d ds]; [done|].
    cbn. unfold plus. cbn. unfold with_collection. cbn.
    rewrite IH by done. cbn. by rewrite <- app_assoc.
Qed.

(** X13.  [weave] on simple paths.  The empty path weaves to the one empty
    sequence; an empty sequence in a path is skipped; a path of one
    sequence weaves to that sequence; and a path of one-node sequences
    weaves to the one sequence of these nodes, in their order.  The line
    feed hints of the sequences are not kept. *)
Theorem weave_simple_paths (lf g : bool) :
  weave (CollectionNode lf []) = Returns (CollectionNode false [CollectionNode false []])
  ∧ (∀ pre post,
       weave (CollectionNode lf (pre ++ CollectionNode g [] :: post))
       = weave (CollectionNode lf (pre ++ post)))
  ∧ (∀ l, l ≠ [] →
       weave (CollectionNode lf [CollectionNode g l])
       = Returns (CollectionNode false [CollectionNode false l]))
  ∧ (∀ ns,
       weave (CollectionNode lf ((fun n => CollectionNode false [n]) <$> ns))
       = Returns (CollectionNode false [CollectionNode false ns])).
Proof.
  split_and!.
  - done.
  - intros pre post. unfold weave. cbn [collection deref Outcome_bind].
    apply weave_afters_skips_empty.
  - intros l Hl. unfold weave. cbn [collection deref Outcome_bind weave_afters].
    unfold weave_round. cbn [collection deref Outcome_bind].
    destruct l as [|x l] using rev_ind; [done|]. clear IHl.
    assert (Hsnoc : ∃ y l', l ++ [x] = y :: l') by (destruct l; eauto).
    destruct Hsnoc as (y & l' & Hsnoc). rewrite Hsnoc at 1. rewrite back_snoc.
    cbn [Outcome_bind weave_befores with_collection got_line_feed createCollection].
    rewrite pop_back_snoc. unfold subweave. cbn [collection deref Outcome_bind].
    cbn. unfold plus. cbn. unfold with_collection. cbn.
    done.
  - intros [|n ns]; [done|].
    unfold weave. cbn [collection deref Outcome_bind fmap list_fmap weave_afters].
    unfold weave_round.
    cbn [collection deref Outcome_bind back list.last pop_back removelast with_collection
         got_line_feed weave_befores createCollection].
    unfold subweave. cbn [collection deref Outcome_bind].
    cbn. unfold plus. cbn. unfold with_collection. cbn.
    by rewrite weave_afters_singletons.
Qed.

End SubweaveWeaveFacts.

(** ** What the driver does to the store *)

Lemma set_extended_idemp (c : Compound_Selector) : set_extended (set_extended c) = set_extended c.
Proof. by destruct c. Qed.

Lemma marks_only_refl (heap : Heap) : marks_only heap heap.
Proof. apply Forall2_same_length_lookup_2; [done|]. intros i c c' Hc Hc'. left. congruence. Qed.

Lemma marks_only_trans (h1 h2 h3 : Heap) : marks_only h1 h2 → marks_only h2 h3 → marks_only h1 h3.
Proof.
  intros H12. revert h3. induction H12 as [|c1 c2 h1 h2 Hc _ IH]; intros h3 H23.
  - apply Forall2_nil_inv_l in H23 as ->. constructor.
  - apply Forall2_cons_inv_l in H23 as (c3 & h3' & Hc' & H23 & ->).
    constructor; [|by apply IH].
    destruct Hc as [-> | ->], Hc' as [-> | ->]; rewrite ?set_extended_idemp; auto.
Qed.

Lemma marks_only_insert (heap : Heap) (address : nat) (c : Compound_Selector) :
  heap !! address = Some c → marks_only heap (<[address := set_extended c]> heap).
Proof.
  intros Hc. unfold marks_only, Heap in *.
  apply Forall2_same_length_lookup_2; [by rewrite length_insert|].
  intros i x y Hx Hy. destruct (decide (i = address)) as [->|Hne].
  - rewrite list_lookup_insert_eq in Hy by (by eapply lookup_lt_Some).
    right. congruence.
  - rewrite list_lookup_insert_ne in Hy by done. left. congruence.
Qed.

Lemma marks_only_lookup (heap heap' : Heap) (address : nat) (c : Compound_Selector) :
  marks_only heap heap' → heap !! address = Some c →
  ∃ c', heap' !! address = Some c' ∧ (c' = c ∨ c' = set_extended c).
Proof. intros Hm Hc. by apply (Forall2_lookup_l _ _ _ _ _ Hm Hc). Qed.

Lemma marked_mono (heap heap' : Heap) (address : nat) :
  marks_only heap heap' → marked heap address → marked heap' address.
Proof.
  intros Hm (e & He & Hext).
  destruct (marks_only_lookup _ _ _ _ Hm He) as (e' & He' & [-> | ->]).
  - by exists e.
  - exists (set_extended e). split; [done|]. by destruct e.
Qed.

Lemma entry_satisfied_mono (heap heap' : Heap) (it : ExtensionPair) :
  marks_only heap heap' → entry_satisfied heap it = true → entry_satisfied heap' it = true.
Proof.
  intros Hm. unfold entry_satisfied. destruct it.2 as [address|]; [|done].
  cbn [mbind option_bind]. destruct (heap !! address) as [e|] eqn:He; [|done].
  destruct (marks_only_lookup _ _ _ _ Hm He) as (e' & -> & [-> | ->]); [done|].
  intros _. by destruct e.
Qed.

Lemma frames_ret {A : Type} (a : A) : frames (St_ret a).
Proof. intros heap a' heap' [= <- <-]. apply marks_only_refl. Qed.

Lemma frames_lift {A : Type} (m : Outcome A) : frames (St_lift m).
Proof.
  intros heap a heap'. unfold St_lift. destruct m; try discriminate.
  intros [= <- <-]. apply marks_only_refl.
Qed.

Lemma frames_bind {A B : Type} (m : St A) (k : A → St B) :
  frames m → (∀ a, frames (k a)) → frames (St_bind m k).
Proof.
  intros Hm Hk heap b heap'. unfold St_bind.
  destruct (m heap) as [[a heap1]| | |] eqn:Hrun; try discriminate.
  cbn [Outcome_bind fst snd]. intros Hk'.
  eapply marks_only_trans; [by eapply Hm|by eapply Hk].
Qed.

Section StoreFacts.
Context `{Ast} (subset_map : ExtensionSubsetMap).

Lemma extend_group_sels_marks group pSels heap p heap' :
  extend_group_sels group pSels heap = Returns (p, heap') →
  marks_only heap heap'
  ∧ ∀ ext address e, ext ∈ group → ext.2 = Some address → heap !! address = Some e →
      elements e ≠ [] → marked heap' address.
Proof.
  revert pSels heap. induction group as [|[extender [address|]] rest IH]; intros pSels heap.
  - intros [= <- <-]. split; [apply marks_only_refl|]. intros ext a e Hin. by apply elem_of_nil in Hin.
  - cbn [extend_group_sels snd deref Outcome_bind].
    destruct (heap !! address) as [pCompound|] eqn:Hlookup; [|done].
    cbn [deref Outcome_bind]. intros Hrun.
    apply IH in Hrun as [Hrest Hmarked].
    assert (Hstep : marks_only heap
              match elements pCompound with
              | [] => heap
              | _ => <[address := set_extended pCompound]> heap
              end).
    { destruct (elements pCompound); [apply marks_only_refl|by apply marks_only_insert]. }
    split; [by eapply marks_only_trans|].
    intros ext a e Hin Ha He Hne. apply elem_of_cons in Hin as [->|Hin].
    + cbn [snd] in Ha. injection Ha as <-. rewrite Hlookup in He. injection He as <-.
      eapply marked_mono; [exact Hrest|].
      destruct (elements pCompound) as [|s ss] eqn:Hels; [done|].
      exists (set_extended pCompound). unfold Heap in *.
      rewrite list_lookup_insert_eq by (by eapply lookup_lt_Some).
      split; [done|]. by destruct pCompound.
    + destruct (marks_only_lookup _ _ _ _ Hstep He) as (e' & He' & Hcases).
      apply (Hmarked ext a e' Hin Ha He').
      destruct Hcases as [-> | ->]; [done|by destruct e].
  - done.
Qed.

Lemma extend_group_marks pSelector groupedPair heap pushed heap' :
  extend_group pSelector groupedPair heap = Returns (pushed, heap') →
  marks_only heap heap'
  ∧ ∀ ext address e, ext ∈ groupedPair.2 → ext.2 = Some address → heap !! address = Some e →
      elements e ≠ [] → marked heap' address.
Proof.
  unfold extend_group, St_bind.
  destruct (extend_group_sels _ _ heap) as [[pSels heap1]| | |] eqn:Hsels; try discriminate.
  cbn [Outcome_bind fst snd]. intros Hrun.
  apply extend_group_sels_marks in Hsels.
  assert (heap' = heap1) as ->; [|done].
  destruct (unify_with _ _) as [u|]; [|by injection Hrun].
  destruct (_ =? _); by injection Hrun.
Qed.

Lemma extend_groups_marks pSelector arr holder heap holder' heap' :
  extend_groups pSelector arr holder heap = Returns (holder', heap') →
  marks_only heap heap'
  ∧ ∀ groupedPair ext address e, groupedPair ∈ arr → ext ∈ groupedPair.2 →
      ext.2 = Some address → heap !! address = Some e → elements e ≠ [] →
      marked heap' address.
Proof.
  revert holder heap. induction arr as [|gp rest IH]; intros holder heap.
  - intros [= <- <-]. split; [apply marks_only_refl|].
    intros ? ? ? ? Hin. by apply elem_of_nil in Hin.
  - cbn [extend_groups]. unfold St_bind at 1.
    destruct (extend_group pSelector gp heap) as [[pushed heap1]| | |] eqn:Hgp; try discriminate.
    cbn [Outcome_bind fst snd]. intros Hrun.
    apply extend_group_marks in Hgp as [Hstep Hmarked].
    apply IH in Hrun as [Hrest Hmarked'].
    split; [by eapply marks_only_trans|].
    intros groupedPair ext a e Hin Hext Ha He Hne.
    apply elem_of_cons in Hin as [->|Hin].
    + eapply marked_mono; [exact Hrest|]. by eapply Hmarked.
    + destruct (marks_only_lookup _ _ _ _ Hstep He) as (e' & He' & Hcases).
      apply (Hmarked' groupedPair ext a e' Hin Hext Ha He').
      destruct Hcases as [-> | ->]; [done|by destruct e].
Qed.

Lemma extend_holder_frames recurse holder seen isReplace extendedSelectors :
  (∀ pNew seen' isReplace' isOriginal, frames (recurse pNew seen' isReplace' isOriginal)) →
  frames (extend_holder recurse holder seen isReplace extendedSelectors).
Proof.
  intros Hrec. revert extendedSelectors.
  induction holder as [|[pSels pNewSelector] rest IH]; intros extendedSelectors.
  - apply frames_ret.
  - cbn [extend_holder]. destruct (seen_contains pSels seen); [apply IH|].
    apply frames_bind; [apply Hrec|]. intros r.
    apply frames_bind; [apply frames_lift|]. intros recursed. apply IH.
Qed.

Lemma same_hash_sym (k1 k2 : Complex_Selector) : same_hash k1 k2 = same_hash k2 k1.
Proof. unfold same_hash. apply N.eqb_sym. Qed.

Lemma group_order_keeps keyed order key :
  existsb (same_hash key) order = true → existsb (same_hash key) (group_order keyed order) = true.
Proof.
  revert order. induction keyed as [|[k e] keyed IH]; intros order Horder; [done|].
  cbn [group_order]. destruct (existsb (same_hash k) order); apply IH; [done|].
  rewrite existsb_app. by rewrite Horder.
Qed.

Lemma group_order_covers keyed order key ext :
  (key, ext) ∈ keyed → existsb (same_hash key) (group_order keyed order) = true.
Proof.
  revert order. induction keyed as [|[k e] keyed IH]; intros order Hin.
  - by apply elem_of_nil in Hin.
  - cbn [group_order]. apply elem_of_cons in Hin as [[= <- <-]|Hin].
    + destruct (existsb (same_hash key) order) eqn:Hex; apply group_order_keeps; [done|].
      rewrite existsb_app. cbn [existsb]. unfold same_hash at 2. rewrite N.eqb_refl.
      by rewrite orb_true_r.
    + destruct (existsb (same_hash k) order); by apply IH.
Qed.

Lemma extender_keys_elem entries keyed ext :
  extender_keys entries = Returns keyed → ext ∈ entries → ∃ key, (key, ext) ∈ keyed.
Proof.
  revert keyed. induction entries as [|[[pSelector|] extendee] rest IH]; intros keyed.
  - intros _ Hin. by apply elem_of_nil in Hin.
  - cbn [extender_keys fst deref Outcome_bind].
    destruct (extender_keys rest) as [keyed'| | |]; try discriminate.
    cbn [Outcome_bind]. intros [= <-] Hin. apply elem_of_cons in Hin as [->|Hin].
    + exists pSelector. by left.
    + destruct (IH keyed' eq_refl Hin) as [key Hkey]. exists key. by right.
  - discriminate.
Qed.

(** Every entry is in one of the groups. *)
Lemma group_by_to_a_covers entries arr ext :
  group_by_to_a entries = Returns arr → ext ∈ entries →
  ∃ groupedPair, groupedPair ∈ arr ∧ ext ∈ groupedPair.2.
Proof.
  unfold group_by_to_a.
  destruct (extender_keys entries) as [keyed| | |] eqn:Hkeyed; try discriminate.
  cbn [Outcome_bind]. intros [= <-] Hin.
  destruct (extender_keys_elem _ _ _ Hkeyed Hin) as [key Hkey].
  pose proof (group_order_covers keyed [] key ext Hkey) as Hex.
  apply existsb_exists in Hex as (key' & Hin' & Hsame).
  exists (key', snd <$> List.filter (fun e => same_hash key' e.1) keyed). split.
  - apply list_elem_of_fmap. exists key'. split; [done|]. by apply list_elem_of_In.
  - cbn [snd]. apply list_elem_of_fmap. exists (key, ext). split; [done|].
    apply list_elem_of_In, filter_In. split; [by apply list_elem_of_In|].
    cbn [fst]. by rewrite same_hash_sym.
Qed.

Lemma extendCompoundSelector_with_marks recurse pSelector seen isReplace heap node heap' :
  (∀ pNew seen' isReplace' isOriginal, frames (recurse pNew seen' isReplace' isOriginal)) →
  extendCompoundSelector_with subset_map recurse (Some pSelector) seen isReplace heap
  = Returns (node, heap') →
  marks_only heap heap'
  ∧ ∀ ext address e, ext ∈ get_v subset_map (to_str_vec pSelector) →
      ext.2 = Some address → heap !! address = Some e → elements e ≠ [] →
      marked heap' address.
Proof.
  intros Hrec. unfold extendCompoundSelector_with, St_bind, St_lift.
  cbn [deref Outcome_bind fst snd].
  destruct (group_by_to_a _) as [arr| | |] eqn:Harr; try discriminate.
  cbn [Outcome_bind fst snd].
  destruct (extend_groups pSelector arr [] heap) as [[holder heap1]| | |] eqn:Hgroups;
    try discriminate.
  cbn [Outcome_bind fst snd].
  destruct (extend_holder recurse holder seen isReplace [] heap1) as [[ext heap2]| | |] eqn:Hholder;
    try discriminate.
  cbn [Outcome_bind fst snd St_ret]. intros [= <- <-].
  apply extend_groups_marks in Hgroups as [Hstep Hmarked].
  apply (extend_holder_frames recurse holder seen isReplace [] Hrec) in Hholder.
  split; [by eapply marks_only_trans|].
  intros ext' a e Hin Ha He Hne.
  destruct (group_by_to_a_covers _ _ _ Harr Hin) as (gp & Hgp & Hext).
  eapply marked_mono; [exact Hholder|]. by eapply Hmarked.
Qed.

Lemma extendCompoundSelector_with_frames recurse pSelector seen isReplace :
  (∀ pNew seen' isReplace' isOriginal, frames (recurse pNew seen' isReplace' isOriginal)) →
  frames (extendCompoundSelector_with subset_map recurse pSelector seen isReplace).
Proof.
  intros Hrec heap node heap'. destruct pSelector as [pSelector|]; [|done].
  intros Hrun. by apply (extendCompoundSelector_with_marks _ _ _ _ _ _ _ Hrec) in Hrun as [? _].
Qed.

Lemma extend_nodes_frames extendCompound pComplexSelector nodes seen isReplace isOriginal acc :
  (∀ pSelector seen' isReplace', frames (extendCompound pSelector seen' isReplace')) →
  frames (extend_nodes extendCompound pComplexSelector nodes seen isReplace isOriginal acc).
Proof.
  intros Hcompound. revert acc. induction nodes as [|sseqOrOp rest IH]; intros acc.
  - apply frames_ret.
  - cbn [extend_nodes]. apply frames_bind; [|intros pushed; apply IH].
    unfold extend_node. destruct (negb (isSelector sseqOrOp)); [apply frames_ret|].
    apply frames_bind; [apply frames_lift|]. intros sel.
    apply frames_bind; [apply Hcompound|]. intros extended.
    apply frames_bind; [apply frames_lift|]. intros children. cbn zeta.
    apply frames_bind; [apply frames_lift|]. intros [|]; apply frames_ret.
Qed.

Lemma extendComplexSelector_rec_frames depth pComplexSelector seen isReplace isOriginal :
  frames (extendComplexSelector_rec subset_map depth pComplexSelector seen isReplace isOriginal).
Proof.
  revert pComplexSelector seen isReplace isOriginal.
  induction depth as [|depth IH]; intros pComplexSelector seen isReplace isOriginal; [done|].
  cbn [extendComplexSelector_rec]. unfold extendComplexSelector_with. cbn zeta.
  apply frames_bind; [apply frames_lift|]. intros nodes.
  apply frames_bind; [|intros ?; apply frames_lift].
  apply extend_nodes_frames. intros pSelector seen' isReplace'.
  by apply extendCompoundSelector_with_frames.
Qed.

(** X14.  What [extendCompoundSelector] does to the extendees.  When it
    returns, every extendee that the lookup found for the compound and
    that holds a simple selector is marked [extended], whether or not its
    extender could be unified with the compound; and the store differs from
    the one before by marks only. *)
Theorem extendCompoundSelector_marks_found (pSelector : Compound_Selector) (seen : Seen)
    (isReplace : bool) (heap heap' : Heap) (node : Node) :
  extendCompoundSelector subset_map (Some pSelector) seen isReplace heap = Returns (node, heap') →
  marks_only heap heap'
  ∧ ∀ ext address e,
      ext ∈ get_v subset_map (to_str_vec pSelector) →
      ext.2 = Some address → heap !! address = Some e → elements e ≠ [] →
      ∃ e', heap' !! address = Some e' ∧ extended e' = true.
Proof.
  unfold extendCompoundSelector.
  apply extendCompoundSelector_with_marks. intros. apply extendComplexSelector_rec_frames.
Qed.

Lemma frames_run {A : Type} (m : St A) heap a heap' :
  frames m → m heap = Returns (a, heap') → marks_only heap heap'.
Proof. intros Hm. apply Hm. Qed.

Lemma extendSelectorList_loop_frames selectors isReplace seen pNewSelectors extendedSomething :
  frames (extendSelectorList_loop subset_map selectors isReplace seen pNewSelectors
                                  extendedSomething).
Proof.
  revert pNewSelectors extendedSomething.
  induction selectors as [|pSelector rest IH]; intros pNewSelectors extendedSomething.
  - apply frames_ret.
  - intros heap r heap'. cbn [extendSelectorList_loop].
    destruct (complexSelectorHasExtension _ _ _ _) as [[|]| | |]; try discriminate;
      cbn [Outcome_bind negb]; [|apply IH].
    apply frames_run.
    apply frames_bind; [apply extendComplexSelector_rec_frames|]. intros extendedSelectors.
    apply frames_bind; [apply frames_lift|]. intros children.
    destruct (_ && _); [apply IH|].
    apply frames_bind; [apply frames_lift|]. intros pushed. apply IH.
Qed.

Lemma complex_tail_ind (P : Complex_Selector → Prop) :
  (∀ c h lf, P (mkComplex c h None lf)) →
  (∀ c h t lf, P t → P (mkComplex c h (Some t) lf)) →
  ∀ s, P s.
Proof.
  intros Hnone Hsome. fix ind 1. intros [c h [t|] lf]; [apply Hsome, ind|apply Hnone].
Qed.

Section UnwrapStore.
Variable extendInner : list Complex_Selector → Seen → St (list Complex_Selector).
Hypothesis extendInner_frames : ∀ sl recseen, frames (extendInner sl recseen).

Lemma unwrap_simples_frames simples recseen cpy_head :
  frames (unwrap_simples extendInner simples recseen cpy_head).
Proof.
  revert cpy_head. induction simples as [|hs rest IH]; intros cpy_head; [apply frames_ret|].
  destruct hs as [| | | | | | |name [[|cs sl]|]]; cbn [unwrap_simples]; try apply IH.
  apply frames_bind; [apply extendInner_frames|]. intros ext_sl. apply IH.
Qed.

Lemma unwrap_head_frames pHead seen :
  frames
    match pHead with
    | Some h =>
        if seen_contains h seen then St_ret (Some h)
        else
          dos cpy_head <- unwrap_simples extendInner (elements h) (seen_insert h seen) emptyCompound;
          St_ret (Some cpy_head)
    | None => St_ret None
    end.
Proof.
  destruct pHead as [h|]; [|apply frames_ret].
  destruct (seen_contains h seen); [apply frames_ret|].
  apply frames_bind; [apply unwrap_simples_frames|]. intros ?. apply frames_ret.
Qed.

Lemma unwrap_selector_frames cur seen : frames (unwrap_selector extendInner cur seen).
Proof.
  induction cur as [c h lf|c h t lf IH] using complex_tail_ind; cbn [unwrap_selector].
  - apply frames_bind; [apply unwrap_head_frames|]. intros pHead.
    apply frames_bind; [apply frames_ret|]. intros ?. apply frames_ret.
  - apply frames_bind; [apply unwrap_head_frames|]. intros pHead.
    apply frames_bind; [|intros ?; apply frames_ret].
    apply frames_bind; [apply IH|]. intros ?. apply frames_ret.
Qed.

Lemma unwrap_selectors_frames selectors seen : frames (unwrap_selectors extendInner selectors seen).
Proof.
  induction selectors as [|cur rest IH]; [apply frames_ret|]. cbn [unwrap_selectors].
  apply frames_bind; [apply unwrap_selector_frames|]. intros ?.
  apply frames_bind; [apply IH|]. intros ?. apply frames_ret.
Qed.

End UnwrapStore.

Lemma extendSelectorList_seen_frames depth pSelectorList isReplace seen :
  frames (extendSelectorList_seen subset_map depth pSelectorList isReplace seen).
Proof.
  revert pSelectorList isReplace seen.
  induction depth as [|depth IH]; intros pSelectorList isReplace seen; [done|].
  cbn [extendSelectorList_seen].
  apply frames_bind; [apply extendSelectorList_loop_frames|]. intros r.
  apply frames_bind; [|intros ?; apply frames_ret].
  apply unwrap_selectors_frames. intros sl recseen.
  apply frames_bind; [apply IH|]. intros ?. apply frames_ret.
Qed.

Lemma extendObjectWithSelectorAndBlock_frames depth selector block :
  frames (extendObjectWithSelectorAndBlock subset_map depth selector block).
Proof.
  unfold extendObjectWithSelectorAndBlock. destruct (negb _); [apply frames_ret|].
  apply frames_bind; [apply extendSelectorList_seen_frames|]. intros ?. apply frames_ret.
Qed.

Fixpoint Extend_Block_frames (depth : nat) (b : Block) {struct b}
    : frames (Extend_Block subset_map depth b)
with Extend_Statement_frames (depth : nat) (stm : Statement) {struct stm}
    : frames (Extend_Statement subset_map depth stm).
Proof.
  - destruct b as [root stms]. rewrite Extend_Block_unfold.
    apply frames_bind.
    + induction stms as [|stm rest IH]; [apply frames_ret|]. cbn [perform_statements].
      apply frames_bind; [apply Extend_Statement_frames|]. intros ?. apply IH.
    + intros ?. destruct root; [|apply frames_ret].
      intros heap r heap'. destruct (check_extended _ heap); try discriminate.
      intros [= <- <-]. apply marks_only_refl.
  - destruct stm as [selector block|block|block|[block|]|]; cbn [Extend_Statement];
      try apply Extend_Block_frames; try apply frames_ret.
    apply frames_bind; [apply extendObjectWithSelectorAndBlock_frames|]. intros ?.
    apply Extend_Block_frames.
Qed.

(** X15.  The walk only marks.  When [Extend::operator()] returns for a
    block, the store holds the same extendees at the same addresses, some of
    them now marked [extended] and nothing else changed; so an entry the
    final check accepts before the walk is accepted after it, whatever the
    tree holds. *)
Theorem Extend_Block_marks_only (depth : nat) (b : Block) (heap heap' : Heap) :
  Extend_Block subset_map depth b heap = Returns (tt, heap') →
  length heap' = length heap
  ∧ (∀ address e, heap !! address = Some e →
       heap' !! address = Some e ∨ heap' !! address = Some (set_extended e))
  ∧ (∀ it, entry_satisfied heap it = true → entry_satisfied heap' it = true).
Proof.
  intros Hrun. apply Extend_Block_frames in Hrun. split_and!.
  - symmetry. by eapply Forall2_length.
  - intros address e He.
    destruct (marks_only_lookup _ _ _ _ Hrun He) as (e' & -> & [-> | ->]); auto.
  - intros it. by apply entry_satisfied_mono.
Qed.

Fixpoint block_holds_rulesets_only_walk (depth : nat) (b : Block) (heap : Heap) {struct b}
    : block_holds_rulesets_only b = true → Extend_Block subset_map depth b heap = Returns (tt, heap)
with holds_rulesets_only_walk (depth : nat) (stm : Statement) (heap : Heap) {struct stm}
    : holds_rulesets_only stm = true → Extend_Statement subset_map depth stm heap = Returns (tt, heap).
Proof.
  - destruct b as [root stms]. rewrite Extend_Block_unfold. cbn [block_holds_rulesets_only].
    intros [Hroot Hstms]%andb_true_iff. apply negb_true_iff in Hroot as ->.
    unfold St_bind.
    assert (Hwalk : perform_statements subset_map depth stms heap = Returns (tt, heap)).
    { induction stms as [|stm rest IH]; [done|]. cbn [perform_statements].
      apply andb_true_iff in Hstms as [Hstm Hrest]. unfold St_bind.
      rewrite holds_rulesets_only_walk by done. cbn [Outcome_bind fst snd]. by apply IH. }
    by rewrite Hwalk.
  - destruct stm as [selector block|block|block|[block|]|]; cbn [Extend_Statement holds_rulesets_only];
      try apply block_holds_rulesets_only_walk; try done.
    intros [Hshould Hblock]%andb_true_iff. unfold St_bind, extendObjectWithSelectorAndBlock.
    rewrite Hshould. cbn [St_ret Outcome_bind fst snd].
    by apply block_holds_rulesets_only_walk.
Qed.

(** X16.  Rulesets without output are not extended.  When no ruleset of
    the sheet holds anything but rulesets in its block, the walk of the
    statements extends no selector list and leaves the store as it was: the
    root block then runs the final check on the store it was given, whatever
    the subset map holds. *)
Theorem rulesets_without_output_not_extended (depth : nat) (stms : list Statement) (heap : Heap) :
  forallb holds_rulesets_only stms = true →
  perform_statements subset_map depth stms heap = Returns (tt, heap)
  ∧ Extend_Block subset_map depth (mkBlock true stms) heap
    = (do _ <- check_extended (values subset_map) heap; Returns (tt, heap)).
Proof.
  intros Hstms.
  assert (Hwalk : perform_statements subset_map depth stms heap = Returns (tt, heap)).
  { induction stms as [|stm rest IH]; [done|]. cbn [perform_statements].
    apply andb_true_iff in Hstms as [Hstm Hrest]. unfold St_bind.
    rewrite holds_rulesets_only_walk by done. cbn [Outcome_bind fst snd]. by apply IH. }
  split; [done|]. rewrite Extend_Block_unfold. unfold St_bind. by rewrite Hwalk.
Qed.

End StoreFacts.

(** ** complexSelectorHasExtension: the media blocks of the extendees *)

Section MediaBoundary.
Context `{Ast} (subset_map : ExtensionSubsetMap).

Lemma check_media_block_allowed pHead heap ext :
  entry_allowed pHead heap ext = true → check_media_block pHead heap ext = Returns tt.
Proof.
  unfold entry_allowed, check_media_block, may_extend.
  destruct ext.2 as [address|]; [|done]. cbn [mbind option_bind deref Outcome_bind].
  destruct (heap !! address) as [e|]; [|done]. cbn [deref Outcome_bind].
  destruct (media_block e) as [ext_block|]; [|done].
  destruct (media_block pHead) as [head_block|]; [|done].
  destruct (media_queries ext_block) as [query_left|]; [|done].
  destruct (media_queries head_block) as [query_right|]; [|done].
  by intros ->.
Qed.

Lemma check_media_block_across pHead heap ext address e :
  ext.2 = Some address → heap !! address = Some e → may_extend pHead e = false →
  check_media_block pHead heap ext = Thrown (media_boundary_message (compound_to_string e)).
Proof.
  unfold check_media_block, may_extend. intros -> He. cbn [deref Outcome_bind].
  unfold Heap in *. rewrite He. cbn [deref Outcome_bind].
  destruct (media_block e) as [ext_block|]; [|done].
  destruct (media_block pHead) as [head_block|]; [|done].
  destruct (media_queries ext_block) as [query_left|]; [|done].
  destruct (media_queries head_block) as [query_right|]; [|done].
  by intros ->.
Qed.

Lemma check_media_blocks_allowed pHead heap entries rest :
  forallb (entry_allowed pHead heap) entries = true →
  check_media_blocks pHead heap (entries ++ rest) = check_media_blocks pHead heap rest.
Proof.
  induction entries as [|ext entries IH]; [done|].
  cbn [forallb app check_media_blocks]. intros [Hext Hrest]%andb_true_iff.
  rewrite check_media_block_allowed by done. by apply IH.
Qed.

Lemma visit_all_no_inner_list seen heap simples :
  forallb no_inner_list simples = true →
  visit_all (fun pSimple => has_extension_simple subset_map pSimple seen heap) simples
  = Returns false.
Proof.
  induction simples as [|s simples IH]; [done|].
  cbn [forallb visit_all]. intros [Hs Hrest]%andb_true_iff.
  rewrite has_extension_simple_unfold, IH by done.
  by destruct s as [| | | | | | |name [sl|]].
Qed.

(** X17.  The entries found for a head, when the head is in [seen] or holds
    no wrapped selector with an inner list.  When every extendee found may
    be extended from the head (it is in no media block, or in one with the
    queries of the head's) the selector has an extension as soon as one
    entry is found, and without any entry the answer is the one for the
    tail.  Otherwise the call raises the error for the first extendee that
    may not be extended, whatever the tail holds. *)
Theorem complexSelectorHasExtension_media_boundary (c : Complex_Selector)
    (pHead : Compound_Selector) (seen : Seen) (heap : Heap) :
  head c = Some pHead →
  seen_contains pHead seen = true ∨ forallb no_inner_list (elements pHead) = true →
  let entries := get_v subset_map (to_str_vec pHead) in
  (entries = [] →
   complexSelectorHasExtension subset_map c seen heap
   = match tail c with
     | Some pTail => complexSelectorHasExtension subset_map pTail seen heap
     | None => Returns false
     end)
  ∧ (entries ≠ [] → forallb (entry_allowed pHead heap) entries = true →
     complexSelectorHasExtension subset_map c seen heap = Returns true)
  ∧ (∀ allowed ext rest address e,
       entries = allowed ++ ext :: rest →
       forallb (entry_allowed pHead heap) allowed = true →
       ext.2 = Some address → heap !! address = Some e → may_extend pHead e = false →
       complexSelectorHasExtension subset_map c seen heap
       = Thrown (media_boundary_message (compound_to_string e))).
Proof.
  intros Hhead Hwrapped entries.
  assert (Hvisit : has_extension_head subset_map pHead seen heap
                   = (do _ <- check_media_blocks pHead heap entries;
                      Returns (if 0 <? length entries then true else false))).
  { rewrite has_extension_head_unfold.
    destruct Hwrapped as [-> | Hsimples]; [done|].
    destruct (seen_contains pHead seen); [done|].
    by rewrite visit_all_no_inner_list. }
  rewrite complexSelectorHasExtension_unfold, Hhead, Hvisit. split_and!.
  - intros ->. cbn. by destruct (tail c).
  - intros Hne Hall.
    rewrite <- (app_nil_r entries), check_media_blocks_allowed by done.
    rewrite app_nil_r. by destruct entries.
  - intros allowed ext rest address e -> Hall Haddress He Hacross.
    rewrite check_media_blocks_allowed by done. cbn [check_media_blocks].
    by rewrite (check_media_block_across _ _ _ address e).
Qed.

End MediaBoundary.

(** ** extendCompoundSelector: the selectors returned *)

Section NoDuplicates.
Context `{Ast} (subset_map : ExtensionSubsetMap).

Lemma pairwise_different_nil : pairwise_different [].
Proof. intros i j a b _ Ha. by rewrite lookup_nil in Ha. Qed.

Lemma pairwise_different_push (l : list Node) (n : Node) :
  pairwise_different l →
  pairwise_different (if contains l n false then l else l ++ [n]).
Proof.
  intros Hl. destruct (contains l n false) eqn:Hcontains; [done|].
  intros i j a b Hlt Ha Hb.
  destruct (decide (j < length l)) as [Hj|Hj].
  - rewrite lookup_app_l in Ha, Hb by lia. exact (Hl i j a b Hlt Ha Hb).
  - apply lookup_lt_Some in Hb as Hj'. rewrite length_app in Hj'. cbn in Hj'.
    assert (j = length l) as -> by lia.
    rewrite lookup_app_l in Ha by lia.
    rewrite lookup_app_r, Nat.sub_diag in Hb by lia. injection Hb as <-.
    destruct (nodesEqual false a n) eqn:Hequal; [|done].
    assert (contains l n false = true); [|congruence].
    apply existsb_exists. exists a. split; [|done].
    apply list_elem_of_In. by eapply list_elem_of_lookup_2.
Qed.

Lemma push_new_selectors_different (extendedSelectors recursed : list Node) :
  pairwise_different extendedSelectors →
  pairwise_different (push_new_selectors extendedSelectors recursed).
Proof.
  revert extendedSelectors. unfold push_new_selectors.
  induction recursed as [|n recursed IH]; intros extendedSelectors Hdiff; [done|].
  cbn [foldl]. by apply IH, pairwise_different_push.
Qed.

Lemma extend_holder_different recurse holder seen isReplace extendedSelectors heap r heap' :
  pairwise_different extendedSelectors →
  extend_holder recurse holder seen isReplace extendedSelectors heap = Returns (r, heap') →
  pairwise_different r.
Proof.
  revert extendedSelectors heap.
  induction holder as [|[pSels pNewSelector] rest IH]; intros extendedSelectors heap Hdiff.
  - by intros [= <- <-].
  - cbn [extend_holder]. destruct (seen_contains pSels seen); [by apply IH|].
    unfold St_bind at 1.
    destruct (recurse _ _ _ _ heap) as [[node heap1]| | |]; try discriminate.
    cbn [Outcome_bind fst snd]. unfold St_bind at 1, St_lift.
    destruct (collection node) as [recursed|]; [|done].
    cbn [deref Outcome_bind fst snd]. apply IH. by apply push_new_selectors_different.
Qed.

(** X18.  [extendCompoundSelector] returns no selector twice.  What it
    returns is a collection, and no node of the collection is equal, simple
    selectors compared as a set, to a node that comes later in it. *)
Theorem extendCompoundSelector_no_duplicates (pSelector : option Compound_Selector)
    (seen : Seen) (isReplace : bool) (heap heap' : Heap) (node : Node) :
  extendCompoundSelector subset_map pSelector seen isReplace heap = Returns (node, heap') →
  ∃ children, node = CollectionNode false children ∧ pairwise_different children.
Proof.
  unfold extendCompoundSelector, extendCompoundSelector_with, St_bind, St_lift.
  destruct pSelector as [pSelector|]; [|done]. cbn [deref Outcome_bind fst snd].
  destruct (group_by_to_a _) as [arr| | |]; try discriminate.
  cbn [Outcome_bind fst snd].
  destruct (extend_groups pSelector arr [] heap) as [[holder heap1]| | |]; try discriminate.
  cbn [Outcome_bind fst snd].
  destruct (extend_holder _ holder seen isReplace [] heap1) as [[ext heap2]| | |] eqn:Hholder;
    try discriminate.
  cbn [Outcome_bind fst snd St_ret]. intros [= <- <-].
  exists ext. split; [done|].
  eapply extend_holder_different; [|exact Hholder]. apply pairwise_different_nil.
Qed.

End NoDuplicates.

(** ** extendSelectorList: the flag [extendedSomething] *)

Section ExtendedSomething.
Context `{Ast} (subset_map : ExtensionSubsetMap).

Lemma extendSelectorList_loop_flag selectors isReplace seen pNewSelectors heap r heap' :
  extendSelectorList_loop subset_map selectors isReplace seen pNewSelectors true heap
  = Returns (r, heap') →
  r.2 = true.
Proof.
  revert pNewSelectors heap. induction selectors as [|pSelector rest IH]; intros pNewSelectors heap.
  - by intros [= <- <-].
  - cbn [extendSelectorList_loop].
    destruct (complexSelectorHasExtension _ _ _ _) as [[|]| | |]; try discriminate;
      cbn [Outcome_bind negb]; [|apply IH].
    unfold St_bind at 1.
    destruct (extendComplexSelector _ _ _ _ _ heap) as [[node heap1]| | |]; try discriminate.
    cbn [Outcome_bind fst snd]. unfold St_bind at 1, St_lift.
    destruct (collection node) as [children|]; [|done]. cbn [deref Outcome_bind fst snd].
    destruct (_ && _); [apply IH|].
    unfold St_bind at 1, St_lift.
    destruct (extended_selectors isReplace children) as [pushed| | |]; try discriminate.
    cbn [Outcome_bind fst snd]. apply IH.
Qed.

(** X19.  When [extendedSomething] is false.  The loop over the selectors
    of a list passes every selector for which [complexSelectorHasExtension]
    answers false and leaves the store alone for it; and when the loop,
    entered with the flag false, returns with the flag false, then no
    selector of the list had an extension, the list returned is the list
    passed and the store is the one before. *)
Theorem extendSelectorList_loop_nothing_extended (selectors : list Complex_Selector)
    (isReplace : bool) (seen : Seen) (pNewSelectors : list Complex_Selector) (heap : Heap) :
  (∀ extendedSomething,
     Forall (fun pSelector =>
               complexSelectorHasExtension subset_map pSelector seen heap = Returns false)
            selectors →
     extendSelectorList_loop subset_map selectors isReplace seen pNewSelectors
                             extendedSomething heap
     = Returns ((pNewSelectors ++ selectors, extendedSomething), heap))
  ∧ (∀ l heap',
       extendSelectorList_loop subset_map selectors isReplace seen pNewSelectors false heap
       = Returns ((l, false), heap') →
       l = pNewSelectors ++ selectors ∧ heap' = heap
       ∧ Forall (fun pSelector =>
                   complexSelectorHasExtension subset_map pSelector seen heap = Returns false)
                selectors).
Proof.
  split.
  - intros extendedSomething Hnone. revert pNewSelectors.
    induction Hnone as [|pSelector rest Hhere _ IH]; intros pNewSelectors.
    + cbn. by rewrite app_nil_r.
    + cbn [extendSelectorList_loop]. rewrite Hhere. cbn [Outcome_bind negb].
      rewrite IH. by rewrite <- app_assoc.
  - revert pNewSelectors. induction selectors as [|pSelector rest IH]; intros pNewSelectors l heap'.
    + intros [= <- <-]. by rewrite app_nil_r.
    + cbn [extendSelectorList_loop].
      destruct (complexSelectorHasExtension _ _ _ _) as [[|]| | |] eqn:Hhere; try discriminate;
        cbn [Outcome_bind negb].
      * intros Hrun. exfalso.
        unfold St_bind at 1 in Hrun.
        destruct (extendComplexSelector _ _ _ _ _ heap) as [[node heap1]| | |]; try discriminate.
        cbn [Outcome_bind fst snd] in Hrun. unfold St_bind at 1, St_lift in Hrun.
        destruct (collection node) as [children|]; [|done].
        cbn [deref Outcome_bind fst snd] in Hrun.
        destruct (_ && _); [by apply extendSelectorList_loop_flag in Hrun|].
        unfold St_bind at 1, St_lift in Hrun.
        destruct (extended_selectors isReplace children) as [pushed| | |]; try discriminate.
        cbn [Outcome_bind fst snd] in Hrun.
        by apply extendSelectorList_loop_flag in Hrun.
      * intros Hrun. apply IH in Hrun as (-> & -> & Hrest).
        split_and!; [by rewrite <- app_assoc|done|by constructor].
Qed.

End ExtendedSomething.

(** ** extendCompoundSelector: null pointers and compounds without entry *)

Section CompoundEdges.
Context `{Ast} (subset_map : ExtensionSubsetMap).

Lemma extender_keys_null entries extendee :
  (None, extendee) ∈ entries → extender_keys entries = Undefined.
Proof.
  induction entries as [|[[pSelector|] e] rest IH]; intros Hin.
  - by apply elem_of_nil in Hin.
  - apply elem_of_cons in Hin as [[=]|Hin].
    cbn [extender_keys fst deref Outcome_bind]. by rewrite IH.
  - done.
Qed.

(** X20.  [extendCompoundSelector] at the edges.  A null compound is
    dereferenced, which is undefined.  For a compound that no key of the
    subset map is a subset of, the result is the empty collection and the
    store is left alone.  An entry found whose extender is null makes the
    call undefined, wherever it stands among the entries found: the
    grouping dereferences every extender before the first group is
    looked at. *)
Theorem extendCompoundSelector_edges (seen : Seen) (isReplace : bool) (heap : Heap) :
  extendCompoundSelector subset_map None seen isReplace heap = Undefined
  ∧ (∀ pSelector,
       get_v subset_map (to_str_vec pSelector) = [] →
       extendCompoundSelector subset_map (Some pSelector) seen isReplace heap
       = Returns (CollectionNode false [], heap))
  ∧ (∀ pSelector extendee,
       (None, extendee) ∈ get_v subset_map (to_str_vec pSelector) →
       extendCompoundSelector subset_map (Some pSelector) seen isReplace heap = Undefined).
Proof.
  split_and!; [done| |].
  - intros pSelector Hnone.
    unfold extendCompoundSelector, extendCompoundSelector_with, St_bind, St_lift.
    cbn [deref Outcome_bind fst snd]. by rewrite Hnone.
  - intros pSelector extendee Hin.
    unfold extendCompoundSelector, extendCompoundSelector_with, St_bind, St_lift.
    cbn [deref Outcome_bind fst snd]. unfold group_by_to_a.
    by rewrite (extender_keys_null _ _ Hin).
Qed.

End CompoundEdges.

(** ** Examples of the further properties *)

Module FurtherExamples.
#[local] Existing Instance SpecModel.ast.
Import Examples MoreExamples.

(** [.a > +] against [.b +]: the longer list of operators is kept. *)
Lemma mergeFinalOps_several_operators_witness :
  mergeFinalOps (coll [SpecModel.sel [a]; child; plus]) (coll [SpecModel.sel [b]; plus]) (coll [])
  = Returns (coll [SpecModel.sel [a]], coll [SpecModel.sel [b]], coll [child; plus]).
Proof.
  refine (proj2 (mergeFinalOps_several_operators false false false
                   [SpecModel.sel [a]] [SpecModel.sel [b]] [child; plus] [plus] []
                   _ _ _ _ _) _).
  - by repeat constructor.
  - by repeat constructor.
  - by intros n [= <-].
  - by intros n [= <-].
  - left. cbn. lia.
  - right. apply sublist_cons, sublist_skip, sublist_nil.
Defined.

(** [.a >] against [.b ~]: [.b ~] is taken first. *)
Lemma mergeFinalOps_child_waits_witness :
  mergeFinalOps (coll [SpecModel.sel [a]; child]) (coll [SpecModel.sel [b]; tilde]) (coll [])
  = mergeFinalOps (coll [SpecModel.sel [a]; child]) (coll []) (coll [SpecModel.sel [b]; tilde]).
Proof.
  exact (proj1 (mergeFinalOps_child_waits false false false false false false false [] [] []
                  sel_a sel_b PRECEDES (or_introl eq_refl))).
Defined.

(** [.a >] against [.b >]: the compounds unify to [.a.b]. *)
Lemma mergeFinalOps_same_or_unknown_witness :
  mergeFinalOps (coll [SpecModel.sel [a]; child]) (coll [SpecModel.sel [b]; child]) (coll [])
  = Returns (coll [], coll [], coll [SpecModel.sel [a; b]; child]).
Proof.
  etransitivity.
  - refine (proj1 (mergeFinalOps_same_or_unknown false false false false false false false
                     [] [] [] sel_a sel_b (SpecModel.compound [a]) (SpecModel.compound [b])
                     PARENT_OF PARENT_OF eq_refl eq_refl) eq_refl _).
    discriminate.
  - vm_compute. reflexivity.
Defined.

(** [.a { @extend .b }] and [.b { @extend .a }]: extending the compound
    [.a] marks the extendee [.a] at address 1. *)
Lemma extendCompoundSelector_marks_found_witness :
  ∃ node heap',
    extendCompoundSelector mutual_extends (Some (SpecModel.compound [a])) [] false mutual_heap
    = Returns (node, heap')
    ∧ marks_only mutual_heap heap'
    ∧ ∃ e', heap' !! 1 = Some e' ∧ extended e' = true.
Proof.
  destruct (extendCompoundSelector mutual_extends (Some (SpecModel.compound [a])) [] false
              mutual_heap) as [[node heap']| | |] eqn:Hrun;
    [|exfalso; vm_compute in Hrun; discriminate..].
  exists node, heap'. split; [reflexivity|].
  destruct (extendCompoundSelector_marks_found mutual_extends (SpecModel.compound [a]) [] false
              mutual_heap heap' node Hrun) as [Hmarks Hfound].
  split; [exact Hmarks|].
  apply (Hfound (Some (with_parent sel_b), Some 1) 1 (SpecModel.compound [a])).
  - vm_compute. constructor.
  - reflexivity.
  - reflexivity.
  - discriminate.
Defined.

(** The walk of [.a, .b { color: red }] under the same two extends. *)
Lemma Extend_Block_marks_only_witness :
  ∃ heap',
    Extend_Block mutual_extends 1 (mkBlock true sheet_a_b) mutual_heap = Returns (tt, heap')
    ∧ length heap' = length mutual_heap
    ∧ entry_satisfied heap' (Some (with_parent sel_a), Some 0) = true.
Proof.
  destruct (Extend_Block mutual_extends 1 (mkBlock true sheet_a_b) mutual_heap)
    as [[[] heap']| | |] eqn:Hrun; [|exfalso; vm_compute in Hrun; discriminate..].
  exists heap'. split; [reflexivity|].
  destruct (Extend_Block_marks_only mutual_extends 1 (mkBlock true sheet_a_b) mutual_heap heap'
              Hrun) as (Hlength & _ & _).
  split; [exact Hlength|].
  vm_compute in Hrun. injection Hrun as <-. reflexivity.
Defined.

(** [.a { .b { } }] under [.x { @extend .y }]: nothing is extended. *)
Lemma rulesets_without_output_not_extended_witness :
  perform_statements one_unmatched 1 sheet_nested unmatched_heap = Returns (tt, unmatched_heap).
Proof.
  exact (proj1 (rulesets_without_output_not_extended one_unmatched 1 sheet_nested unmatched_heap
                  eq_refl)).
Defined.

(** [.b] is extended by [.a]: the selector [.b] has an extension when the
    extendee is in no media block, and the call fails when the extendee is
    inside [@media print]. *)
Lemma complexSelectorHasExtension_media_boundary_witness :
  complexSelectorHasExtension mutual_extends sel_b [] mutual_heap = Returns true
  ∧ complexSelectorHasExtension extends_into_print sel_b [] print_heap
    = Thrown (media_boundary_message ".b").
Proof.
  split.
  - refine (proj1 (proj2 (complexSelectorHasExtension_media_boundary mutual_extends sel_b
                            (SpecModel.compound [b]) [] mutual_heap eq_refl (or_intror eq_refl)))
                  _ _).
    + vm_compute. discriminate.
    + vm_compute. reflexivity.
  - refine (proj2 (proj2 (complexSelectorHasExtension_media_boundary extends_into_print sel_b
                            (SpecModel.compound [b]) [] print_heap eq_refl (or_intror eq_refl)))
                  [] (Some (with_parent sel_a), Some 0) [] 0 b_in_print _ _ _ _ _).
    + vm_compute. reflexivity.
    + reflexivity.
    + reflexivity.
    + reflexivity.
    + reflexivity.
Defined.

(** Extending the compound [.a] under the two mutual extends. *)
Lemma extendCompoundSelector_no_duplicates_witness :
  ∃ node heap' children,
    extendCompoundSelector mutual_extends (Some (SpecModel.compound [a])) [] false mutual_heap
    = Returns (node, heap')
    ∧ node = CollectionNode false children ∧ pairwise_different children.
Proof.
  destruct (extendCompoundSelector mutual_extends (Some (SpecModel.compound [a])) [] false
              mutual_heap) as [[node heap']| | |] eqn:Hrun;
    [|exfalso; vm_compute in Hrun; discriminate..].
  destruct (extendCompoundSelector_no_duplicates mutual_extends (Some (SpecModel.compound [a]))
              [] false mutual_heap heap' node Hrun) as (children & Hnode & Hdifferent).
  exists node, heap', children. split; [reflexivity|]. split; [exact Hnode|exact Hdifferent].
Defined.

End FurtherExamples.
